(** * upload_to_imgur.py: mirroring the lnxpcs image tree into imgur albums

    A shallow embedding of [upload_to_imgur.py] and of the parts of the
    Python runtime it relies on ([str], [posixpath], [os.walk],
    [configparser.ConfigParser]), followed by the properties of the
    scanner, of the album reconciler, of the token flow and of the entry
    point.

    Conventions of the embedding:
    - Python [str] is [string]; a [dict] is a [gmap]; a JSON [null] title is
      [None].
    - Effects (client calls, console, the configuration file) are threaded
      through an explicit state-and-exception monad [M]; every call made
      on an [ImgurClient] is recorded in the [calls] log of the state.
    - The hosting service is a parameter: any type [R] of remote states with
      an [ImgurApi R] instance, so that statements hold for every behaviour
      of the service (including failures at any call).
    - The file system holds directories and regular files only: no
      symbolic links and no special files.  [realpath] is what
      [posixpath] computes when [os.lstat] finds no link.
    - Configuration values are taken free of [%] interpolation markers. *)

From Stdlib Require Import ZArith Ascii String List Bool Lia.
From stdpp Require Import base option gmap strings list fin_maps.

Open Scope string_scope.
Open Scope list_scope.

(* ===================================================================== *)
(** * Python [str] methods *)
(* ===================================================================== *)

Module PyStr.

(** [s.startswith(p)]. *)
Definition startswith (s p : string) : bool := String.prefix p s.

(** [s.endswith(suf)]: some suffix of [s] is [suf]. *)
Fixpoint endswith (s suf : string) : bool :=
  if String.eqb s suf then true
  else match s with
       | EmptyString => false
       | String _ s' => endswith s' suf
       end.

(** [s[n:]] for [0 <= n]. *)
Fixpoint drop (n : nat) (s : string) : string :=
  match n, s with
  | O, _ => s
  | S _, EmptyString => EmptyString
  | S k, String _ s' => drop k s'
  end.

(** [s.rfind(c)] for a one-character [c]: the highest index holding [c],
    or [-1].  [i] is the index of the head of [s], [last] the answer so
    far. *)
Fixpoint rfind_from (c : ascii) (s : string) (i last : Z) : Z :=
  match s with
  | EmptyString => last
  | String d s' =>
      rfind_from c s' (i + 1) (if Ascii.eqb d c then i else last)
  end.

Definition rfind (s : string) (c : ascii) : Z := rfind_from c s 0 (-1).

(** [s[:n]] for [0 <= n]. *)
Fixpoint take (n : nat) (s : string) : string :=
  match n, s with
  | O, _ => EmptyString
  | S _, EmptyString => EmptyString
  | S k, String c s' => String c (take k s')
  end.

(** [s.rstrip(c)] for a one-character [c]. *)
Fixpoint rstrip (c : ascii) (s : string) : string :=
  match s with
  | EmptyString => EmptyString
  | String d s' =>
      match rstrip c s' with
      | EmptyString => if Ascii.eqb d c then EmptyString else String d EmptyString
      | t => String d t
      end
  end.

(** [s == c * len(s)]. *)
Fixpoint all_char (c : ascii) (s : string) : bool :=
  match s with
  | EmptyString => true
  | String d s' => Ascii.eqb d c && all_char c s'
  end.

(** [s.split(c)] for a one-character separator: never empty. *)
Fixpoint split (c : ascii) (s : string) : list string :=
  match s with
  | EmptyString => [EmptyString]
  | String d s' =>
      if Ascii.eqb d c then EmptyString :: split c s'
      else match split c s' with
           | [] => [String d EmptyString]
           | x :: xs => String d x :: xs
           end
  end.

(** [sep.join(xs)]. *)
Fixpoint join (sep : string) (xs : list string) : string :=
  match xs with
  | [] => EmptyString
  | [x] => x
  | x :: rest => x +:+ sep +:+ join sep rest
  end.

(** [s.replace(old, new)] for a non-empty [old]: scan from the left, and
    at every position where [old] starts emit [new] and skip [old].
    [skip] counts the characters of a matched [old] still to be passed
    over. *)
Fixpoint replace_scan (old new : string) (skip : nat) (s : string) : string :=
  match s with
  | EmptyString => EmptyString
  | String c s' =>
      match skip with
      | S k => replace_scan old new k s'
      | O =>
          if String.prefix old s
          then new +:+ replace_scan old new (String.length old - 1) s'
          else String c (replace_scan old new O s')
      end
  end.

(** With an empty [old], Python puts [new] before every character and at
    the end. *)
Fixpoint replace_empty (new s : string) : string :=
  match s with
  | EmptyString => new
  | String c s' => new +:+ String c (replace_empty new s')
  end.

Definition replace (s old new : string) : string :=
  match old with
  | EmptyString => replace_empty new s
  | String _ _ => replace_scan old new O s
  end.

End PyStr.

(* ===================================================================== *)
(** * [posixpath] *)
(* ===================================================================== *)

Module PosixPath.

Definition sep : ascii := "/"%char.

Definition isabs (p : string) : bool := PyStr.startswith p "/".

(** [os.path.join(a, b)]. *)
Definition join (a b : string) : string :=
  if PyStr.startswith b "/" then b
  else if String.eqb a "" || PyStr.endswith a "/" then a +:+ b
  else a +:+ "/" +:+ b.

(** [os.path.join(a, *p)]. *)
Definition join_all (a : string) (p : list string) : string :=
  fold_left join p a.

(** [os.path.join(a, b, c)]. *)
Definition join3 (a b c : string) : string := join_all a [b; c].

(** [os.path.basename(p)]: [p[p.rfind('/') + 1:]]. *)
Definition basename (p : string) : string :=
  PyStr.drop (Z.to_nat (PyStr.rfind p sep + 1)) p.

(** The loop of [normpath] over the components: [abs] tells whether the
    path had initial slashes, [acc] is [new_comps] in reverse. *)
Fixpoint norm_comps (abs : bool) (acc : list string) (comps : list string)
  : list string :=
  match comps with
  | [] => rev acc
  | comp :: rest =>
      if String.eqb comp "" || String.eqb comp "." then
        norm_comps abs acc rest
      else if negb (String.eqb comp "..")
              || (negb abs && match acc with [] => true | _ => false end)
              || match acc with
                 | last :: _ => String.eqb last ".."
                 | [] => false
                 end
      then norm_comps abs (comp :: acc) rest
      else match acc with
           | _ :: acc' => norm_comps abs acc' rest
           | [] => norm_comps abs acc rest
           end
  end.

(** The number of initial slashes [normpath] keeps: two exactly when the
    path starts with two slashes and not with three. *)
Definition initial_slashes (p : string) : nat :=
  if PyStr.startswith p "/" then
    if PyStr.startswith p "//" && negb (PyStr.startswith p "///")
    then 2 else 1
  else 0.

Fixpoint slashes (n : nat) : string :=
  match n with
  | O => ""
  | S k => String sep (slashes k)
  end.

(** [os.path.normpath(p)]. *)
Definition normpath (p : string) : string :=
  match p with
  | EmptyString => "."
  | _ =>
      let n := initial_slashes p in
      let comps := norm_comps (negb (Nat.eqb n 0)) [] (PyStr.split sep p) in
      let q := slashes n +:+ PyStr.join "/" comps in
      match q with
      | EmptyString => "."
      | _ => q
      end
  end.

(** [os.path.abspath(p)], with the working directory [cwd]. *)
Definition abspath (cwd p : string) : string :=
  if isabs p then normpath p else normpath (join cwd p).

(** [os.path.split(p)]. *)
Definition split (p : string) : string * string :=
  let i := Z.to_nat (PyStr.rfind p sep + 1) in
  let head := PyStr.take i p in
  let tail := PyStr.drop i p in
  let head :=
    if negb (String.eqb head "") && negb (PyStr.all_char sep head)
    then PyStr.rstrip sep head else head in
  (head, tail).

(** The loop of [_joinrealpath], the helper of [realpath], over the
    components of what is left of the file name: [path] is the path built
    so far.  [os.lstat] is asked of every name joined on; the trees
    modelled here hold directories and regular files only, so that it
    never reports a symbolic link and the name is kept. *)
Fixpoint joinrealpath_comps (path : string) (comps : list string) : string :=
  match comps with
  | [] => path
  | name :: rest =>
      if String.eqb name "" || String.eqb name "." then
        joinrealpath_comps path rest
      else if String.eqb name ".." then
        match path with
        | EmptyString => joinrealpath_comps ".." rest
        | _ =>
            let '(head, tail) := split path in
            if String.eqb tail ".."
            then joinrealpath_comps (join_all head [".."; ".."]) rest
            else joinrealpath_comps head rest
        end
      else joinrealpath_comps (join path name) rest
  end.

(** [_joinrealpath('', filename, ...)]: an absolute file name loses its
    first slash and starts from [/]. *)
Definition joinrealpath (filename : string) : string :=
  if isabs filename
  then joinrealpath_comps "/" (PyStr.split sep (PyStr.drop 1 filename))
  else joinrealpath_comps "" (PyStr.split sep filename).

(** The components [relpath] compares:
    [[x for x in abspath(p).split(sep) if x]]. *)
Definition abs_comps (cwd p : string) : list string :=
  List.filter (fun x => negb (String.eqb x "")) (PyStr.split sep (abspath cwd p)).

Fixpoint common_prefix_len (xs ys : list string) : nat :=
  match xs, ys with
  | x :: xs', y :: ys' =>
      if String.eqb x y then S (common_prefix_len xs' ys') else O
  | _, _ => O
  end.

(** [os.path.relpath(path, start)]; [None] stands for the [ValueError]
    raised on an empty [path]. *)
Definition relpath (cwd path start : string) : option string :=
  match path with
  | EmptyString => None
  | _ =>
      let start_list := abs_comps cwd start in
      let path_list := abs_comps cwd path in
      let i := common_prefix_len start_list path_list in
      let rel_list :=
        repeat ".." (List.length start_list - i) ++ skipn i path_list in
      match rel_list with
      | [] => Some "."
      | a :: p => Some (join_all a p)
      end
  end.

End PosixPath.

(* ===================================================================== *)
(** * The file system, [os.path.isdir] and [os.walk] *)
(* ===================================================================== *)

(** A node is a regular file or a directory with its entries, in the
    order in which [os.scandir] lists them. *)
#[local] Set Warnings "-register-all".
Inductive fsnode : Type :=
| FFile
| FDir (entries : list (string * fsnode)).
#[local] Set Warnings "register-all".

Record FileSystem := {
  fs_root : fsnode;   (* the directory [/] *)
  fs_cwd : string     (* [os.getcwd()], an absolute path *)
}.

Module OS.

Definition is_dir (n : fsnode) : bool :=
  match n with FDir _ => true | FFile => false end.

Fixpoint lookup_entry (name : string) (es : list (string * fsnode))
  : option fsnode :=
  match es with
  | [] => None
  | (n, child) :: rest =>
      if String.eqb n name then Some child else lookup_entry name rest
  end.

(** Path resolution over the components of a path.  [stack] holds the
    directory reached so far on top of its ancestors, the root last;
    [..] at the root stays there. *)
Fixpoint descend_stack (stack : list fsnode) (comps : list string)
  : option (list fsnode) :=
  match comps with
  | [] => Some stack
  | comp :: rest =>
      if String.eqb comp "" || String.eqb comp "." then
        descend_stack stack rest
      else
        match stack with
        | FDir es :: parents =>
            if String.eqb comp ".." then
              match parents with
              | [] => descend_stack stack rest
              | _ :: _ => descend_stack parents rest
              end
            else
              match lookup_entry comp es with
              | Some child => descend_stack (child :: stack) rest
              | None => None
              end
        | _ => None
        end
  end.

(** The node a path names: absolute paths start at the root, others at
    the working directory; the empty path names nothing. *)
Definition resolve (fsys : FileSystem) (p : string) : option fsnode :=
  let comps := PyStr.split PosixPath.sep p in
  let start :=
    if PosixPath.isabs p then Some [fs_root fsys]
    else descend_stack [fs_root fsys]
           (PyStr.split PosixPath.sep (fs_cwd fsys)) in
  match p, start with
  | EmptyString, _ => None
  | _, Some stack =>
      match descend_stack stack comps with
      | Some (n :: _) => Some n
      | _ => None
      end
  | _, None => None
  end.

(** [os.path.isdir(p)]. *)
Definition isdir (fsys : FileSystem) (p : string) : bool :=
  match resolve fsys p with
  | Some n => is_dir n
  | None => false
  end.

(** [os.path.realpath(p)]: [abspath(_joinrealpath('', p))].  The file
    systems modelled hold no symbolic links; what is left of [realpath] is
    the folding of [.] and [..] and of repeated and leading slashes. *)
Definition realpath (fsys : FileSystem) (p : string) : string :=
  PosixPath.abspath (fs_cwd fsys) (PosixPath.joinrealpath p).

Definition dirnames (es : list (string * fsnode)) : list string :=
  map fst (List.filter (fun e => is_dir (snd e)) es).

Definition filenames (es : list (string * fsnode)) : list string :=
  map fst (List.filter (fun e => negb (is_dir (snd e))) es).

(** The top-down traversal of [os.walk] from a node reached as [top]:
    the triple of the directory, then the traversal of each of its
    sub-directories [join(top, name)] in turn. *)
Fixpoint walk_node (top : string) (n : fsnode)
  : list (string * list string * list string) :=
  match n with
  | FFile => []
  | FDir es =>
      (top, dirnames es, filenames es)
        :: flat_map
             (fun e => if is_dir (snd e)
                       then walk_node (PosixPath.join top (fst e)) (snd e)
                       else [])
             es
  end.

(** [os.walk(top)]: nothing when [top] is not a directory. *)
Definition walk (fsys : FileSystem) (top : string)
  : list (string * list string * list string) :=
  match resolve fsys top with
  | Some n => walk_node top n
  | None => []
  end.

End OS.

Definition fs_example : FileSystem :=
  {| fs_root :=
       FDir [("home",
              FDir [("u",
                     FDir [("lnxpcs",
                            FDir [("README.md", FFile);
                                  ("foo", FDir [("a.png", FFile);
                                                ("notes.txt", FFile);
                                                ("b.png", FFile)]);
                                  ("empty", FDir []);
                                  ("bar", FDir [("deep", FDir [("c.png", FFile)])])])])])];
     fs_cwd := "/home/u/lnxpcs" |}.

(* ===================================================================== *)
(** * Exceptions and results *)
(* ===================================================================== *)

Inductive exn : Type :=
| SystemExit (code : Z)              (* [exit(code)] *)
| ImgurClientRateLimitError          (* the service refuses: quota exhausted *)
| ImgurClientError (msg : string)    (* any other failure of a client call *)
| NoSectionError (section : string)
| NoOptionError (option section : string)
| KeyError (key : string)
| ValueError (msg : string)
| EOFError.

Inductive result (A : Type) : Type :=
| Ok (a : A)
| Raise (e : exn).
Arguments Ok {A} a.
Arguments Raise {A} e.

(** The status the process ends with: 0 when the script falls off its
    end, the code of [exit], and 1 for an exception nobody catches. *)
Definition exit_status {A} (r : result A) : Z :=
  match r with
  | Ok _ => 0
  | Raise (SystemExit code) => code
  | Raise _ => 1
  end.

(* ===================================================================== *)
(** * [configparser.ConfigParser] *)
(* ===================================================================== *)

Record ConfigParser := {
  cp_defaults : gmap string string;                (* the [DEFAULT] section *)
  cp_sections : gmap string (gmap string string)   (* the other sections *)
}.

Module Config.

Definition default_section : string := "DEFAULT".

Definition empty : ConfigParser :=
  {| cp_defaults := ∅; cp_sections := ∅ |}.

Definition has_section (c : ConfigParser) (section : string) : bool :=
  bool_decide (is_Some (cp_sections c !! section)).

(** [section in config]. *)
Definition contains (c : ConfigParser) (section : string) : bool :=
  String.eqb section default_section || has_section c section.

(** [config.has_option(section, option)], which is also
    [option in config[section]]: the keys of [DEFAULT] show through every
    section. *)
Definition has_option (c : ConfigParser) (section option : string) : bool :=
  if String.eqb section "" || String.eqb section default_section then
    bool_decide (is_Some (cp_defaults c !! option))
  else
    match cp_sections c !! section with
    | None => false
    | Some d =>
        bool_decide (is_Some (d !! option))
        || bool_decide (is_Some (cp_defaults c !! option))
    end.

(** [config.get(section, option)]. *)
Definition get (c : ConfigParser) (section option : string) : result string :=
  match cp_sections c !! section with
  | None =>
      if String.eqb section default_section then
        match cp_defaults c !! option with
        | Some v => Ok v
        | None => Raise (NoOptionError option section)
        end
      else Raise (NoSectionError section)
  | Some d =>
      match d !! option with
      | Some v => Ok v
      | None =>
          match cp_defaults c !! option with
          | Some v => Ok v
          | None => Raise (NoOptionError option section)
          end
      end
  end.

(** [config[section][key]]. *)
Definition getitem (c : ConfigParser) (section key : string) : result string :=
  if negb (contains c section) then Raise (KeyError section)
  else if has_option c section key then get c section key
  else Raise (KeyError key).

(** [config.add_section(section)], for a section that is not there. *)
Definition add_section (c : ConfigParser) (section : string) : ConfigParser :=
  {| cp_defaults := cp_defaults c;
     cp_sections := <[section := ∅]> (cp_sections c) |}.

(** [config.set(section, option, value)]. *)
Definition set (c : ConfigParser) (section option value : string)
  : result ConfigParser :=
  if String.eqb section "" || String.eqb section default_section then
    Ok {| cp_defaults := <[option := value]> (cp_defaults c);
          cp_sections := cp_sections c |}
  else
    match cp_sections c !! section with
    | None => Raise (NoSectionError section)
    | Some d =>
        Ok {| cp_defaults := cp_defaults c;
              cp_sections := <[section := <[option := value]> d]> (cp_sections c) |}
    end.

(** The keys a section holds in the written file: its own, without the
    defaults. *)
Definition file_has_key (c : ConfigParser) (section key : string) : Prop :=
  ∃ d, cp_sections c !! section = Some d ∧ is_Some (d !! key).

End Config.

(* ===================================================================== *)
(** * The hosting service as seen through [ImgurClient] *)
(* ===================================================================== *)

Record Image := {
  image_title : option string;
  image_link : string
}.

Record Album := {
  album_id : string;
  album_title : option string;
  album_link : string;
  album_deletehash : string;
  album_images : list Image
}.

(** The fields of [create_album]. *)
Record AlbumFields := {
  af_title : string;
  af_privacy : string;
  af_description : string
}.

(** The upload configuration of [upload_from_path]. *)
Record UploadConfig := {
  uc_title : string;
  uc_description : string;
  uc_album : string
}.

Record Credentials := {
  access_token : string;
  refresh_token : string
}.

(** The calls a run makes on its clients, as logged. *)
Inductive Call : Type :=
| NewClient (client_id client_secret : string) (access refresh : option string)
| Authorize (pin grant_type : string)
| GetAccountAlbums (user : string)
| GetAlbum (id : string)
| CreateAlbum (fields : AlbumFields)
| UploadFromPath (path : string) (config : UploadConfig).

(** What the service answers.  [R] is the state of the service together
    with that of the clients (their credit counters). *)
Class ImgurApi (R : Type) := {
  api_new_client :
    string -> string -> option string -> option string -> R -> result unit * R;
  api_get_auth_url : string -> string -> string;
  api_authorize : string -> string -> R -> result Credentials * R;
  api_get_account_albums : string -> R -> result (list Album) * R;
  api_get_album : string -> R -> result Album * R;
  (* the answer of [create_album] is read at ["id"] only *)
  api_create_album : AlbumFields -> R -> result string * R;
  api_upload_from_path : string -> UploadConfig -> R -> result Image * R;
  (* [str(client.credits)] *)
  api_credits : R -> string
}.

(* ===================================================================== *)
(** * The script *)
(* ===================================================================== *)

Definition REPO_DIR : string := "lnxpcs".
Definition CONFIG_FILENAME : string := "imgur.ini".
Definition CLIENT_SECTION : string := "client".
Definition TOKENS_SECTION : string := "tokens".
Definition ROOT_URL : string := "https://github.com/jstpcs/".

Section Script.

Context {R : Type} `{Api : ImgurApi R}.

(** Everything a run reads or changes. *)
Record World := {
  remote : R;                           (* the service and the clients *)
  calls : list Call;                    (* client calls so far, oldest first *)
  stdout : list string;                 (* what was printed, oldest first *)
  stdin : list string;                  (* the lines still to be read *)
  config_file : option ConfigParser;    (* [imgur.ini], when it exists *)
  files : FileSystem
}.

Definition M (A : Type) : Type := World -> result A * World.

Definition ret {A} (a : A) : M A := fun w => (Ok a, w).

Definition bind {A B} (m : M A) (k : A -> M B) : M B :=
  fun w =>
    match m w with
    | (Ok a, w') => k a w'
    | (Raise e, w') => (Raise e, w')
    end.

Definition raise {A} (e : exn) : M A := fun w => (Raise e, w).

Definition lift {A} (r : result A) : M A := fun w => (r, w).

End Script.

Arguments World R : clear implicits.
Arguments M R A : clear implicits.

Declare Scope py_scope.
Delimit Scope py_scope with py.
Notation "x <- m ;; k" := (bind m (fun x => k))
  (at level 100, m at next level, right associativity) : py_scope.
Notation "m ;;; k" := (bind m (fun _ => k))
  (at level 100, right associativity) : py_scope.

Section Program.

Context {R : Type} `{Api : ImgurApi R}.

Local Open Scope py_scope.

(** ** Console, configuration file and file system *)

Definition print (line : string) : M R unit :=
  fun w =>
    (Ok tt, {| remote := remote w; calls := calls w;
               stdout := stdout w ++ [line]; stdin := stdin w;
               config_file := config_file w; files := files w |}).

(** [input(prompt)]: shows the prompt and reads a line. *)
Definition input (prompt : string) : M R string :=
  fun w =>
    let out := stdout w ++ [prompt] in
    match stdin w with
    | [] =>
        (Raise EOFError,
         {| remote := remote w; calls := calls w; stdout := out;
            stdin := []; config_file := config_file w; files := files w |})
    | line :: rest =>
        (Ok line,
         {| remote := remote w; calls := calls w; stdout := out;
            stdin := rest; config_file := config_file w; files := files w |})
    end.

(** [exit(code)]. *)
Definition exit {A} (code : Z) : M R A := raise (SystemExit code).

(** [config = ConfigParser(); config.read(CONFIG_FILENAME)]: a missing
    file leaves the configuration empty. *)
Definition config_read : M R ConfigParser :=
  fun w => (Ok (default Config.empty (config_file w)), w).

(** [with open(CONFIG_FILENAME, "w") as f: config.write(f)]. *)
Definition config_write (c : ConfigParser) : M R unit :=
  fun w =>
    (Ok tt, {| remote := remote w; calls := calls w; stdout := stdout w;
               stdin := stdin w; config_file := Some c; files := files w |}).

Definition get_files : M R FileSystem := fun w => (Ok (files w), w).

(** ** Client calls: ask the service, log the call *)

Definition client_call {A} (c : Call) (f : R -> result A * R) : M R A :=
  fun w =>
    let '(r, rem) := f (remote w) in
    (r, {| remote := rem; calls := calls w ++ [c]; stdout := stdout w;
           stdin := stdin w; config_file := config_file w;
           files := files w |}).

Definition ImgurClient (id secret : string) (access refresh : option string)
  : M R unit :=
  client_call (NewClient id secret access refresh)
    (api_new_client id secret access refresh).

Definition client_authorize (pin grant_type : string) : M R Credentials :=
  client_call (Authorize pin grant_type) (api_authorize pin grant_type).

Definition client_get_account_albums (user : string) : M R (list Album) :=
  client_call (GetAccountAlbums user) (api_get_account_albums user).

Definition client_get_album (id : string) : M R Album :=
  client_call (GetAlbum id) (api_get_album id).

Definition client_create_album (fields : AlbumFields) : M R string :=
  client_call (CreateAlbum fields) (api_create_album fields).

Definition client_upload_from_path (path : string) (config : UploadConfig)
  : M R Image :=
  client_call (UploadFromPath path config) (api_upload_from_path path config).

(** [client.credits], as printed. *)
Definition client_credits : M R string :=
  fun w => (Ok (api_credits (remote w)), w).

(** ** Control structures *)

(** [for x in xs: body(x)]. *)
Fixpoint for_each {A} (xs : list A) (body : A -> M R unit) : M R unit :=
  match xs with
  | [] => ret tt
  | x :: rest => body x ;;; for_each rest body
  end.

(** A loop whose body updates a value carried from one round to the
    next (here: a dictionary changed in place). *)
Fixpoint for_fold {A S} (xs : list A) (s : S) (body : S -> A -> M R S)
  : M R S :=
  match xs with
  | [] => ret s
  | x :: rest => s' <- body s x ;; for_fold rest s' body
  end.

(** [try: body  except <catches> as e: handler(e)]. *)
Definition try_except {A} (body : M R A) (catches : exn -> bool)
  (handler : exn -> M R A) : M R A :=
  fun w =>
    match body w with
    | (Raise e, w') => if catches e then handler e w' else (Raise e, w')
    | ok => ok
    end.

Definition is_rate_limit (e : exn) : bool :=
  match e with ImgurClientRateLimitError => true | _ => false end.

(** ** [request_new_token] (lines 38-54)

    The configuration object is changed in place; the changed object is
    what this returns. *)
Definition request_new_token (config : ConfigParser)
  (client_id client_secret : string) : M R ConfigParser :=
  ImgurClient client_id client_secret None None ;;;
  let authorization_url := api_get_auth_url client_id "pin" in
  pin <- input ("Please enter the pin you received from "
                  +:+ authorization_url +:+ String "010"%char "") ;;
  credentials <- client_authorize pin "pin" ;;
  config1 <- lift (Config.set config TOKENS_SECTION "access"
                     (access_token credentials)) ;;
  config2 <- lift (Config.set config1 TOKENS_SECTION "refresh"
                     (refresh_token credentials)) ;;
  config_write config2 ;;;
  print "Updated config for future use" ;;;
  ret config2.

(** ** [find_all_images] (lines 57-69) *)

Definition is_png (file : string) : bool := PyStr.endswith file ".png".

(** Lines 66-68: one round of the loop, [images] being the list built so
    far (or the failure met). *)
Definition collect_pngs (fsys : FileSystem) (root_dir : string)
  (images : result (list (string * list string)))
  (triple : string * list string * list string)
  : result (list (string * list string)) :=
  let '(walk_root, dirs, files) := triple in
  match images with
  | Raise e => Raise e
  | Ok images =>
      let pngs := List.filter is_png files in
      match pngs with
      | [] => Ok images
      | _ :: _ =>
          match PosixPath.relpath (fs_cwd fsys) walk_root root_dir with
          | Some rel => Ok (images ++ [(rel, pngs)])
          | None => Raise (ValueError "no path specified")
          end
      end
  end.

Definition find_all_images (fsys : FileSystem) (root_dir : string)
  : result (list (string * list string)) :=
  fold_left (collect_pngs fsys root_dir)
    (OS.walk fsys (PosixPath.join root_dir REPO_DIR))
    (Ok []).

(** ** [get_album] (lines 72-94)

    [all_albums] is changed in place when an album is created; the
    changed dictionary is returned next to the album. *)
Definition get_album (all_albums : gmap (option string) Album)
  (title album_url : string) : M R (Album * gmap (option string) Album) :=
  match all_albums !! Some title with
  | Some album => ret (album, all_albums)
  | None =>
      id <- client_create_album
              {| af_title := title;
                 af_privacy := "hidden";
                 af_description := "Album of images from " +:+ album_url |} ;;
      album <- client_get_album id ;;
      ret (album, <[Some title := album]> all_albums)
  end.

(** ** [get_album_image] (lines 97-98) *)
Definition get_album_image (album : Album) (file_path : string)
  : option Image :=
  head (List.filter
          (fun image => bool_decide (image_title image = Some file_path))
          (album_images album)).

(** ** [main] (lines 101-149) *)

(** Line 134: ["%s/%s" % (album_git_url, png)]. *)
Definition image_url_of (album_git_url png : string) : string :=
  album_git_url +:+ "/" +:+ png.

(** Line 127. *)
Definition album_url_of (album_imgur_title : string) : string :=
  ROOT_URL +:+ PyStr.replace album_imgur_title REPO_DIR "lnxpcs/tree/master".

(** Lines 132-146: one round of the inner loop. *)
Definition handle_png (path_to_repo_parent album_imgur_title album_git_url : string)
  (album : Album) (png : string) : M R unit :=
  let image_file_path :=
    PosixPath.join3 path_to_repo_parent album_imgur_title png in
  let image_rel_path := PosixPath.join album_imgur_title png in
  let image_git_url := image_url_of album_git_url png in
  print (String "009"%char "Handling image " +:+ image_git_url) ;;;
  match get_album_image album image_rel_path with
  | Some _ => ret tt
  | None =>
      album_image <- client_upload_from_path image_file_path
                       {| uc_title := image_rel_path;
                          uc_description := "A mirror of " +:+ image_git_url;
                          uc_album := album_deletehash album |} ;;
      print (String "009"%char (String "009"%char "Uploaded to ")
               +:+ image_link album_image)
  end.

(** Lines 127-146: one round of the outer loop. *)
Definition handle_group (path_to_repo_parent : string)
  (all_albums : gmap (option string) Album) (group : string * list string)
  : M R (gmap (option string) Album) :=
  let '(album_imgur_title, pngs) := group in
  let album_git_url := album_url_of album_imgur_title in
  got <- get_album all_albums album_imgur_title album_git_url ;;
  let '(album, all_albums') := got in
  print ("Handling album " +:+ album_git_url) ;;;
  print ("Album @ " +:+ album_link album) ;;;
  for_each pngs
    (handle_png path_to_repo_parent album_imgur_title album_git_url album) ;;;
  ret all_albums'.

(** Lines 126-146: the loop inside [try]. *)
Definition reconcile (path_to_repo_parent : string)
  (all_albums : gmap (option string) Album)
  (images : list (string * list string))
  : M R (gmap (option string) Album) :=
  for_fold images all_albums (handle_group path_to_repo_parent).

(** Lines 147-149. *)
Definition on_rate_limit {A} (rle : exn) : M R A :=
  credits <- client_credits ;;
  print ("Passed limit " +:+ credits) ;;;
  raise rle.

(** Lines 120-123: the dictionary of the account's albums, each fetched
    in full. *)
Definition fetch_all_albums (user : string)
  : M R (gmap (option string) Album) :=
  listing <- client_get_account_albums user ;;
  for_fold listing ∅
    (fun d album =>
       full <- client_get_album (album_id album) ;;
       ret (<[album_title album := full]> d)).

(** Lines 110-115. *)
Definition check_path (path_to_repo : string) : M R unit :=
  fsys <- get_files ;;
  if negb (String.eqb (PosixPath.basename path_to_repo) REPO_DIR) then
    print ("Please provide a path to a lnxpcs directory. Given "
             +:+ path_to_repo) ;;;
    exit 1
  else if negb (OS.isdir fsys path_to_repo) then
    print ("Please provide a path to an EXISTING lnxpcs directory. Given "
             +:+ path_to_repo) ;;;
    exit 1
  else ret tt.

(** Lines 103-123: everything before [try]. *)
Definition prepare (config : ConfigParser) (path_to_repo : string)
  : M R (string * list (string * list string) * gmap (option string) Album) :=
  id <- lift (Config.get config CLIENT_SECTION "id") ;;
  secret <- lift (Config.get config CLIENT_SECTION "secret") ;;
  access <- lift (Config.get config TOKENS_SECTION "access") ;;
  refresh <- lift (Config.get config TOKENS_SECTION "refresh") ;;
  ImgurClient id secret (Some access) (Some refresh) ;;;
  check_path path_to_repo ;;;
  fsys <- get_files ;;
  let path_to_repo_parent :=
    OS.realpath fsys (PosixPath.join path_to_repo "..") in
  images <- lift (find_all_images fsys path_to_repo_parent) ;;
  user <- lift (Config.get config "DEFAULT" "user") ;;
  all_albums <- fetch_all_albums user ;;
  ret (path_to_repo_parent, images, all_albums).

(** Lines 125-149: the loop under its [try]. *)
Definition reconcile_guarded (path_to_repo_parent : string)
  (all_albums : gmap (option string) Album)
  (images : list (string * list string)) : M R unit :=
  try_except
    (reconcile path_to_repo_parent all_albums images ;;; ret tt)
    is_rate_limit
    on_rate_limit.

Definition main (config : ConfigParser) (path_to_repo : string) : M R unit :=
  prepared <- prepare config path_to_repo ;;
  let '(path_to_repo_parent, images, all_albums) := prepared in
  reconcile_guarded path_to_repo_parent all_albums images.

(** ** The entry point (lines 152-189) *)

(** The condition of line 183. *)
Definition tokens_present (config : ConfigParser) : bool :=
  Config.contains config TOKENS_SECTION
  && Config.has_option config TOKENS_SECTION "refresh"
  && Config.has_option config TOKENS_SECTION "access".

(** Lines 186-188: Auth Flow as the entry point runs it. *)
Definition auth_flow (config : ConfigParser) : M R ConfigParser :=
  let config :=
    if negb (Config.contains config TOKENS_SECTION)
    then Config.add_section config TOKENS_SECTION else config in
  id <- lift (Config.getitem config CLIENT_SECTION "id") ;;
  secret <- lift (Config.getitem config CLIENT_SECTION "secret") ;;
  request_new_token config id secret.

(** Lines 183-189. *)
Definition run_with_tokens (config : ConfigParser) (repo_dir : string)
  : M R unit :=
  if tokens_present config then main config repo_dir
  else
    config <- auth_flow config ;;
    main config repo_dir.

(** The whole script; [repo_dir] is the value of [--repo_dir], when
    given. *)
Definition script (repo_dir : option string) : M R unit :=
  fsys <- get_files ;;
  let repo_dir :=
    default (PosixPath.abspath (fs_cwd fsys) ".") repo_dir in
  config <- config_read ;;
  if negb (Config.contains config CLIENT_SECTION) then
    print "You need a client configuration to access imgur. Get one at https://apidocs.imgur.com/" ;;;
    exit 1
  else if negb (Config.has_option config CLIENT_SECTION "id")
          || negb (Config.has_option config CLIENT_SECTION "secret") then
    print "Client config incomplete!" ;;;
    exit 1
  else
    match Config.get config "DEFAULT" "user" with
    | Raise _ =>
        print "Please add an imgur user to the default section of the configuration" ;;;
        exit 1
    | Ok imgur_user => run_with_tokens config repo_dir
    end.

End Program.

(* ===================================================================== *)
(** * A small simulated service, to run the script on *)
(* ===================================================================== *)

Module Sim.

Record Remote := {
  albums : list Album;    (* the account's albums *)
  next_id : nat;          (* for naming what gets created *)
  credit : nat;           (* requests left before the quota is exhausted *)
  valid_pin : string
}.

Fixpoint tally (n : nat) : string :=
  match n with
  | O => ""
  | S k => String "x"%char (tally k)
  end.

(** Every request costs one credit; with none left, the service answers
    with the rate-limit failure and nothing else happens. *)
Definition request {A} (act : Remote -> result A * Remote) (r : Remote)
  : result A * Remote :=
  match credit r with
  | O => (Raise ImgurClientRateLimitError, r)
  | S k =>
      act {| albums := albums r; next_id := next_id r; credit := k;
             valid_pin := valid_pin r |}
  end.

Definition find_album (id : string) (r : Remote) : option Album :=
  head (List.filter (fun a => String.eqb (album_id a) id) (albums r)).

Definition add_image (dh : string) (i : Image) (a : Album) : Album :=
  if String.eqb (album_deletehash a) dh then
    {| album_id := album_id a; album_title := album_title a;
       album_link := album_link a; album_deletehash := album_deletehash a;
       album_images := album_images a ++ [i] |}
  else a.

#[global] Instance api : ImgurApi Remote := {|
  api_new_client _ _ _ _ := request (fun r => (Ok tt, r));
  api_get_auth_url id response_type :=
    "https://api.imgur.com/oauth2/authorize?client_id=" +:+ id
      +:+ "&response_type=" +:+ response_type;
  api_authorize pin _ :=
    request (fun r =>
      if String.eqb pin (valid_pin r)
      then (Ok {| access_token := "acc-" +:+ pin;
                  refresh_token := "ref-" +:+ pin |}, r)
      else (Raise (ImgurClientError "Invalid Pin"), r));
  api_get_account_albums _ := request (fun r => (Ok (albums r), r));
  api_get_album id :=
    request (fun r =>
      match find_album id r with
      | Some a => (Ok a, r)
      | None => (Raise (ImgurClientError "Unable to find an album"), r)
      end);
  api_create_album fields :=
    request (fun r =>
      let id := "new" +:+ tally (next_id r) in
      (Ok id,
       {| albums := albums r ++
                      [{| album_id := id;
                          album_title := Some (af_title fields);
                          album_link := "https://imgur.com/a/" +:+ id;
                          album_deletehash := "dh-" +:+ id;
                          album_images := [] |}];
          next_id := S (next_id r); credit := credit r;
          valid_pin := valid_pin r |}));
  api_upload_from_path path config :=
    request (fun r =>
      let i := {| image_title := Some (uc_title config);
                  image_link := "https://i.imgur.com/" +:+ tally (next_id r) |} in
      (Ok i,
       {| albums := map (add_image (uc_album config) i) (albums r);
          next_id := S (next_id r); credit := credit r;
          valid_pin := valid_pin r |}));
  api_credits r := tally (credit r)
|}.

Definition config_full : ConfigParser :=
  {| cp_defaults := {[ "user" := "tux" ]};
     cp_sections :=
       {[ "client" := {[ "id" := "cid"; "secret" := "csecret" ]};
          "tokens" := {[ "access" := "acc"; "refresh" := "ref" ]} ]} |}.

Definition config_no_tokens : ConfigParser :=
  {| cp_defaults := {[ "user" := "tux" ]};
     cp_sections :=
       {[ "client" := {[ "id" := "cid"; "secret" := "csecret" ]} ]} |}.

Definition fs_two_pngs : FileSystem :=
  {| fs_root :=
       FDir [("r", FDir [("lnxpcs",
                          FDir [("foo", FDir [("a.png", FFile);
                                              ("b.png", FFile)])])])];
     fs_cwd := "/r/lnxpcs" |}.

Definition world (albums : list Album) (credit : nat)
  (config : option ConfigParser) (fsys : FileSystem) (stdin : list string)
  : World Remote :=
  {| remote := {| albums := albums; next_id := 0; credit := credit;
                  valid_pin := "1234" |};
     calls := []; stdout := []; stdin := stdin;
     config_file := config; files := fsys |}.

Definition album_foo_with_a : Album :=
  {| album_id := "old1"; album_title := Some "lnxpcs/foo";
     album_link := "https://imgur.com/a/old1"; album_deletehash := "dh-old1";
     album_images := [{| image_title := Some "lnxpcs/foo/a.png";
                         image_link := "https://i.imgur.com/a" |}] |}.

Definition config_refresh_only : ConfigParser :=
  {| cp_defaults := {[ "user" := "tux" ]};
     cp_sections :=
       {[ "client" := {[ "id" := "cid"; "secret" := "csecret" ]};
          "tokens" := {[ "refresh" := "ref" ]} ]} |}.

(** Worlds and inputs for the scenarios. *)

Definition albums_foo : gmap (option string) Album :=
  {[ Some "lnxpcs/foo" := album_foo_with_a ]}.

Definition group_foo : list (string * list string) :=
  [("lnxpcs/foo", ["a.png"; "b.png"])].

Definition world_foo : World Remote :=
  world [album_foo_with_a] 100 (Some config_full) fs_two_pngs [].

Definition world_fresh : World Remote :=
  world [] 100 (Some config_full) fs_two_pngs [].

Definition world_one_credit : World Remote :=
  world [] 1 (Some config_full) fs_two_pngs [].

Definition world_no_tokens : World Remote :=
  world [] 100 (Some config_no_tokens) fs_two_pngs ["1234"].

Definition lnxpcs_entries : list (string * fsnode) :=
  [("README.md", FFile);
   ("foo", FDir [("a.png", FFile); ("notes.txt", FFile); ("b.png", FFile)]);
   ("empty", FDir []);
   ("bar", FDir [("deep", FDir [("c.png", FFile)])])].

End Sim.

(* ===================================================================== *)
(** * Vocabulary of the statements *)
(* ===================================================================== *)

(** The calls and the lines a run adds between two worlds. *)
Definition new_calls {R} (w w' : World R) (l : list Call) : Prop :=
  calls w' = calls w ++ l.

Definition new_lines {R} (w w' : World R) (l : list string) : Prop :=
  stdout w' = stdout w ++ l.

(** The album's fetched image list has an entry titled [file_path]. *)
Definition has_image_titled (album : Album) (file_path : string) : Prop :=
  ∃ image, image ∈ album_images album ∧ image_title image = Some file_path.

#[global] Instance has_image_titled_dec album file_path :
  Decision (has_image_titled album file_path).
Proof.
  unfold has_image_titled.
  destruct (decide (Exists (λ image, image_title image = Some file_path)
                      (album_images album))) as [H|H].
  - left. apply Exists_exists in H. exact H.
  - right. intros H'. apply H, Exists_exists. exact H'.
Defined.

(** The upload the inner loop makes for [png] of the group
    [album_imgur_title] into [album]. *)
Definition upload_call (path_to_repo_parent album_imgur_title album_git_url : string)
  (album : Album) (png : string) : Call :=
  UploadFromPath
    (PosixPath.join3 path_to_repo_parent album_imgur_title png)
    {| uc_title := PosixPath.join album_imgur_title png;
       uc_description := "A mirror of " +:+ image_url_of album_git_url png;
       uc_album := album_deletehash album |}.

(** The files of a group the album has no image for, in order. *)
Definition missing_pngs (album_imgur_title : string) (album : Album)
  (pngs : list string) : list string :=
  List.filter
    (fun png => bool_decide
       (¬ has_image_titled album (PosixPath.join album_imgur_title png)))
    pngs.

(** The creation call [get_album] makes for a title. *)
Definition create_call (title album_url : string) : Call :=
  CreateAlbum {| af_title := title; af_privacy := "hidden";
                 af_description := "Album of images from " +:+ album_url |}.

Definition is_create (c : Call) : bool :=
  match c with CreateAlbum _ => true | _ => false end.

Definition creates_title (title : string) (c : Call) : bool :=
  match c with
  | CreateAlbum fields => String.eqb (af_title fields) title
  | _ => false
  end.


(** The creation calls a complete run of the loop makes for the title [t]:
    one when the fetched dictionary lacks [t] and some group bears it,
    none otherwise. *)
Definition expected_creates (all_albums : gmap (option string) Album)
  (images : list (string * list string)) (t : string) : list Call :=
  if bool_decide (all_albums !! Some t = None ∧ t ∈ images.*1)
  then [create_call t (album_url_of t)] else [].


(** [old] occurs somewhere in [s]. *)
Definition occurs_in (old s : string) : Prop :=
  ∃ pre post, s = pre +:+ old +:+ post.

(** [r] is [s] with the occurrences of [old] replaced by [new], taken from
    the left and without overlap: either [old] does not occur, or [s] is
    cut at its leftmost occurrence and the rest is treated likewise. *)
Inductive Substituted (old new : string) : string -> string -> Prop :=
| Subst_none s :
    ¬ occurs_in old s -> Substituted old new s s
| Subst_first pre post r :
    (∀ p q, pre +:+ old = p +:+ old +:+ q -> q = "") ->
    Substituted old new post r ->
    Substituted old new (pre +:+ old +:+ post) (pre +:+ new +:+ r).


(** The line [print("Passed limit", ...)] writes is the only one starting
    with these words. *)
Definition is_limit_line (line : string) : bool :=
  PyStr.startswith line "Passed limit".

(** The lines of lines 129 and 135. *)
Definition album_line (album_git_url : string) : string :=
  "Handling album " +:+ album_git_url.

Definition image_line (album_git_url png : string) : string :=
  String "009"%char "Handling image " +:+ image_url_of album_git_url png.


(** The [tokens] section is there and shows both keys, its own or those
    showing through from [DEFAULT]. *)
Definition tokens_section_complete (config : ConfigParser) : Prop :=
  ∃ d, cp_sections config !! TOKENS_SECTION = Some d
       ∧ (is_Some (d !! "access") ∨ is_Some (cp_defaults config !! "access"))
       ∧ (is_Some (d !! "refresh") ∨ is_Some (cp_defaults config !! "refresh")).

(** The configuration passes the checks of lines 169-181. *)
Definition client_configured (config : ConfigParser) : Prop :=
  Config.contains config CLIENT_SECTION = true
  ∧ Config.has_option config CLIENT_SECTION "id" = true
  ∧ Config.has_option config CLIENT_SECTION "secret" = true
  ∧ ∃ user, Config.get config "DEFAULT" "user" = Ok user.

(** The two diagnostics of the path check. *)
Definition wrong_name_line (path : string) : string :=
  "Please provide a path to a lnxpcs directory. Given " +:+ path.

Definition not_a_directory_line (path : string) : string :=
  "Please provide a path to an EXISTING lnxpcs directory. Given " +:+ path.

(** The path fails the check of lines 110-115. *)
Definition bad_path (fsys : FileSystem) (path : string) : Prop :=
  PosixPath.basename path ≠ REPO_DIR ∨ OS.isdir fsys path = false.

Definition is_authorize (c : Call) : bool :=
  match c with Authorize _ _ => true | _ => false end.


(** [m] makes calls satisfying [P] only, reads nothing from the console
    and leaves the configuration file alone. *)
Definition quiet {R A} (P : Call -> Prop) (m : M R A) : Prop :=
  ∀ w, ∃ l, new_calls w (m w).2 l
            ∧ Forall P l
            ∧ stdin (m w).2 = stdin w
            ∧ config_file (m w).2 = config_file w.

Definition not_authorize (c : Call) : Prop := is_authorize c = false.


(** ** Directories and their names *)

Fixpoint has_char (c : ascii) (s : string) : bool :=
  match s with
  | EmptyString => false
  | String d s' => Ascii.eqb d c || has_char c s'
  end.

(** What a directory entry can be called: not empty, not [.] or [..], and
    without separator. *)
Definition valid_name (name : string) : bool :=
  negb (String.eqb name "") && negb (String.eqb name ".")
  && negb (String.eqb name "..") && negb (has_char PosixPath.sep name).

(** Every directory below (and including) the node lists valid names, each
    once. *)
Fixpoint wf_node (n : fsnode) : bool :=
  match n with
  | FFile => true
  | FDir es =>
      bool_decide (NoDup (map fst es))
      && forallb (fun e => valid_name (fst e) && wf_node (snd e)) es
  end.

(** The node reached from [n] through the directory names [ds]. *)
Fixpoint subdir (n : fsnode) (ds : list string) : option fsnode :=
  match ds with
  | [] => Some n
  | d :: ds' =>
      match n with
      | FDir es =>
          match OS.lookup_entry d es with
          | Some child => subdir child ds'
          | None => None
          end
      | FFile => None
      end
  end.

(** The path, relative to the scanned root, of the directory reached
    through [ds] below [lnxpcs]. *)
Definition rel_path (ds : list string) : string :=
  PyStr.join "/" (REPO_DIR :: ds).

(** The files of a directory that count as images. *)
Definition pngs_of (es : list (string * fsnode)) : list string :=
  List.filter is_png (OS.filenames es).

(** The directories below a node, each with the names leading to it and
    its entries, parents first. *)
Fixpoint dirs_under (n : fsnode) : list (list string * list (string * fsnode)) :=
  match n with
  | FFile => []
  | FDir es =>
      ([], es)
        :: flat_map
             (fun e => map (fun d => (fst e :: fst d, snd d)) (dirs_under (snd e)))
             es
  end.


(** The path [os.walk] builds for the directory reached through [ds] from
    the one it was started on as [top]. *)
Definition path_of (top : string) (ds : list string) : string :=
  fold_left PosixPath.join ds top.

(** The path [abspath] normalises. *)
Definition absolutize (cwd p : string) : string :=
  if PosixPath.isabs p then p else PosixPath.join cwd p.


(** The group of one directory: none without images. *)
Definition group_of (d : list string * list (string * fsnode))
  : list (string * list string) :=
  match pngs_of (snd d) with
  | [] => []
  | pngs => [(rel_path (fst d), pngs)]
  end.

(** The groups the scan of a tree is to give. *)
Definition groups_of (n : fsnode) : list (string * list string) :=
  flat_map group_of (dirs_under n).

(** The groups bearing the path of the directory reached through [ds]. *)
Definition groups_at (ds : list string) (groups : list (string * list string))
  : list (string * list string) :=
  List.filter (fun g => String.eqb (fst g) (rel_path ds)) groups.


(** The calls that reach the service for more than building a client
    object. *)
Definition is_remote_operation (c : Call) : bool :=
  match c with
  | NewClient _ _ _ _ => false
  | _ => true
  end.


(** ** Diagnostics of the entry point (lines 170, 174 and 180) *)

Definition no_client_line : string :=
  "You need a client configuration to access imgur. Get one at https://apidocs.imgur.com/".

Definition incomplete_client_line : string := "Client config incomplete!".

Definition no_user_line : string :=
  "Please add an imgur user to the default section of the configuration".

(** The world after one more printed line, everything else as it was. *)
Definition with_line {R} (w : World R) (line : string) : World R :=
  {| remote := remote w; calls := calls w; stdout := stdout w ++ [line];
     stdin := stdin w; config_file := config_file w; files := files w |}.

(** The line [request_new_token] ends with. *)
Definition updated_line : string := "Updated config for future use".


(** The world after more printed lines, everything else as it was. *)
Definition with_lines {R} (w : World R) (lines : list string) : World R :=
  {| remote := remote w; calls := calls w; stdout := stdout w ++ lines;
     stdin := stdin w; config_file := config_file w; files := files w |}.

(** The calls the loop over [images] can make: the creation of a hidden
    album titled as a group, the fetch of an album, the upload of a file of
    a group from its place under [parent], titled with its relative
    path. *)
Definition loop_call (parent : string) (images : list (string * list string))
  (c : Call) : Prop :=
  match c with
  | CreateAlbum fields =>
      af_title fields ∈ images.*1
      ∧ af_privacy fields = "hidden"
      ∧ af_description fields
        = "Album of images from " +:+ album_url_of (af_title fields)
  | GetAlbum _ => True
  | UploadFromPath path config =>
      ∃ title pngs png,
        (title, pngs) ∈ images ∧ png ∈ pngs
        ∧ path = PosixPath.join3 parent title png
        ∧ uc_title config = PosixPath.join title png
        ∧ uc_description config
          = "A mirror of " +:+ image_url_of (album_url_of title) png
  | _ => False
  end.

(** Every file of every group already titles an image of the album the
    dictionary holds for the group. *)
Definition all_mirrored (all_albums : gmap (option string) Album)
  (images : list (string * list string)) : Prop :=
  ∀ title pngs,
    (title, pngs) ∈ images ->
    ∃ album, all_albums !! Some title = Some album
             ∧ ∀ png, png ∈ pngs ->
                 has_image_titled album (PosixPath.join title png).


(** [m] prints lines satisfying [P] only. *)
Definition prints {R A} (P : string -> Prop) (m : M R A) : Prop :=
  ∀ w, ∃ lines, new_lines w (m w).2 lines ∧ Forall P lines.

Definition not_limit_line (line : string) : Prop := is_limit_line line = false.


(** The full albums the service answers with when the listed albums are
    fetched one after the other from the state [r], each next to the title
    it was listed under; the list stops at the first failure. *)
Fixpoint fetched {R} `{ImgurApi R} (listing : list Album) (r : R)
  : list (option string * Album) :=
  match listing with
  | [] => []
  | album :: rest =>
      match api_get_album (album_id album) r with
      | (Ok full, r') => (album_title album, full) :: fetched rest r'
      | (Raise _, _) => []
      end
  end.

(** The calls of lines 120-123 for a listing. *)
Definition fetch_calls (user : string) (listing : list Album) : list Call :=
  GetAccountAlbums user :: map (fun album => GetAlbum (album_id album)) listing.


(** The directories passed on the way to what a path names, nearest
    first: path resolution before its end is looked at. *)
Definition resolve_stack (fsys : FileSystem) (p : string)
  : option (list fsnode) :=
  let start :=
    if PosixPath.isabs p then Some [fs_root fsys]
    else OS.descend_stack [fs_root fsys]
           (PyStr.split PosixPath.sep (fs_cwd fsys)) in
  match start with
  | Some stack => OS.descend_stack stack (PyStr.split PosixPath.sep p)
  | None => None
  end.

(** A component that names an entry: not empty, not [.] and not [..]. *)
Definition plain (comp : string) : Prop :=
  comp ≠ "" ∧ comp ≠ "." ∧ comp ≠ "..".


(** ** The uploads of the loop *)



(** ** The service, asked the calls of a log *)

(** A result without its value. *)
Definition outcome {A} (r : result A) : result unit :=
  match r with Ok _ => Ok tt | Raise e => Raise e end.

(** What the service answers to a call in the state [r], the value left
    out, and the state it is in afterwards. *)
Definition answer {R} `{ImgurApi R} (c : Call) (r : R) : result unit * R :=
  match c with
  | NewClient id secret access refresh =>
      let a := api_new_client id secret access refresh r in (outcome a.1, a.2)
  | Authorize pin grant_type =>
      let a := api_authorize pin grant_type r in (outcome a.1, a.2)
  | GetAccountAlbums user =>
      let a := api_get_account_albums user r in (outcome a.1, a.2)
  | GetAlbum id =>
      let a := api_get_album id r in (outcome a.1, a.2)
  | CreateAlbum fields =>
      let a := api_create_album fields r in (outcome a.1, a.2)
  | UploadFromPath path config =>
      let a := api_upload_from_path path config r in (outcome a.1, a.2)
  end.

(** The service asked the calls of [l] one after the other from the state
    [r]: the state after the last when it answers them all, the failure
    and the state of the first it refuses otherwise. *)
Fixpoint served {R} `{ImgurApi R} (l : list Call) (r : R) : result unit * R :=
  match l with
  | [] => (Ok tt, r)
  | c :: rest =>
      match answer c r with
      | (Ok _, r') => served rest r'
      | (Raise e, r') => (Raise e, r')
      end
  end.

(** The outcome of [m] is the service's: [m] completes when the service
    has answered every call [m] made, and fails with the failure of a
    call, which is then the last call [m] made. *)
Definition call_driven {R A} `{ImgurApi R} (m : M R A) : Prop :=
  ∀ w, ∃ l,
    new_calls w (m w).2 l
    ∧ match (m w).1 with
      | Ok _ => served l (remote w) = (Ok tt, remote (m w).2)
      | Raise e =>
          ∃ l0 c r,
            l = l0 ++ [c]
            ∧ served l0 (remote w) = (Ok tt, r)
            ∧ answer c r = (Raise e, remote (m w).2)
      end.

(* ===================================================================== *)
(** * The embedding at work *)
(* ===================================================================== *)

Example basename_plain : PosixPath.basename "/home/u/lnxpcs" = "lnxpcs".
Proof. reflexivity. Qed.

Example basename_trailing : PosixPath.basename "/home/u/lnxpcs/" = "".
Proof. reflexivity. Qed.

Example join_ex : PosixPath.join "/home/u/lnxpcs" ".." = "/home/u/lnxpcs/..".
Proof. reflexivity. Qed.

Example normpath_ex : PosixPath.normpath "/home/u/lnxpcs/.." = "/home/u".
Proof. reflexivity. Qed.

Example normpath_ex2 : PosixPath.normpath "//a/./b/../../../c/" = "//c".
Proof. reflexivity. Qed.

Example normpath_ex3 : PosixPath.normpath "a/../../b" = "../b".
Proof. reflexivity. Qed.

Example split_ex : PosixPath.split "/home/u/lnxpcs" = ("/home/u", "lnxpcs").
Proof. reflexivity. Qed.

Example split_ex2 : PosixPath.split "//x" = ("//", "x").
Proof. reflexivity. Qed.

Example split_ex3 : PosixPath.split "a//b" = ("a", "b").
Proof. reflexivity. Qed.

Example joinrealpath_ex : PosixPath.joinrealpath "a/../../b/./c/.." = "../b".
Proof. reflexivity. Qed.

Example realpath_ex : OS.realpath fs_example "//home/u/lnxpcs/.." = "/home/u".
Proof. reflexivity. Qed.

Example realpath_ex2 : OS.realpath fs_example "../lnxpcs/.." = "/home/u".
Proof. reflexivity. Qed.

Example realpath_ex3 : OS.realpath fs_example "../../../../x/" = "/x".
Proof. reflexivity. Qed.

Example relpath_ex :
  PosixPath.relpath "/w" "/home/u/lnxpcs/arch/x" "/home/u" = Some "lnxpcs/arch/x".
Proof. reflexivity. Qed.

Example relpath_ex2 : PosixPath.relpath "/w/a" "b/c" "../d" = Some "../a/b/c".
Proof. reflexivity. Qed.

Example replace_ex :
  PyStr.replace "lnxpcs/lnxpcs_old" "lnxpcs" "lnxpcs/tree/master"
  = "lnxpcs/tree/master/lnxpcs/tree/master_old".
Proof. reflexivity. Qed.

Example replace_ex2 : PyStr.replace "abc" "" "-" = "-a-b-c-".
Proof. reflexivity. Qed.

Example replace_ex3 : PyStr.replace "aaa" "aa" "b" = "ba".
Proof. reflexivity. Qed.

Example endswith_ex : PyStr.endswith "a.png" ".png" = true /\ PyStr.endswith "png" ".png" = false.
Proof. split; reflexivity. Qed.

Example walk_ex :
  OS.walk fs_example "/home/u/lnxpcs"
  = [("/home/u/lnxpcs", ["foo"; "empty"; "bar"], ["README.md"]);
     ("/home/u/lnxpcs/foo", [], ["a.png"; "notes.txt"; "b.png"]);
     ("/home/u/lnxpcs/empty", [], []);
     ("/home/u/lnxpcs/bar", ["deep"], []);
     ("/home/u/lnxpcs/bar/deep", [], ["c.png"])].
Proof. reflexivity. Qed.

Example isdir_ex :
  OS.isdir fs_example "../lnxpcs/foo/" = true
  /\ OS.isdir fs_example "foo/a.png" = false
  /\ OS.isdir fs_example "/home/u/nothing" = false.
Proof. repeat split; reflexivity. Qed.

Example scenario_fresh :
  let '(r, w) := script None (Sim.world [] 100 (Some Sim.config_full) Sim.fs_two_pngs []) in
  r = Ok tt
  /\ calls w =
     [NewClient "cid" "csecret" (Some "acc") (Some "ref");
      GetAccountAlbums "tux";
      CreateAlbum {| af_title := "lnxpcs/foo"; af_privacy := "hidden";
                     af_description :=
                       "Album of images from https://github.com/jstpcs/lnxpcs/tree/master/foo" |};
      GetAlbum "new";
      UploadFromPath "/r/lnxpcs/foo/a.png"
        {| uc_title := "lnxpcs/foo/a.png";
           uc_description :=
             "A mirror of https://github.com/jstpcs/lnxpcs/tree/master/foo/a.png";
           uc_album := "dh-new" |};
      UploadFromPath "/r/lnxpcs/foo/b.png"
        {| uc_title := "lnxpcs/foo/b.png";
           uc_description :=
             "A mirror of https://github.com/jstpcs/lnxpcs/tree/master/foo/b.png";
           uc_album := "dh-new" |}].
Proof. vm_compute. split; reflexivity. Qed.

Example scenario_a_already_there :
  let '(r, w) := script (Some "/r/lnxpcs")
                   (Sim.world [Sim.album_foo_with_a] 100 (Some Sim.config_full)
                      Sim.fs_two_pngs []) in
  r = Ok tt
  /\ calls w =
     [NewClient "cid" "csecret" (Some "acc") (Some "ref");
      GetAccountAlbums "tux";
      GetAlbum "old1";
      UploadFromPath "/r/lnxpcs/foo/b.png"
        {| uc_title := "lnxpcs/foo/b.png";
           uc_description :=
             "A mirror of https://github.com/jstpcs/lnxpcs/tree/master/foo/b.png";
           uc_album := "dh-old1" |}].
Proof. vm_compute. split; reflexivity. Qed.

Example scenario_no_tokens :
  let '(r, w) := script None
                   (Sim.world [] 100 (Some Sim.config_no_tokens)
                      Sim.fs_two_pngs ["1234"]) in
  r = Ok tt
  /\ (config_file w ≫= λ c, cp_sections c !! "tokens")
     = Some {[ "access" := "acc-1234"; "refresh" := "ref-1234" ]}
  /\ firstn 3 (calls w) =
     [NewClient "cid" "csecret" None None;
      Authorize "1234" "pin";
      NewClient "cid" "csecret" (Some "acc-1234") (Some "ref-1234")].
Proof. vm_compute. repeat split; reflexivity. Qed.

Example scenario_wrong_dir :
  let '(r, w) := script (Some "/r")
                   (Sim.world [] 100 (Some Sim.config_full) Sim.fs_two_pngs []) in
  exit_status r = 1%Z
  /\ calls w = [NewClient "cid" "csecret" (Some "acc") (Some "ref")]
  /\ stdout w = ["Please provide a path to a lnxpcs directory. Given /r"].
Proof. vm_compute. repeat split; reflexivity. Qed.


(* ===================================================================== *)
(** * Reasoning about runs *)
(* ===================================================================== *)

Section Runs.

Context {R : Type} `{Api : ImgurApi R}.

Local Open Scope py_scope.

Lemma new_calls_refl (w : World R) : new_calls w w [].
Proof. unfold new_calls. by rewrite app_nil_r. Qed.

Lemma new_calls_trans (w1 w2 w3 : World R) l1 l2 :
  new_calls w1 w2 l1 -> new_calls w2 w3 l2 -> new_calls w1 w3 (l1 ++ l2).
Proof. unfold new_calls. intros H1 H2. by rewrite H2, H1, app_assoc. Qed.

Lemma new_lines_refl (w : World R) : new_lines w w [].
Proof. unfold new_lines. by rewrite app_nil_r. Qed.

Lemma new_lines_trans (w1 w2 w3 : World R) l1 l2 :
  new_lines w1 w2 l1 -> new_lines w2 w3 l2 -> new_lines w1 w3 (l1 ++ l2).
Proof. unfold new_lines. intros H1 H2. by rewrite H2, H1, app_assoc. Qed.

(** ** Unfolding the control structures *)

Lemma bind_run {A B} (m : M R A) (k : A -> M R B) w :
  bind m k w
  = match m w with
    | (Ok a, w') => k a w'
    | (Raise e, w') => (Raise e, w')
    end.
Proof. reflexivity. Qed.

Lemma for_each_cons {A} (x : A) xs (body : A -> M R unit) w :
  for_each (x :: xs) body w
  = match body x w with
    | (Ok _, w') => for_each xs body w'
    | (Raise e, w') => (Raise e, w')
    end.
Proof. reflexivity. Qed.

Lemma for_fold_cons {A S} (x : A) xs (s : S) (body : S -> A -> M R S) w :
  for_fold (x :: xs) s body w
  = match body s x w with
    | (Ok s', w') => for_fold xs s' body w'
    | (Raise e, w') => (Raise e, w')
    end.
Proof. reflexivity. Qed.

(** ** The image lookup *)

Lemma get_album_image_spec album file_path :
  match get_album_image album file_path with
  | Some image => image ∈ album_images album ∧ image_title image = Some file_path
  | None => ¬ has_image_titled album file_path
  end.
Proof.
  unfold get_album_image, has_image_titled.
  induction (album_images album) as [|i l IH]; simpl.
  - intros (image & Hin & _). by apply elem_of_nil in Hin.
  - case_bool_decide as Ht; simpl.
    + split; [left|done].
    + destruct (head _) as [image|].
      * destruct IH as [Hin Himg]. split; [by right|done].
      * intros (image & Hin & Himg). apply elem_of_cons in Hin as [->|Hin].
        -- done.
        -- apply IH. eauto.
Qed.

Lemma get_album_image_None album file_path :
  get_album_image album file_path = None <-> ¬ has_image_titled album file_path.
Proof.
  pose proof (get_album_image_spec album file_path) as H.
  destruct (get_album_image album file_path) as [image|].
  - split; [done|]. intros Hno. exfalso. apply Hno. by exists image.
  - done.
Qed.

Lemma get_album_image_Some album file_path :
  is_Some (get_album_image album file_path) <-> has_image_titled album file_path.
Proof.
  pose proof (get_album_image_spec album file_path) as H.
  destruct (get_album_image album file_path) as [image|].
  - split; [intros _; by exists image|eauto].
  - split; [by intros [? ?]|done].
Qed.

End Runs.


(* ===================================================================== *)
(** * The inner loop: one upload per missing image *)
(* ===================================================================== *)

Section InnerLoop.

Context {R : Type} `{Api : ImgurApi R}.
Variables (parent title url : string) (album : Album).

Local Abbreviation body := (handle_png (R:=R) parent title url album).

Lemma missing_pngs_cons png rest :
  missing_pngs title album (png :: rest)
  = missing_pngs title album [png] ++ missing_pngs title album rest.
Proof. unfold missing_pngs. simpl. by destruct (bool_decide _). Qed.

Lemma handle_png_found png (w : World R) :
  has_image_titled album (PosixPath.join title png) ->
  (body png w).1 = Ok tt ∧ new_calls w (body png w).2 [].
Proof.
  intros Hhas. apply get_album_image_Some in Hhas as [image Himg].
  unfold handle_png, bind, print, new_calls. simpl. rewrite Himg. simpl.
  by rewrite app_nil_r.
Qed.

Lemma handle_png_missing png (w : World R) :
  ¬ has_image_titled album (PosixPath.join title png) ->
  new_calls w (body png w).2 [upload_call parent title url album png].
Proof.
  intros Hno. apply get_album_image_None in Hno.
  unfold handle_png, bind, print, new_calls, client_upload_from_path,
    client_call, upload_call. simpl. rewrite Hno. simpl.
  destruct (api_upload_from_path _ _ _) as [[image|e] rem]; reflexivity.
Qed.

Lemma handle_png_calls png (w : World R) :
  new_calls w (body png w).2
    (map (upload_call parent title url album) (missing_pngs title album [png])).
Proof.
  unfold missing_pngs. simpl. case_bool_decide as Hd; simpl.
  - by apply handle_png_missing.
  - by destruct (handle_png_found png w Hd) as [_ H].
Qed.

Lemma for_each_pngs_calls pngs (w : World R) :
  ∃ l, new_calls w (for_each pngs body w).2 l
       ∧ l `prefix_of` map (upload_call parent title url album)
                         (missing_pngs title album pngs)
       ∧ ((for_each pngs body w).1 = Ok tt ->
          l = map (upload_call parent title url album)
                (missing_pngs title album pngs)).
Proof.
  revert w. induction pngs as [|png rest IH]; intros w.
  - exists []. simpl. split; [apply new_calls_refl|]. split; [done|done].
  - pose proof (handle_png_calls png w) as Hc.
    rewrite (missing_pngs_cons png rest), map_app.
    rewrite !for_each_cons.
    destruct (body png w) as [[[]|e] w1] eqn:E; simpl in *.
    + destruct (IH w1) as (l & Hl & Hpre & Hok).
      exists (map (upload_call parent title url album)
                (missing_pngs title album [png]) ++ l).
      split; [by eapply new_calls_trans|].
      split; [by apply prefix_app|].
      intros Hr. by rewrite Hok.
    + eexists. split; [exact Hc|]. split; [by apply prefix_app_r|done].
Qed.

End InnerLoop.

(* ===================================================================== *)
(** * The outer loop: resolving albums *)
(* ===================================================================== *)

Section OuterLoop.

Context {R : Type} `{Api : ImgurApi R}.
Variable parent : string.

Lemma get_album_hit (m : gmap (option string) Album) title url album (w : World R) :
  m !! Some title = Some album ->
  get_album m title url w = (Ok (album, m), w).
Proof. intros Hm. unfold get_album. by rewrite Hm. Qed.

Lemma creates_title_create t title url :
  creates_title t (create_call title url) = bool_decide (t = title).
Proof.
  unfold creates_title, create_call. simpl.
  destruct (String.eqb_spec title t); case_bool_decide; congruence.
Qed.

(** What [get_album] does for a title the dictionary lacks, by the answers
    of the service. *)
Lemma get_album_miss (m : gmap (option string) Album) title url (w : World R) :
  m !! Some title = None ->
  get_album m title url w
  = match client_create_album
            {| af_title := title; af_privacy := "hidden";
               af_description := "Album of images from " +:+ url |} w with
    | (Raise e, w1) => (Raise e, w1)
    | (Ok id, w1) =>
        match client_get_album id w1 with
        | (Raise e, w2) => (Raise e, w2)
        | (Ok album, w2) => (Ok (album, <[Some title := album]> m), w2)
        end
    end.
Proof.
  intros Hm. unfold get_album. rewrite Hm, bind_run.
  destruct (client_create_album _ w) as [[id|e] w1]; [|done].
  rewrite bind_run. by destruct (client_get_album id w1) as [[album|e] w2].
Qed.

Lemma get_album_calls (m : gmap (option string) Album) title url (w : World R) :
  ∃ l, new_calls w (get_album m title url w).2 l
       ∧ (∀ t, List.filter (creates_title t) l
               = if bool_decide (m !! Some title = None ∧ t = title)
                 then [create_call title url] else [])
       ∧ (∀ album m', (get_album m title url w).1 = Ok (album, m') ->
            m !! Some title = Some album ∧ m' = m ∧ l = []
            ∨ m !! Some title = None ∧ m' = <[Some title := album]> m
              ∧ ∃ id, l = [create_call title url; GetAlbum id]).
Proof.
  destruct (m !! Some title) as [album|] eqn:Hm.
  - rewrite (get_album_hit _ _ _ _ _ Hm). exists [].
    split; [apply new_calls_refl|]. split.
    + intros t. rewrite bool_decide_eq_false_2; [done|]. by intros [? _].
    + intros a m' [= <- <-]. by left.
  - rewrite (get_album_miss _ _ _ _ Hm).
    assert (∀ t rest, List.filter (creates_title t) rest = [] ->
              List.filter (creates_title t) (create_call title url :: rest)
              = if bool_decide (None = None :> option Album ∧ t = title)
                then [create_call title url] else []) as Hf.
    { intros t rest Hrest. cbn [List.filter]. rewrite creates_title_create, Hrest.
      destruct (decide (t = title)) as [->|Hne].
      - by rewrite !bool_decide_eq_true_2.
      - rewrite (bool_decide_eq_false_2 (t = title)) by done.
        rewrite bool_decide_eq_false_2 by (by intros [_ ?]). done. }
    unfold client_create_album, client_get_album, client_call, new_calls.
    destruct (api_create_album _ (remote w)) as [[id|e] r1]; simpl.
    + destruct (api_get_album id r1) as [[album|e] r2]; simpl.
      * exists [create_call title url; GetAlbum id].
        split; [by rewrite <- app_assoc|]. split; [intros t; by apply Hf|].
        intros a m' [= <- <-]. right. eauto.
      * exists [create_call title url; GetAlbum id].
        split; [by rewrite <- app_assoc|]. split; [intros t; by apply Hf|done].
    + exists [create_call title url]. split; [done|].
      split; [intros t; by apply Hf|done].
Qed.

(** One round of the outer loop, by the outcome of [get_album]. *)
Lemma handle_group_unfold (m : gmap (option string) Album) title pngs (w : World R) :
  handle_group parent m (title, pngs) w
  = match get_album m title (album_url_of title) w with
    | (Raise e, w1) => (Raise e, w1)
    | (Ok (album, m1), w1) =>
        let w2 :=
          (print ("Album @ " +:+ album_link album)
             (print ("Handling album " +:+ album_url_of title) w1).2).2 in
        match for_each pngs
                (handle_png parent title (album_url_of title) album) w2 with
        | (Raise e, w3) => (Raise e, w3)
        | (Ok _, w3) => (Ok m1, w3)
        end
    end.
Proof.
  unfold handle_group. rewrite bind_run.
  destruct (get_album m title (album_url_of title) w) as [[[album m1]|e] w1];
    [|done].
  do 3 (rewrite bind_run; simpl).
  by destruct (for_each pngs _ _) as [[[]|e] w3].
Qed.

Lemma filter_creates_uploads t title url album (l : list Call) pngs :
  l `prefix_of` map (upload_call parent title url album) pngs ->
  List.filter (creates_title t) l = [].
Proof.
  intros [k Hk]. revert l k Hk. induction pngs as [|png rest IH]; intros l k Hk.
  - simpl in Hk. symmetry in Hk. by apply app_eq_nil in Hk as [-> _].
  - destruct l as [|c l]; [done|]. simpl in Hk.
    injection Hk as <- Hk. simpl. by apply (IH l k).
Qed.

Lemma handle_group_calls (m : gmap (option string) Album) title pngs (w : World R) :
  ∃ l, new_calls w (handle_group parent m (title, pngs) w).2 l
       ∧ (∀ t, List.filter (creates_title t) l
               = if bool_decide (m !! Some title = None ∧ t = title)
                 then [create_call title (album_url_of title)] else [])
       ∧ (∀ m', (handle_group parent m (title, pngs) w).1 = Ok m' ->
            is_Some (m !! Some title) ∧ m' = m
            ∨ m !! Some title = None ∧ ∃ album, m' = <[Some title := album]> m).
Proof.
  rewrite handle_group_unfold.
  destruct (get_album_calls m title (album_url_of title) w) as (l1 & Hl1 & Hf1 & Hok1).
  destruct (get_album m title (album_url_of title) w) as [[[album m1]|e] w1];
    simpl in *.
  - set (w2 := {| remote := remote w1 |}).
    destruct (for_each_pngs_calls parent title (album_url_of title) album pngs w2)
      as (l2 & Hl2 & Hpre & _).
    assert (new_calls w1 w2 []) as H12.
    { unfold new_calls. simpl. by rewrite app_nil_r. }
    exists (l1 ++ l2).
    assert (new_calls w
              (for_each pngs (handle_png parent title (album_url_of title) album) w2).2
              (l1 ++ l2)) as Hnew.
    { eapply new_calls_trans; [exact Hl1|].
      replace l2 with ([] ++ l2) by done. by eapply new_calls_trans. }
    assert (∀ t, List.filter (creates_title t) (l1 ++ l2)
                 = if bool_decide (m !! Some title = None ∧ t = title)
                   then [create_call title (album_url_of title)] else []) as Hf.
    { intros t. rewrite List.filter_app, Hf1.
      rewrite (filter_creates_uploads t _ _ _ _ _ Hpre). by rewrite app_nil_r. }
    destruct (for_each pngs _ w2) as [[[]|e] w3]; simpl in *.
    + split; [done|]. split; [done|].
      intros m' [= <-]. destruct (Hok1 album m1 eq_refl) as [(Hm & -> & _)|(Hm & -> & _)].
      * left. eauto.
      * right. eauto.
    + done.
  - exists l1. done.
Qed.

Lemma expected_creates_step (m m1 : gmap (option string) Album) t0 pngs rest t :
  (is_Some (m !! Some t0) ∧ m1 = m
   ∨ m !! Some t0 = None ∧ ∃ album, m1 = <[Some t0 := album]> m) ->
  (if bool_decide (m !! Some t0 = None ∧ t = t0)
   then [create_call t0 (album_url_of t0)] else [])
    ++ expected_creates m1 rest t
  = expected_creates m ((t0, pngs) :: rest) t.
Proof.
  intros Hm1. unfold expected_creates. rewrite fmap_cons. simpl.
  destruct (decide (t = t0)) as [->|Hne].
  - destruct Hm1 as [[[a Ha] ->]|[Hm (a & ->)]].
    + rewrite !bool_decide_eq_false_2; [done|..]; intros [? _]; congruence.
    + rewrite bool_decide_eq_true_2 by done.
      rewrite bool_decide_eq_false_2.
      2: { intros [Hl _]. by rewrite lookup_insert_eq in Hl. }
      rewrite bool_decide_eq_true_2; [done|]. split; [done|]. left.
  - rewrite bool_decide_eq_false_2 by (by intros [_ ?]). simpl.
    assert (m1 !! Some t = m !! Some t) as ->.
    { destruct Hm1 as [[_ ->]|[_ (a & ->)]]; [done|].
      apply lookup_insert_ne. congruence. }
    rewrite (bool_decide_ext (m !! Some t = None ∧ t ∈ t0 :: rest.*1)
               (m !! Some t = None ∧ t ∈ rest.*1)); [done|].
    rewrite elem_of_cons. split.
    + intros [? [?|?]]; done.
    + intros [? ?]. split; [done|by right].
Qed.

Lemma reconcile_creates images :
  ∀ (m : gmap (option string) Album) (w : World R),
  ∃ l, new_calls w (reconcile parent m images w).2 l
       ∧ (∀ t, List.filter (creates_title t) l `prefix_of` expected_creates m images t)
       ∧ (∀ m', (reconcile parent m images w).1 = Ok m' ->
            ∀ t, List.filter (creates_title t) l = expected_creates m images t).
Proof.
  unfold reconcile. induction images as [|[t0 pngs] rest IH]; intros m w.
  - exists []. split; [apply new_calls_refl|]. split.
    + intros t. apply prefix_nil.
    + intros m' _ t. unfold expected_creates.
      rewrite bool_decide_eq_false_2; [done|]. intros [_ Hin].
      by apply elem_of_nil in Hin.
  - rewrite for_fold_cons.
    destruct (handle_group_calls m t0 pngs w) as (l1 & Hl1 & Hf1 & Hok1).
    destruct (handle_group parent m (t0, pngs) w) as [[m1|e] w1]; simpl in *.
    + specialize (Hok1 m1 eq_refl).
      destruct (IH m1 w1) as (l2 & Hl2 & Hpre2 & Hok2).
      exists (l1 ++ l2). split; [by eapply new_calls_trans|]. split.
      * intros t. rewrite List.filter_app, Hf1.
        rewrite <- (expected_creates_step m m1 t0 pngs rest t Hok1).
        by apply prefix_app.
      * intros m' Hr t. rewrite List.filter_app, Hf1, (Hok2 m' Hr t).
        by apply expected_creates_step.
    + exists l1. split; [done|]. split; [|done].
      intros t. rewrite Hf1. unfold expected_creates.
      destruct (decide (m !! Some t0 = None ∧ t = t0)) as [[Hm ->]|Hne].
      * rewrite !bool_decide_eq_true_2; [done|..]; try done.
        split; [done|]. rewrite fmap_cons. left.
      * rewrite (bool_decide_eq_false_2 _ Hne). apply prefix_nil.
Qed.

End OuterLoop.

(* ===================================================================== *)
(** * The reconciler: albums and uploads *)
(* ===================================================================== *)

Section Reconciler.

Context {R : Type} `{Api : ImgurApi R}.


(** ** The uploads of the whole loop *)







(** C3: a group whose title is a key of the fetched album dictionary gets
    the album stored there: [get_album] returns it without any call and
    leaves the dictionary as it is, the round of that group makes uploads
    into that album only, and the whole loop, however it ends, makes no
    album-creation call for that title. *)
Theorem C3_existing_album_is_reused (parent : string)
  (m : gmap (option string) Album) (title : string) (album : Album)
  (url : string) (images : list (string * list string)) (w : World R) :
  m !! Some title = Some album ->
  get_album m title url w = (Ok (album, m), w)
  ∧ (∀ pngs,
       ∃ l, new_calls w (handle_group parent m (title, pngs) w).2 l
            ∧ l `prefix_of` map (upload_call parent title (album_url_of title) album)
                              (missing_pngs title album pngs))
  ∧ (∃ l, new_calls w (reconcile parent m images w).2 l
          ∧ ∀ fields, CreateAlbum fields ∈ l -> af_title fields ≠ title).
Proof.
  intros Hm. split; [by apply get_album_hit|]. split.
  - intros pngs. rewrite handle_group_unfold, (get_album_hit _ _ _ _ _ Hm).
    simpl. set (w2 := {| remote := remote w |}).
    destruct (for_each_pngs_calls parent title (album_url_of title) album pngs w2)
      as (l & Hl & Hpre & _).
    exists l. split; [|done].
    by destruct (for_each pngs _ w2) as [[[]|e] w3].
  - destruct (reconcile_creates parent images m w) as (l & Hl & Hpre & _).
    exists l. split; [done|]. intros fields Hin Ht.
    specialize (Hpre title). unfold expected_creates in Hpre.
    rewrite bool_decide_eq_false_2 in Hpre by (intros [? _]; congruence).
    apply prefix_nil_inv in Hpre.
    assert (CreateAlbum fields ∈ List.filter (creates_title title) l) as Hf.
    { apply list_elem_of_In, List.filter_In. split; [by apply list_elem_of_In|].
      simpl. rewrite Ht. apply String.eqb_refl. }
    rewrite Hpre in Hf. by apply elem_of_nil in Hf.
Qed.

(** C4: for a title the album dictionary lacks, [get_album] makes exactly
    one album-creation call, with the title, privacy [hidden] and a
    description holding the source URL; when the service answers both
    calls, the created album is fetched by the identifier the creation
    returned and stored under the title, so that a later [get_album] for
    the title returns it without any call.  In the loop, however it ends,
    at most one creation call is made for the title, and exactly one when
    the loop completes and a group bears the title. *)
Theorem C4_missing_album_created_once (parent : string)
  (m : gmap (option string) Album) (title url : string)
  (images : list (string * list string)) (w : World R) :
  m !! Some title = None ->
  (∃ rest,
     new_calls w (get_album m title url w).2
       (CreateAlbum {| af_title := title; af_privacy := "hidden";
                       af_description := "Album of images from " +:+ url |}
          :: rest)
     ∧ List.filter is_create rest = [])
  ∧ (∀ id r1 album r2,
       api_create_album
         {| af_title := title; af_privacy := "hidden";
            af_description := "Album of images from " +:+ url |} (remote w)
       = (Ok id, r1) ->
       api_get_album id r1 = (Ok album, r2) ->
       (get_album m title url w).1 = Ok (album, <[Some title := album]> m)
       ∧ new_calls w (get_album m title url w).2
           [create_call title url; GetAlbum id]
       ∧ ∀ url' (w' : World R),
           get_album (<[Some title := album]> m) title url' w'
           = (Ok (album, <[Some title := album]> m), w'))
  ∧ (∃ l, new_calls w (reconcile parent m images w).2 l
          ∧ List.filter (creates_title title) l
              `prefix_of` [create_call title (album_url_of title)]
          ∧ (∀ m', (reconcile parent m images w).1 = Ok m' ->
               title ∈ images.*1 ->
               List.filter (creates_title title) l
               = [create_call title (album_url_of title)])).
Proof.
  intros Hm. split; [|split].
  - rewrite (get_album_miss _ _ _ _ Hm).
    unfold client_create_album, client_get_album, client_call, new_calls.
    destruct (api_create_album _ (remote w)) as [[id|e] r1]; simpl.
    + exists [GetAlbum id]. split; [|done].
      destruct (api_get_album id r1) as [[album|e] r2]; simpl;
        by rewrite <- app_assoc.
    + by exists [].
  - intros id r1 album r2 Hc Hg. rewrite (get_album_miss _ _ _ _ Hm).
    unfold client_create_album, client_get_album, client_call, new_calls.
    rewrite Hc. simpl. rewrite Hg. simpl. split; [done|].
    split; [by rewrite <- app_assoc|].
    intros url' w'. apply get_album_hit. apply lookup_insert_eq.
  - destruct (reconcile_creates parent images m w) as (l & Hl & Hpre & Hok).
    exists l. split; [done|]. split.
    + specialize (Hpre title). unfold expected_creates in Hpre.
      destruct (bool_decide _); [done|].
      apply prefix_nil_inv in Hpre. rewrite Hpre. apply prefix_nil.
    + intros m' Hr Hin. rewrite (Hok m' Hr title). unfold expected_creates.
      by rewrite bool_decide_eq_true_2.
Qed.

End Reconciler.

(* ===================================================================== *)
(** * Strings: append, prefixes and [replace] *)
(* ===================================================================== *)

Module StrFacts.

#[local] Arguments String.append !_ _ / : simpl nomatch.

Lemma app_assoc (a b c : string) : (a +:+ b) +:+ c = a +:+ (b +:+ c).
Proof. induction a as [|x a IH]; simpl; [done|by rewrite IH]. Qed.

Lemma app_nil_r (a : string) : a +:+ "" = a.
Proof. induction a as [|x a IH]; simpl; [done|by rewrite IH]. Qed.

Lemma length_app (a b : string) :
  String.length (a +:+ b) = String.length a + String.length b.
Proof. induction a as [|x a IH]; simpl; [done|by rewrite IH]. Qed.

Lemma app_inv_head (a b c : string) : a +:+ b = a +:+ c -> b = c.
Proof. induction a as [|x a IH]; simpl; [done|]. intros [= H]. auto. Qed.

Lemma length_zero (a : string) : String.length a = 0 -> a = "".
Proof. by destruct a. Qed.

(** Two ways of cutting a string: one cut is a prefix of the other. *)
Lemma app_eq_app (a b c d : string) :
  a +:+ b = c +:+ d ->
  (∃ k, c = a +:+ k ∧ b = k +:+ d) ∨ (∃ k, a = c +:+ k ∧ d = k +:+ b).
Proof.
  revert c. induction a as [|x a IH]; intros c H; simpl in *.
  - left. by exists c.
  - destruct c as [|y c]; simpl in *.
    + right. by exists (String x a).
    + injection H as <- H. destruct (IH c H) as [(k & -> & ->)|(k & -> & ->)].
      * left. by exists k.
      * right. by exists k.
Qed.

Lemma prefix_iff (p s : string) :
  String.prefix p s = true <-> ∃ q, s = p +:+ q.
Proof.
  revert s. induction p as [|x p IH]; intros s.
  - destruct s; simpl; split; eauto.
  - destruct s as [|y s]; simpl.
    + split; [done|]. by intros [q ?].
    + destruct (ascii_dec x y) as [->|Hne].
      * rewrite IH. split; intros [q Hq]; exists q; congruence.
      * split; [done|]. intros [q [= ? ?]]. done.
Qed.

Lemma replace_scan_skip old new (w post : string) :
  PyStr.replace_scan old new (String.length w) (w +:+ post)
  = PyStr.replace_scan old new 0 post.
Proof. induction w as [|x w IH]; simpl; [by destruct post|done]. Qed.

Lemma occurs_in_cons old c s :
  occurs_in old (String c s) ->
  String.prefix old (String c s) = true ∨ occurs_in old s.
Proof.
  intros (pre & post & H). destruct pre as [|x pre]; simpl in H.
  - left. apply prefix_iff. eauto.
  - right. injection H as _ ->. by exists pre, post.
Qed.

Lemma Substituted_cons old new c s r :
  String.prefix old (String c s) = false ->
  Substituted old new s r ->
  Substituted old new (String c s) (String c r).
Proof.
  intros Hp Hs. destruct Hs as [s Hno|pre post r Hfirst Hs].
  - apply Subst_none. intros Hocc.
    apply occurs_in_cons in Hocc as [Hp'|Hocc]; [congruence|done].
  - apply (Subst_first old new (String c pre) post r); [|done].
    intros p q H. destruct p as [|y p]; simpl in H.
    + exfalso. assert (String.prefix old (String c (pre +:+ old +:+ post)) = true);
        [|congruence].
      apply prefix_iff. exists (q +:+ post).
      change (String c (pre +:+ old +:+ post))
        with (String c pre +:+ (old +:+ post)).
      rewrite <- app_assoc.
      change (String c pre +:+ old) with (String c (pre +:+ old)).
      rewrite H. apply app_assoc.
    + injection H as _ H. by apply (Hfirst p q).
Qed.

Lemma replace_scan_Substituted old new :
  old ≠ "" ->
  ∀ n s, String.length s <= n ->
         Substituted old new s (PyStr.replace_scan old new 0 s).
Proof.
  intros Hold. induction n as [|n IH]; intros s Hlen.
  - destruct s; [|simpl in Hlen; lia]. apply Subst_none.
    intros (pre & post & H). destruct pre, old; simpl in H; congruence.
  - destruct s as [|c s].
    { apply Subst_none. intros (pre & post & H).
      destruct pre, old; simpl in H; congruence. }
    cbn [PyStr.replace_scan].
    destruct (String.prefix old (String c s)) eqn:Hp.
    + apply prefix_iff in Hp as [post Hpost].
      destruct old as [|o old']; [done|]. simpl in Hpost.
      injection Hpost as <- ->.
      replace (String.length (String c old') - 1) with (String.length old')
        by (simpl; lia).
      rewrite replace_scan_skip.
      change (String c (old' +:+ post)) with ("" +:+ String c old' +:+ post).
      change (new +:+ PyStr.replace_scan (String c old') new 0 post)
        with ("" +:+ new +:+ PyStr.replace_scan (String c old') new 0 post).
      apply Subst_first.
      * intros p q H. simpl in H. apply (f_equal String.length) in H.
        rewrite !length_app in H. simpl in H. rewrite length_app in H.
        apply length_zero. lia.
      * apply IH. simpl in Hlen. rewrite length_app in Hlen. lia.
    + apply Substituted_cons; [done|]. apply IH. simpl in Hlen. lia.
Qed.

Lemma replace_Substituted old new s :
  old ≠ "" -> Substituted old new s (PyStr.replace s old new).
Proof.
  intros Hold. unfold PyStr.replace. destruct old as [|c old']; [done|].
  by apply (replace_scan_Substituted _ _ Hold (String.length s)).
Qed.

(** The leftmost occurrence is found at one place only. *)
Lemma leftmost_unique old pre1 post1 pre2 post2 :
  (∀ p q, pre1 +:+ old = p +:+ old +:+ q -> q = "") ->
  (∀ p q, pre2 +:+ old = p +:+ old +:+ q -> q = "") ->
  pre1 +:+ old +:+ post1 = pre2 +:+ old +:+ post2 ->
  pre1 = pre2 ∧ post1 = post2.
Proof.
  assert (∀ a b x y z,
            (∀ p q, b +:+ old = p +:+ old +:+ q -> q = "") ->
            b = a +:+ x -> old +:+ y = x +:+ old +:+ z -> x = "") as Hkey.
  { intros a b x y z Hb -> Hx.
    rewrite <- (app_assoc x old z) in Hx.
    apply app_eq_app in Hx as [(k & Hk & _)|(k & Hk & _)].
    - apply length_zero. specialize (Hb a k).
      rewrite app_assoc, Hk in Hb. specialize (Hb eq_refl). subst k.
      apply (f_equal String.length) in Hk.
      rewrite !length_app in Hk. simpl in Hk. lia.
    - apply (f_equal String.length) in Hk.
      rewrite !length_app in Hk. apply length_zero. lia. }
  intros H1 H2 Heq.
  destruct (app_eq_app _ _ _ _ Heq) as [(k & Hk & Hr)|(k & Hk & Hr)].
  - assert (k = "") as -> by (by apply (Hkey pre1 pre2 k post1 post2)).
    rewrite app_nil_r in Hk. subst pre2. split; [done|].
    simpl in Hr. by apply app_inv_head in Hr.
  - assert (k = "") as -> by (by apply (Hkey pre2 pre1 k post2 post1)).
    rewrite app_nil_r in Hk. subst pre1. split; [done|].
    simpl in Hr. symmetry. by apply app_inv_head in Hr.
Qed.

(** The substitution is a function of the string. *)
Lemma Substituted_functional old new s r1 r2 :
  Substituted old new s r1 -> Substituted old new s r2 -> r1 = r2.
Proof.
  intros H1. revert r2. induction H1 as [s Hno|pre post r Hfirst Hs IH];
    intros r2 H2.
  - inversion H2 as [s' Hno' Es Er|pre' post' r' Hfirst' Hs' Es Er]; [done|].
    exfalso. apply Hno. subst s. by exists pre', post'.
  - inversion H2 as [s' Hno' Es Er|pre' post' r' Hfirst' Hs' Es Er].
    + exfalso. apply Hno'. by exists pre, post.
    + destruct (leftmost_unique _ _ _ _ _ Hfirst' Hfirst Es) as [-> ->].
      by rewrite (IH r' Hs').
Qed.

End StrFacts.

(* ===================================================================== *)
(** * What the loop prints *)
(* ===================================================================== *)

Section Lines.

Context {R : Type} `{Api : ImgurApi R}.
Variable parent : string.

Lemma get_album_stdout (m : gmap (option string) Album) title url (w : World R) :
  stdout (get_album m title url w).2 = stdout w.
Proof.
  destruct (m !! Some title) as [album|] eqn:Hm.
  - by rewrite (get_album_hit _ _ _ _ _ Hm).
  - rewrite (get_album_miss _ _ _ _ Hm).
    unfold client_create_album, client_get_album, client_call.
    destruct (api_create_album _ (remote w)) as [[id|e] r1]; [|done].
    simpl. by destruct (api_get_album id r1) as [[album|e] r2].
Qed.

Lemma handle_png_lines title url album png (w : World R) :
  ∃ rest, new_lines w (handle_png parent title url album png w).2
            (image_line url png :: rest)
          ∧ Forall (λ line, is_limit_line line = false) rest.
Proof.
  unfold handle_png, new_lines. rewrite bind_run. simpl.
  destruct (get_album_image album _).
  - exists []. by split.
  - rewrite bind_run. unfold client_upload_from_path, client_call. simpl.
    destruct (api_upload_from_path _ _ _) as [[image|e] r1]; simpl.
    + eexists [_]. split; [by rewrite <- app_assoc|].
      by repeat constructor.
    + exists []. by split.
Qed.

Lemma for_each_lines title url album pngs :
  ∀ w : World R,
  ∃ lines, new_lines w (for_each pngs (handle_png parent title url album) w).2 lines
           ∧ Forall (λ line, is_limit_line line = false) lines
           ∧ ((for_each pngs (handle_png parent title url album) w).1 = Ok tt ->
              ∀ png, png ∈ pngs -> image_line url png ∈ lines).
Proof.
  induction pngs as [|png rest IH]; intros w.
  - exists []. split; [apply new_lines_refl|]. split; [done|].
    intros _ png Hin. by apply elem_of_nil in Hin.
  - rewrite for_each_cons.
    destruct (handle_png_lines title url album png w) as (l1 & Hl1 & Hf1).
    destruct (handle_png parent title url album png w) as [[[]|e] w1]; simpl in *.
    + destruct (IH w1) as (l2 & Hl2 & Hf2 & Hin2).
      exists ((image_line url png :: l1) ++ l2).
      split; [by eapply new_lines_trans|]. split.
      * apply Forall_app. split; [|done]. by constructor.
      * intros Hr p Hp. apply elem_of_cons in Hp as [->|Hp].
        -- left.
        -- apply elem_of_app. right. by apply Hin2.
    + exists (image_line url png :: l1). split; [done|]. split; [|done].
      by constructor.
Qed.

Lemma handle_group_lines (m : gmap (option string) Album) title pngs (w : World R) :
  ∃ lines, new_lines w (handle_group parent m (title, pngs) w).2 lines
           ∧ Forall (λ line, is_limit_line line = false) lines
           ∧ (∀ m', (handle_group parent m (title, pngs) w).1 = Ok m' ->
                ∃ album rest,
                  lines = album_line (album_url_of title)
                            :: ("Album @ " +:+ album_link album) :: rest
                  ∧ ∀ png, png ∈ pngs ->
                           image_line (album_url_of title) png ∈ rest).
Proof.
  rewrite handle_group_unfold.
  pose proof (get_album_stdout m title (album_url_of title) w) as Hg.
  destruct (get_album m title (album_url_of title) w) as [[[album m1]|e] w1];
    simpl in *.
  - set (w2 := {| remote := remote w1 |}).
    destruct (for_each_lines title (album_url_of title) album pngs w2)
      as (l & Hl & Hf & Hin).
    exists (album_line (album_url_of title)
              :: ("Album @ " +:+ album_link album) :: l).
    assert (new_lines w
              (for_each pngs (handle_png parent title (album_url_of title) album) w2).2
              (album_line (album_url_of title)
                 :: ("Album @ " +:+ album_link album) :: l)) as Hnew.
    { unfold new_lines in *. rewrite Hl. simpl. rewrite Hg.
      by rewrite <- !app_assoc. }
    assert (Forall (λ line, is_limit_line line = false)
              (album_line (album_url_of title)
                 :: ("Album @ " +:+ album_link album) :: l)) as Hall.
    { by repeat constructor. }
    destruct (for_each pngs _ w2) as [[[]|e] w3]; simpl in *.
    + split; [done|]. split; [done|]. intros m' _. exists album, l.
      split; [done|]. by apply Hin.
    + done.
  - exists []. unfold new_lines. rewrite Hg, app_nil_r. done.
Qed.

Lemma reconcile_lines images :
  ∀ (m : gmap (option string) Album) (w : World R),
  ∃ lines, new_lines w (reconcile parent m images w).2 lines
           ∧ Forall (λ line, is_limit_line line = false) lines.
Proof.
  unfold reconcile. induction images as [|[title pngs] rest IH]; intros m w.
  - exists []. split; [apply new_lines_refl|done].
  - rewrite for_fold_cons.
    destruct (handle_group_lines m title pngs w) as (l1 & Hl1 & Hf1 & _).
    destruct (handle_group parent m (title, pngs) w) as [[m1|e] w1]; simpl in *.
    + destruct (IH m1 w1) as (l2 & Hl2 & Hf2).
      exists (l1 ++ l2). split; [by eapply new_lines_trans|].
      by apply Forall_app.
    + by exists l1.
Qed.

End Lines.

(* ===================================================================== *)
(** * The loop and the answers of the service *)
(* ===================================================================== *)

Section CallDriven.

Context {R : Type} `{Api : ImgurApi R}.

Lemma served_app l1 l2 (r : R) :
  served l1 r
  = (Ok tt, (served l1 r).2) ->
  served (l1 ++ l2) r = served l2 (served l1 r).2.
Proof.
  revert r. induction l1 as [|c l1 IH]; intros r; [done|].
  cbn [app served]. destruct (answer c r) as [[[]|e] r1]; [apply IH|done].
Qed.

Lemma served_refused l0 c rest (r0 r r' : R) e :
  served l0 r0 = (Ok tt, r) ->
  answer c r = (Raise e, r') ->
  served (l0 ++ c :: rest) r0 = (Raise e, r').
Proof.
  intros H0 Ha. rewrite served_app by (by rewrite H0).
  rewrite H0. cbn [snd served]. by rewrite Ha.
Qed.

Lemma served_answered l0 l1 (r0 r r' : R) :
  served l0 r0 = (Ok tt, r) ->
  served l1 r = (Ok tt, r') ->
  served (l0 ++ l1) r0 = (Ok tt, r').
Proof.
  intros H0 H1. rewrite served_app by (by rewrite H0). by rewrite H0.
Qed.

Lemma new_calls_inj (w w' : World R) l1 l2 :
  new_calls w w' l1 -> new_calls w w' l2 -> l1 = l2.
Proof.
  unfold new_calls. intros H1 H2. rewrite H1 in H2. by apply app_inv_head in H2.
Qed.

Lemma call_driven_ret {A} (a : A) : call_driven (R:=R) (ret a).
Proof. intros w. exists []. split; [apply new_calls_refl|done]. Qed.

Lemma call_driven_print line : call_driven (R:=R) (print line).
Proof.
  intros w. exists []. split; [|done]. unfold new_calls. simpl.
  by rewrite app_nil_r.
Qed.

Lemma call_driven_client_call {A} c (f : R -> result A * R) :
  (∀ r, answer c r = (outcome (f r).1, (f r).2)) ->
  call_driven (client_call c f).
Proof.
  intros Hc w. exists [c]. unfold client_call, new_calls.
  specialize (Hc (remote w)).
  destruct (f (remote w)) as [[a|e] r1]; cbn [fst snd outcome] in *.
  - split; [done|]. cbn [served]. by rewrite Hc.
  - split; [done|]. by exists [], c, (remote w).
Qed.

Lemma call_driven_bind {A B} (m : M R A) (k : A -> M R B) :
  call_driven m -> (∀ a, call_driven (k a)) -> call_driven (bind m k).
Proof.
  intros Hm Hk w. rewrite bind_run.
  destruct (Hm w) as (l1 & Hl1 & H1).
  destruct (m w) as [[a|e] w1]; cbn [fst snd] in *.
  - destruct (Hk a w1) as (l2 & Hl2 & H2).
    exists (l1 ++ l2). split; [by eapply new_calls_trans|].
    destruct (k a w1) as [[b|e] w2]; cbn [fst snd] in *.
    + by apply (served_answered _ _ _ _ _ H1).
    + destruct H2 as (l0 & c & r & -> & Hs & Ha).
      exists (l1 ++ l0), c, r. split; [by rewrite app_assoc|].
      split; [|done]. by apply (served_answered _ _ _ _ _ H1).
  - by exists l1.
Qed.

Lemma call_driven_for_each {A} (xs : list A) (body : A -> M R unit) :
  (∀ x, call_driven (body x)) -> call_driven (for_each xs body).
Proof.
  intros Hbody. induction xs as [|x xs IH]; simpl.
  - apply call_driven_ret.
  - apply call_driven_bind; [apply Hbody|]. intros _. exact IH.
Qed.

Lemma call_driven_for_fold {A S} (xs : list A) (body : S -> A -> M R S) :
  (∀ s x, call_driven (body s x)) -> ∀ s, call_driven (for_fold xs s body).
Proof.
  intros Hbody. induction xs as [|x xs IH]; intros s; simpl.
  - apply call_driven_ret.
  - apply call_driven_bind; [apply Hbody|]. exact IH.
Qed.

Lemma call_driven_get_album (m : gmap (option string) Album) title url :
  call_driven (R:=R) (get_album m title url).
Proof.
  unfold get_album. destruct (m !! Some title); [apply call_driven_ret|].
  apply call_driven_bind; [by apply call_driven_client_call|]. intros id.
  apply call_driven_bind; [by apply call_driven_client_call|]. intros album.
  apply call_driven_ret.
Qed.

Lemma call_driven_handle_png parent title url album png :
  call_driven (R:=R) (handle_png parent title url album png).
Proof.
  unfold handle_png. apply call_driven_bind; [apply call_driven_print|].
  intros _. destruct (get_album_image _ _); [apply call_driven_ret|].
  apply call_driven_bind; [by apply call_driven_client_call|]. intros image.
  apply call_driven_print.
Qed.

Lemma call_driven_reconcile (parent : string) (m : gmap (option string) Album)
  (images : list (string * list string)) :
  call_driven (R:=R) (reconcile parent m images).
Proof.
  unfold reconcile. apply call_driven_for_fold. clear m.
  intros m [title pngs]. unfold handle_group.
  apply call_driven_bind; [apply call_driven_get_album|]. intros [album m1].
  apply call_driven_bind; [apply call_driven_print|]. intros _.
  apply call_driven_bind; [apply call_driven_print|]. intros _.
  apply call_driven_bind; [|intros _; apply call_driven_ret].
  apply call_driven_for_each. intros png. apply call_driven_handle_png.
Qed.

(** A call the service refuses is the last one made, and its failure is
    the outcome. *)
Lemma refused_call_ends {A} (m : M R A) (w : World R) l l0 c rest r r' e :
  call_driven m ->
  new_calls w (m w).2 l ->
  l = l0 ++ c :: rest ->
  served l0 (remote w) = (Ok tt, r) ->
  answer c r = (Raise e, r') ->
  rest = [] ∧ (m w).1 = Raise e ∧ remote (m w).2 = r'.
Proof.
  intros Hm Hl -> Hs Ha. destruct (Hm w) as (l' & Hl' & H).
  pose proof (new_calls_inj _ _ _ _ Hl' Hl) as ->.
  pose proof (served_refused l0 c rest _ _ _ _ Hs Ha) as Hall.
  destruct (m w).1 as [a|e'].
  - rewrite Hall in H. discriminate.
  - destruct H as (l1 & c' & r1 & Heq & Hs1 & Ha1).
    assert (rest = []) as ->.
    { destruct rest as [|x rest] using rev_ind; [done|]. exfalso.
      change (l0 ++ c :: rest ++ [x]) with (l0 ++ (c :: rest) ++ [x]) in Heq.
      rewrite app_assoc in Heq. apply app_inj_tail in Heq as [<- _].
      rewrite (served_refused l0 c rest _ _ _ _ Hs Ha) in Hs1. discriminate. }
    apply app_inj_tail in Heq as [<- <-].
    rewrite Hs in Hs1. injection Hs1 as <-. rewrite Ha in Ha1.
    by injection Ha1 as <- <-.
Qed.

(** An upload the service refuses ends the round of its file with that
    failure, right after the call. *)
Lemma handle_png_refused parent title url album png (w : World R) e r' :
  ¬ has_image_titled album (PosixPath.join title png) ->
  api_upload_from_path (PosixPath.join3 parent title png)
    {| uc_title := PosixPath.join title png;
       uc_description := "A mirror of " +:+ image_url_of url png;
       uc_album := album_deletehash album |} (remote w)
  = (Raise e, r') ->
  handle_png parent title url album png w
  = (Raise e,
     {| remote := r';
        calls := calls w ++ [upload_call parent title url album png];
        stdout := stdout w ++ [image_line url png];
        stdin := stdin w; config_file := config_file w; files := files w |}).
Proof.
  intros Hno Hup. apply get_album_image_None in Hno.
  unfold handle_png. rewrite bind_run. cbn [print]. rewrite Hno, bind_run.
  unfold client_upload_from_path, client_call. cbn [remote]. by rewrite Hup.
Qed.

End CallDriven.

(* ===================================================================== *)
(** * Source URLs and the rate limit *)
(* ===================================================================== *)

Section UrlsAndLimit.

Context {R : Type} `{Api : ImgurApi R}.

(** C7: the album's source URL is the fixed root URL followed by the album
    title in which the tracked directory name [lnxpcs] is replaced by the
    hosted-source segment [lnxpcs/tree/master]; an image's source URL is the
    album's, a slash and the file name.  These are the URLs a round of the
    loop prints for the group and for each of its files. *)
Theorem C7_source_urls (title : string) :
  ∃ s, Substituted REPO_DIR "lnxpcs/tree/master" title s
       ∧ (∀ s', Substituted REPO_DIR "lnxpcs/tree/master" title s' -> s' = s)
       ∧ album_url_of title = ROOT_URL +:+ s
       ∧ (∀ png, image_url_of (album_url_of title) png
                 = ROOT_URL +:+ s +:+ "/" +:+ png)
       ∧ (∀ parent (m m' : gmap (option string) Album) pngs (w w' : World R),
            handle_group parent m (title, pngs) w = (Ok m', w') ->
            ∃ album rest,
              new_lines w w'
                (("Handling album " +:+ ROOT_URL +:+ s)
                   :: ("Album @ " +:+ album_link album) :: rest)
              ∧ ∀ png, png ∈ pngs ->
                  (String "009"%char "Handling image "
                     +:+ ROOT_URL +:+ s +:+ "/" +:+ png) ∈ rest).
Proof.
  exists (PyStr.replace title REPO_DIR "lnxpcs/tree/master").
  assert (Substituted REPO_DIR "lnxpcs/tree/master" title
            (PyStr.replace title REPO_DIR "lnxpcs/tree/master")) as Hs.
  { by apply StrFacts.replace_Substituted. }
  assert (∀ png, image_url_of (album_url_of title) png
                 = ROOT_URL +:+ PyStr.replace title REPO_DIR "lnxpcs/tree/master"
                     +:+ "/" +:+ png) as Himg.
  { intros png. unfold image_url_of, album_url_of. apply StrFacts.app_assoc. }
  split; [done|]. split.
  { intros s' Hs'. by apply (StrFacts.Substituted_functional _ _ _ _ _ Hs'). }
  split; [done|]. split; [done|].
  intros parent m m' pngs w w' Hrun.
  destruct (handle_group_lines parent m title pngs w) as (lines & Hl & _ & Hok).
  rewrite Hrun in Hl, Hok. simpl in *.
  destruct (Hok m' eq_refl) as (album & rest & -> & Hin).
  exists album, rest. split; [exact Hl|].
  intros png Hpng. specialize (Hin png Hpng).
  unfold image_line in Hin. by rewrite Himg in Hin.
Qed.

(** C6: a rate-limit failure the service answers to a call of the
    reconciliation loop, be it the creation of an album, its fetch or an
    upload, ends the loop at that call: no call follows, the service is
    left in the state of the refusal, with whatever the run had created,
    and the failure reaches the handler, which runs once: it prints one
    line with the remaining credit, and the same failure leaves [main],
    which ends the process with status 1.  In particular an upload the
    service refuses is not passed over, and the loop fails in no other way
    than by a call the service refused. *)
Theorem C6_rate_limit_reported_and_reraised (parent : string)
  (m : gmap (option string) Album) (images : list (string * list string))
  (w : World R) :
  let loop := reconcile parent m images w in
  (∀ title url album png (w1 : World R) e r',
     ¬ has_image_titled album (PosixPath.join title png) ->
     api_upload_from_path (PosixPath.join3 parent title png)
       {| uc_title := PosixPath.join title png;
          uc_description := "A mirror of " +:+ image_url_of url png;
          uc_album := album_deletehash album |} (remote w1)
     = (Raise e, r') ->
     handle_png parent title url album png w1
     = (Raise e,
        {| remote := r';
           calls := calls w1 ++ [upload_call parent title url album png];
           stdout := stdout w1 ++ [image_line url png];
           stdin := stdin w1; config_file := config_file w1;
           files := files w1 |}))
  ∧ ∃ l,
      new_calls w loop.2 l
      ∧ (∀ l0 c rest r r',
           l = l0 ++ c :: rest ->
           served l0 (remote w) = (Ok tt, r) ->
           answer c r = (Raise ImgurClientRateLimitError, r') ->
           let w'' := with_line loop.2 ("Passed limit " +:+ api_credits r') in
           rest = []
           ∧ loop.1 = Raise ImgurClientRateLimitError
           ∧ remote loop.2 = r'
           ∧ reconcile_guarded parent m images w
             = (Raise ImgurClientRateLimitError, w'')
           ∧ (∃ lines, new_lines w w'' lines
                       ∧ List.filter is_limit_line lines
                         = ["Passed limit " +:+ api_credits r'])
           ∧ (∀ config path (w0 : World R),
                prepare config path w0 = (Ok (parent, images, m), w) ->
                main config path w0 = (Raise ImgurClientRateLimitError, w'')
                ∧ exit_status (main config path w0).1 = 1%Z))
      ∧ (∀ e, loop.1 = Raise e ->
           ∃ l0 c r, l = l0 ++ [c]
                     ∧ served l0 (remote w) = (Ok tt, r)
                     ∧ answer c r = (Raise e, remote loop.2))
      ∧ (∀ m', loop.1 = Ok m' ->
           served l (remote w) = (Ok tt, remote loop.2)).
Proof.
  intros loop. split.
  { intros title url album png w1 e r'. apply handle_png_refused. }
  destruct (call_driven_reconcile parent m images w) as (l & Hl & Hdriven).
  fold loop in Hl, Hdriven. exists l. split; [done|]. split; [|split].
  - intros l0 c rest r r' Heq Hs Ha w''.
    destruct (refused_call_ends (reconcile parent m images) w l l0 c rest r r'
                ImgurClientRateLimitError
                (call_driven_reconcile parent m images) Hl Heq Hs Ha)
      as (Hrest & Hfail & Hrem).
    fold loop in Hfail, Hrem. subst r'.
    assert (reconcile parent m images w
            = (Raise ImgurClientRateLimitError, loop.2)) as Hrun.
    { fold loop. rewrite <- Hfail. by destruct loop. }
    assert (reconcile_guarded parent m images w
            = (Raise ImgurClientRateLimitError, w'')) as Hg.
    { unfold reconcile_guarded, try_except. by rewrite bind_run, Hrun. }
    split; [done|]. split; [done|]. split; [done|]. split; [done|]. split.
    + destruct (reconcile_lines parent images m w) as (lines & Hlines & Hf).
      fold loop in Hlines.
      exists (lines ++ ["Passed limit " +:+ api_credits (remote loop.2)]). split.
      * unfold new_lines in *. unfold w'', with_line. cbn [stdout].
        by rewrite Hlines, app_assoc.
      * rewrite List.filter_app.
        replace (List.filter is_limit_line lines) with (@nil string); [done|].
        symmetry. clear Hlines.
        induction Hf as [|line lines Hline _ IH]; [done|].
        simpl. by rewrite Hline.
    + intros config path w0 Hp. unfold main. rewrite bind_run, Hp, Hg. done.
  - intros e He. by rewrite He in Hdriven.
  - intros m' Hok. by rewrite Hok in Hdriven.
Qed.

End UrlsAndLimit.

(* ===================================================================== *)
(** * Tokens and the entry point *)
(* ===================================================================== *)

Section EntryPoint.

Context {R : Type} `{Api : ImgurApi R}.

Lemma set_tokens config d access refresh :
  cp_sections config !! TOKENS_SECTION = Some d ->
  ∃ config1,
    Config.set config TOKENS_SECTION "access" access = Ok config1
    ∧ Config.set config1 TOKENS_SECTION "refresh" refresh
      = Ok {| cp_defaults := cp_defaults config;
              cp_sections :=
                <[TOKENS_SECTION := <["refresh" := refresh]> (<["access" := access]> d)]>
                  (cp_sections config) |}.
Proof.
  intros Hd. unfold Config.set. simpl. rewrite Hd. eexists. split; [done|].
  simpl. rewrite lookup_insert_eq. by rewrite insert_insert_eq.
Qed.

Lemma request_new_token_ok config d id secret pin rest creds r1 r2 (w : World R) :
  cp_sections config !! TOKENS_SECTION = Some d ->
  stdin w = pin :: rest ->
  api_new_client id secret None None (remote w) = (Ok tt, r1) ->
  api_authorize pin "pin" r1 = (Ok creds, r2) ->
  let config' :=
    {| cp_defaults := cp_defaults config;
       cp_sections :=
         <[TOKENS_SECTION := <["refresh" := refresh_token creds]>
                               (<["access" := access_token creds]> d)]>
           (cp_sections config) |} in
  request_new_token config id secret w
  = (Ok config',
     {| remote := r2;
        calls := calls w ++ [NewClient id secret None None; Authorize pin "pin"];
        stdout := stdout w
                    ++ ["Please enter the pin you received from "
                          +:+ api_get_auth_url id "pin" +:+ String "010"%char "";
                        "Updated config for future use"];
        stdin := rest;
        config_file := Some config';
        files := files w |}).
Proof.
  intros Hd Hin Hc Ha config'.
  destruct (set_tokens config d (access_token creds) (refresh_token creds) Hd)
    as (config1 & H1 & H2).
  unfold request_new_token, ImgurClient, client_authorize, client_call, input,
    lift, config_write, print, ret.
  rewrite bind_run, Hc. simpl. rewrite bind_run, Hin. simpl.
  rewrite bind_run. simpl. rewrite Ha. simpl.
  rewrite bind_run, H1. simpl. rewrite bind_run, H2. simpl.
  do 2 (rewrite bind_run; simpl).
  by rewrite <- !app_assoc.
Qed.

Lemma getitem_add_section config section key :
  section ≠ TOKENS_SECTION ->
  Config.getitem (Config.add_section config TOKENS_SECTION) section key
  = Config.getitem config section key.
Proof.
  intros Hne. unfold Config.getitem, Config.contains, Config.has_section,
    Config.has_option, Config.get, Config.add_section.
  cbn [cp_sections cp_defaults]. by rewrite !lookup_insert_ne.
Qed.

(** [request_new_token], step by step. *)
Lemma request_new_token_steps (config : ConfigParser) (id secret : string)
  (w : World R) :
  request_new_token config id secret w
  = let prompt := "Please enter the pin you received from "
                    +:+ api_get_auth_url id "pin" +:+ String "010"%char "" in
    match api_new_client id secret None None (remote w) with
    | (Raise e, r1) =>
        (Raise e,
         {| remote := r1; calls := calls w ++ [NewClient id secret None None];
            stdout := stdout w; stdin := stdin w;
            config_file := config_file w; files := files w |})
    | (Ok _, r1) =>
        match stdin w with
        | [] =>
            (Raise EOFError,
             {| remote := r1; calls := calls w ++ [NewClient id secret None None];
                stdout := stdout w ++ [prompt]; stdin := [];
                config_file := config_file w; files := files w |})
        | pin :: rest =>
            let after r :=
              {| remote := r;
                 calls := calls w ++ [NewClient id secret None None;
                                      Authorize pin "pin"];
                 stdout := stdout w ++ [prompt]; stdin := rest;
                 config_file := config_file w; files := files w |} in
            match api_authorize pin "pin" r1 with
            | (Raise e, r2) => (Raise e, after r2)
            | (Ok creds, r2) =>
                match Config.set config TOKENS_SECTION "access"
                        (access_token creds) with
                | Raise e => (Raise e, after r2)
                | Ok config1 =>
                    match Config.set config1 TOKENS_SECTION "refresh"
                            (refresh_token creds) with
                    | Raise e => (Raise e, after r2)
                    | Ok config2 =>
                        (Ok config2,
                         {| remote := r2;
                            calls := calls w ++ [NewClient id secret None None;
                                                 Authorize pin "pin"];
                            stdout := stdout w ++ [prompt; updated_line];
                            stdin := rest; config_file := Some config2;
                            files := files w |})
                    end
                end
            end
        end
    end.
Proof.
  unfold request_new_token, ImgurClient, client_authorize, client_call,
    input, lift, config_write, print, ret.
  rewrite bind_run.
  destruct (api_new_client id secret None None (remote w)) as [[[]|e] r1];
    cbn beta iota; [|done].
  rewrite bind_run. cbn [stdin stdout calls remote config_file files].
  destruct (stdin w) as [|pin rest]; cbn beta iota; [done|].
  rewrite bind_run. cbn [stdin stdout calls remote config_file files].
  destruct (api_authorize pin "pin" r1) as [[creds|e] r2]; cbn beta iota.
  2: { by rewrite <- app_assoc. }
  rewrite bind_run.
  destruct (Config.set config TOKENS_SECTION "access" _) as [config1|e];
    cbn beta iota.
  2: { by rewrite <- app_assoc. }
  rewrite bind_run.
  destruct (Config.set config1 TOKENS_SECTION "refresh" _) as [config2|e];
    cbn beta iota.
  2: { by rewrite <- app_assoc. }
  do 2 (rewrite bind_run; cbn beta iota).
  cbn [stdin stdout calls remote config_file files].
  by rewrite <- !app_assoc.
Qed.

(** C8: once the pin exchange of Auth Flow has succeeded, the access and
    the refresh token are set in the [tokens] section of the configuration
    and the configuration file is rewritten at once with that
    configuration, so that the file holds both keys under [tokens]; no
    other call is made in between.  This holds for [request_new_token] on
    a configuration that has the section, and for Auth Flow as the entry
    point runs it, which adds the section when it is missing. *)
Theorem C8_tokens_written_and_persisted (config : ConfigParser)
  (id secret pin : string) (rest : list string) (creds : Credentials)
  (r1 r2 : R) (w : World R) :
  stdin w = pin :: rest ->
  api_new_client id secret None None (remote w) = (Ok tt, r1) ->
  api_authorize pin "pin" r1 = (Ok creds, r2) ->
  let written (run : result ConfigParser * World R) : Prop :=
    ∃ config',
      run.1 = Ok config'
      ∧ Config.get config' TOKENS_SECTION "access" = Ok (access_token creds)
      ∧ Config.get config' TOKENS_SECTION "refresh" = Ok (refresh_token creds)
      ∧ config_file run.2 = Some config'
      ∧ Config.file_has_key config' TOKENS_SECTION "access"
      ∧ Config.file_has_key config' TOKENS_SECTION "refresh"
      ∧ new_calls w run.2 [NewClient id secret None None; Authorize pin "pin"] in
  (Config.has_section config TOKENS_SECTION = true ->
   written (request_new_token config id secret w))
  ∧ (Config.getitem config CLIENT_SECTION "id" = Ok id ->
     Config.getitem config CLIENT_SECTION "secret" = Ok secret ->
     written (auth_flow config w)).
Proof.
  intros Hin Hc Ha written.
  assert (∀ c, Config.has_section c TOKENS_SECTION = true ->
               written (request_new_token c id secret w)) as Hreq.
  { intros c Hsec. unfold Config.has_section in Hsec.
    apply bool_decide_eq_true in Hsec as [d Hd].
    rewrite (request_new_token_ok c d id secret pin rest creds r1 r2 w Hd Hin Hc Ha).
    eexists. split; [done|]. simpl.
    unfold Config.get, Config.file_has_key. simpl.
    rewrite !lookup_insert_eq.
    rewrite lookup_insert_ne by done. rewrite !lookup_insert_eq.
    split; [done|]. split; [done|]. split; [done|].
    split.
    { eexists. split; [done|]. rewrite lookup_insert_ne by done.
      by rewrite lookup_insert_eq. }
    split; [|done].
    eexists. split; [done|]. by rewrite lookup_insert_eq. }
  split; [apply Hreq|].
  intros Hid Hsecret. unfold auth_flow.
  destruct (Config.contains config TOKENS_SECTION) eqn:Hcont; simpl.
  - unfold lift. rewrite bind_run, Hid. simpl. rewrite bind_run, Hsecret. simpl.
    apply Hreq. exact Hcont.
  - rewrite !getitem_add_section by done.
    unfold lift. rewrite bind_run, Hid. simpl. rewrite bind_run, Hsecret. simpl.
    apply Hreq. unfold Config.has_section, Config.add_section. simpl.
    apply bool_decide_eq_true. by rewrite lookup_insert_eq.
Qed.

End EntryPoint.

(* ===================================================================== *)
(** * Which calls a part of the script can make *)
(* ===================================================================== *)

Section Quiet.

Context {R : Type} `{Api : ImgurApi R}.
Variable P : Call -> Prop.

Local Ltac no_call :=
  intros w; exists []; unfold new_calls; simpl; by rewrite app_nil_r.

Lemma quiet_ret {A} (a : A) : quiet (R:=R) P (ret a).
Proof. no_call. Qed.

Lemma quiet_raise {A} e : quiet (R:=R) P (raise (A:=A) e).
Proof. no_call. Qed.

Lemma quiet_exit {A} code : quiet (R:=R) P (exit (A:=A) code).
Proof. apply quiet_raise. Qed.

Lemma quiet_lift {A} (r : result A) : quiet (R:=R) P (lift r).
Proof. no_call. Qed.

Lemma quiet_print line : quiet (R:=R) P (print line).
Proof. no_call. Qed.

Lemma quiet_get_files : quiet (R:=R) P get_files.
Proof. no_call. Qed.

Lemma quiet_client_credits : quiet (R:=R) P client_credits.
Proof. no_call. Qed.

Lemma quiet_client_call {A} c (f : R -> result A * R) :
  P c -> quiet (R:=R) P (client_call c f).
Proof.
  intros Hc w. exists [c]. unfold client_call, new_calls.
  destruct (f (remote w)) as [r rem]. simpl. split; [done|].
  split; [by constructor|done].
Qed.

Lemma quiet_bind {A B} (m : M R A) (k : A -> M R B) :
  quiet (R:=R) P m -> (∀ a, quiet (R:=R) P (k a)) -> quiet (R:=R) P (bind m k).
Proof.
  intros Hm Hk w. rewrite bind_run.
  destruct (Hm w) as (l1 & Hl1 & Hp1 & Hi1 & Hf1).
  destruct (m w) as [[a|e] w1]; simpl in *.
  - destruct (Hk a w1) as (l2 & Hl2 & Hp2 & Hi2 & Hf2).
    exists (l1 ++ l2). split; [by eapply new_calls_trans|].
    split; [by apply Forall_app|]. split; congruence.
  - by exists l1.
Qed.

Lemma quiet_for_each {A} (xs : list A) (body : A -> M R unit) :
  (∀ x, quiet (R:=R) P (body x)) -> quiet (R:=R) P (for_each xs body).
Proof.
  intros Hbody. induction xs as [|x xs IH]; simpl.
  - apply quiet_ret.
  - apply quiet_bind; [apply Hbody|]. intros _. exact IH.
Qed.

Lemma quiet_for_fold {A S} (xs : list A) (body : S -> A -> M R S) :
  (∀ s x, quiet (R:=R) P (body s x)) -> ∀ s, quiet (R:=R) P (for_fold xs s body).
Proof.
  intros Hbody. induction xs as [|x xs IH]; intros s; simpl.
  - apply quiet_ret.
  - apply quiet_bind; [apply Hbody|]. exact IH.
Qed.

Lemma quiet_try_except {A} (body : M R A) catches handler :
  quiet (R:=R) P body -> (∀ e, quiet (R:=R) P (handler e)) ->
  quiet (R:=R) P (try_except body catches handler).
Proof.
  intros Hb Hh w. unfold try_except.
  destruct (Hb w) as (l1 & Hl1 & Hp1 & Hi1 & Hf1).
  destruct (body w) as [[a|e] w1]; simpl in *.
  - by exists l1.
  - destruct (catches e); [|by exists l1].
    destruct (Hh e w1) as (l2 & Hl2 & Hp2 & Hi2 & Hf2).
    exists (l1 ++ l2). split; [by eapply new_calls_trans|].
    split; [by apply Forall_app|]. split; congruence.
Qed.

End Quiet.

Create HintDb quiet.

#[local] Hint Resolve quiet_ret quiet_raise quiet_exit quiet_lift quiet_print
  quiet_get_files quiet_client_credits quiet_bind quiet_for_each
  quiet_for_fold quiet_try_except : quiet.

Section MainIsQuiet.

Context {R : Type} `{Api : ImgurApi R}.

Lemma quiet_get_album (m : gmap (option string) Album) title url :
  quiet (R:=R) not_authorize (get_album m title url).
Proof.
  unfold get_album. destruct (m !! Some title); [apply quiet_ret|].
  apply quiet_bind; [by apply quiet_client_call|]. intros id.
  apply quiet_bind; [by apply quiet_client_call|]. intros album.
  apply quiet_ret.
Qed.

Lemma quiet_handle_png parent title url album png :
  quiet (R:=R) not_authorize (handle_png parent title url album png).
Proof.
  unfold handle_png. apply quiet_bind; [apply quiet_print|]. intros _.
  destruct (get_album_image album _); [apply quiet_ret|].
  apply quiet_bind; [by apply quiet_client_call|]. intros image.
  apply quiet_print.
Qed.

Lemma quiet_handle_group (parent : string) (m : gmap (option string) Album) group :
  quiet (R:=R) not_authorize (handle_group parent m group).
Proof.
  destruct group as [title pngs]. unfold handle_group.
  apply quiet_bind; [apply quiet_get_album|]. intros [album m1].
  repeat (apply quiet_bind; [apply quiet_print|]; intros _).
  apply quiet_bind; [|intros _; apply quiet_ret].
  apply quiet_for_each. intros png. apply quiet_handle_png.
Qed.

Lemma quiet_check_path path : quiet (R:=R) not_authorize (check_path path).
Proof.
  unfold check_path. apply quiet_bind; [apply quiet_get_files|]. intros fsys.
  destruct (negb _); [eauto with quiet|].
  destruct (negb _); eauto with quiet.
Qed.

Lemma quiet_main config path : quiet (R:=R) not_authorize (main config path).
Proof.
  unfold main. apply quiet_bind.
  - unfold prepare.
    do 4 (apply quiet_bind; [apply quiet_lift|]; intros ?).
    apply quiet_bind; [by apply quiet_client_call|]. intros _.
    apply quiet_bind; [apply quiet_check_path|]. intros _.
    apply quiet_bind; [apply quiet_get_files|]. intros fsys.
    do 2 (apply quiet_bind; [apply quiet_lift|]; intros ?).
    apply quiet_bind; [|intros ?; apply quiet_ret].
    unfold fetch_all_albums.
    apply quiet_bind; [by apply quiet_client_call|]. intros listing.
    apply quiet_for_fold. intros d album.
    apply quiet_bind; [by apply quiet_client_call|]. intros full.
    apply quiet_ret.
  - intros [[parent images] m]. unfold reconcile_guarded.
    apply quiet_try_except.
    + apply quiet_bind; [|intros ?; apply quiet_ret].
      unfold reconcile. apply quiet_for_fold. intros d g.
      apply quiet_handle_group.
    + intros e. unfold on_rate_limit. eauto with quiet.
Qed.

End MainIsQuiet.

(* ===================================================================== *)
(** * The entry point: tokens and the path check *)
(* ===================================================================== *)

Section Orchestration.

Context {R : Type} `{Api : ImgurApi R}.

Lemma tokens_present_iff config :
  tokens_present config = true <-> tokens_section_complete config.
Proof.
  unfold tokens_present, tokens_section_complete, Config.contains,
    Config.has_option, Config.has_section. simpl.
  destruct (cp_sections config !! TOKENS_SECTION) as [d|] eqn:Hd.
  - rewrite bool_decide_eq_true_2 by eauto. simpl.
    rewrite andb_true_iff, !orb_true_iff, !bool_decide_eq_true. split.
    + intros [Hr Ha]. by exists d.
    + intros (d' & [= <-] & Ha & Hr). done.
  - rewrite bool_decide_eq_false_2 by (by intros [? ?]). simpl.
    split; [done|]. by intros (d & ? & _).
Qed.

(** ** Auth Flow, by the answers of the service *)

(** The configuration Auth Flow works on: the given one, with the
    [tokens] section added when it is missing (lines 186-187). *)
Lemma auth_flow_request config id secret (w : World R) :
  Config.getitem config CLIENT_SECTION "id" = Ok id ->
  Config.getitem config CLIENT_SECTION "secret" = Ok secret ->
  ∃ c d,
    cp_sections c !! TOKENS_SECTION = Some d
    ∧ auth_flow config w = request_new_token c id secret w.
Proof.
  intros Hid Hsecret. unfold auth_flow.
  destruct (Config.contains config TOKENS_SECTION) eqn:Hcont; cbn [negb].
  - unfold Config.contains, Config.has_section in Hcont.
    change (String.eqb TOKENS_SECTION Config.default_section) with false in Hcont.
    cbn [orb] in Hcont. apply bool_decide_eq_true in Hcont as [d Hd].
    exists config, d. split; [done|].
    unfold lift. rewrite bind_run, Hid. cbn beta iota.
    by rewrite bind_run, Hsecret.
  - exists (Config.add_section config TOKENS_SECTION), ∅. split.
    + unfold Config.add_section. cbn [cp_sections]. apply lookup_insert_eq.
    + rewrite !getitem_add_section by done.
      unfold lift. rewrite bind_run, Hid. cbn beta iota.
      by rewrite bind_run, Hsecret.
Qed.

Lemma run_without_tokens config repo_dir (w : World R) :
  ¬ tokens_section_complete config ->
  run_with_tokens config repo_dir w
  = match auth_flow config w with
    | (Ok config', w') => main config' repo_dir w'
    | (Raise e, w') => (Raise e, w')
    end.
Proof.
  intros Hc. unfold run_with_tokens.
  destruct (tokens_present config) eqn:Hp; [by apply tokens_present_iff in Hp|].
  by rewrite bind_run.
Qed.

(** What a run does when the tokens are incomplete, by what the console
    and the service answer to Auth Flow. *)
Lemma run_through_auth_flow config repo_dir id secret (w : World R) :
  ¬ tokens_section_complete config ->
  Config.getitem config CLIENT_SECTION "id" = Ok id ->
  Config.getitem config CLIENT_SECTION "secret" = Ok secret ->
  let run := run_with_tokens config repo_dir w in
  (∃ l, new_calls w run.2 (NewClient id secret None None :: l))
  ∧ (∀ e r1,
       api_new_client id secret None None (remote w) = (Raise e, r1) ->
       run.1 = Raise e ∧ new_calls w run.2 [NewClient id secret None None])
  ∧ (∀ r1,
       api_new_client id secret None None (remote w) = (Ok tt, r1) ->
       stdin w = [] ->
       run.1 = Raise EOFError
       ∧ new_calls w run.2 [NewClient id secret None None])
  ∧ (∀ r1 pin rest e r2,
       api_new_client id secret None None (remote w) = (Ok tt, r1) ->
       stdin w = pin :: rest ->
       api_authorize pin "pin" r1 = (Raise e, r2) ->
       run.1 = Raise e
       ∧ new_calls w run.2 [NewClient id secret None None; Authorize pin "pin"]
       ∧ config_file run.2 = config_file w)
  ∧ (∀ r1 pin rest creds r2,
       api_new_client id secret None None (remote w) = (Ok tt, r1) ->
       stdin w = pin :: rest ->
       api_authorize pin "pin" r1 = (Ok creds, r2) ->
       ∃ config' w',
         auth_flow config w = (Ok config', w')
         ∧ run = main config' repo_dir w'
         ∧ new_calls w w' [NewClient id secret None None; Authorize pin "pin"]
         ∧ remote w' = r2
         ∧ stdin w' = rest
         ∧ config_file w' = Some config'
         ∧ Config.get config' TOKENS_SECTION "access" = Ok (access_token creds)
         ∧ Config.get config' TOKENS_SECTION "refresh"
           = Ok (refresh_token creds)).
Proof.
  intros Hinc Hid Hsecret run.
  destruct (auth_flow_request config id secret w Hid Hsecret) as (c & d & Hd & Hflow).
  pose proof (run_without_tokens config repo_dir w Hinc) as Hrun.
  fold run in Hrun. rewrite Hflow in Hrun.
  pose proof (request_new_token_steps c id secret w) as Hsteps.
  cbn zeta in Hsteps.
  split; [|split; [|split; [|split]]].
  - destruct (api_new_client id secret None None (remote w)) as [[[]|e] r1].
    2: { rewrite Hsteps in Hrun. rewrite Hrun. by exists []. }
    destruct (stdin w) as [|pin rest].
    { rewrite Hsteps in Hrun. rewrite Hrun. by exists []. }
    destruct (api_authorize pin "pin" r1) as [[creds|e] r2].
    2: { rewrite Hsteps in Hrun. rewrite Hrun. by exists [Authorize pin "pin"]. }
    destruct (set_tokens c d (access_token creds) (refresh_token creds) Hd)
      as (c1 & H1 & H2).
    rewrite H1, H2 in Hsteps. rewrite Hsteps in Hrun. rewrite Hrun.
    match goal with
    | |- context [main ?c' repo_dir ?w'] =>
        destruct (quiet_main c' repo_dir w') as (l & Hl & _)
    end.
    exists (Authorize pin "pin" :: l). unfold new_calls in *. rewrite Hl.
    cbn [calls]. by rewrite <- app_assoc.
  - intros e r1 Hc. rewrite Hc in Hsteps. rewrite Hsteps in Hrun.
    by rewrite Hrun.
  - intros r1 Hc Hin. rewrite Hc, Hin in Hsteps. rewrite Hsteps in Hrun.
    by rewrite Hrun.
  - intros r1 pin rest e r2 Hc Hin Ha. rewrite Hc, Hin, Ha in Hsteps.
    rewrite Hsteps in Hrun. by rewrite Hrun.
  - intros r1 pin rest creds r2 Hc Hin Ha.
    pose proof (request_new_token_ok c d id secret pin rest creds r1 r2 w
                  Hd Hin Hc Ha) as Hok.
    cbn zeta in Hok. rewrite Hok in Hrun.
    eexists _, _. split; [by rewrite Hflow, Hok|]. split; [exact Hrun|].
    split; [done|]. split; [done|]. split; [done|]. split; [done|].
    unfold Config.get. cbn [cp_sections cp_defaults].
    rewrite !lookup_insert_eq. rewrite lookup_insert_ne by done.
    by rewrite !lookup_insert_eq.
Qed.

(** C9: reconciliation runs at once, Auth Flow being skipped (no
    authorization call, nothing read from the console, the configuration
    file untouched), exactly when the configuration has a [tokens] section
    showing both the [access] and the [refresh] key; when the section is
    missing or lacks a key, be it the access key alone, Auth Flow runs
    first and reconciliation follows with the configuration it returns.
    After the checks of the client section and of the user, this choice is
    all the script does.  That Auth Flow runs first shows in the run: its
    first call builds the client without tokens; once the pin is read and
    the service has answered the authorization, reconciliation runs on the
    configuration holding the tokens just obtained, after exactly these
    two calls; and when the client, the console or the authorization
    fails, the run ends there, before reconciliation makes any call. *)
Theorem C9_auth_flow_iff_tokens_incomplete (config : ConfigParser)
  (repo_dir : string) (w : World R) :
  (tokens_present config = true <-> tokens_section_complete config)
  ∧ (tokens_section_complete config ->
     run_with_tokens config repo_dir w = main config repo_dir w
     ∧ ∃ l, new_calls w (run_with_tokens config repo_dir w).2 l
            ∧ List.filter is_authorize l = []
            ∧ stdin (run_with_tokens config repo_dir w).2 = stdin w
            ∧ config_file (run_with_tokens config repo_dir w).2 = config_file w)
  ∧ (¬ tokens_section_complete config ->
     run_with_tokens config repo_dir w
     = match auth_flow config w with
       | (Ok config', w') => main config' repo_dir w'
       | (Raise e, w') => (Raise e, w')
       end)
  ∧ (∀ argv,
       config_file w = Some config ->
       client_configured config ->
       script argv w
       = run_with_tokens config
           (default (PosixPath.abspath (fs_cwd (files w)) ".") argv) w)
  ∧ (∀ id secret,
       ¬ tokens_section_complete config ->
       Config.getitem config CLIENT_SECTION "id" = Ok id ->
       Config.getitem config CLIENT_SECTION "secret" = Ok secret ->
       let run := run_with_tokens config repo_dir w in
       (∃ l, new_calls w run.2 (NewClient id secret None None :: l))
       ∧ (∀ e r1,
            api_new_client id secret None None (remote w) = (Raise e, r1) ->
            run.1 = Raise e
            ∧ new_calls w run.2 [NewClient id secret None None])
       ∧ (∀ r1,
            api_new_client id secret None None (remote w) = (Ok tt, r1) ->
            stdin w = [] ->
            run.1 = Raise EOFError
            ∧ new_calls w run.2 [NewClient id secret None None])
       ∧ (∀ r1 pin rest e r2,
            api_new_client id secret None None (remote w) = (Ok tt, r1) ->
            stdin w = pin :: rest ->
            api_authorize pin "pin" r1 = (Raise e, r2) ->
            run.1 = Raise e
            ∧ new_calls w run.2
                [NewClient id secret None None; Authorize pin "pin"]
            ∧ config_file run.2 = config_file w)
       ∧ (∀ r1 pin rest creds r2,
            api_new_client id secret None None (remote w) = (Ok tt, r1) ->
            stdin w = pin :: rest ->
            api_authorize pin "pin" r1 = (Ok creds, r2) ->
            ∃ config' w',
              auth_flow config w = (Ok config', w')
              ∧ run = main config' repo_dir w'
              ∧ new_calls w w'
                  [NewClient id secret None None; Authorize pin "pin"]
              ∧ remote w' = r2
              ∧ stdin w' = rest
              ∧ config_file w' = Some config'
              ∧ Config.get config' TOKENS_SECTION "access"
                = Ok (access_token creds)
              ∧ Config.get config' TOKENS_SECTION "refresh"
                = Ok (refresh_token creds))).
Proof.
  pose proof (tokens_present_iff config) as Hiff.
  split; [done|]. split; [|split; [|split]].
  - intros Hc. apply Hiff in Hc. unfold run_with_tokens. rewrite Hc.
    split; [done|].
    destruct (quiet_main config repo_dir w) as (l & Hl & Hp & Hi & Hf).
    exists l. split; [done|]. split; [|done].
    clear Hl. induction Hp as [|c l Hc' _ IH]; [done|].
    simpl. unfold not_authorize in Hc'. by rewrite Hc'.
  - apply run_without_tokens.
  - intros argv Hfile (Hclient & Hid & Hsecret & user & Huser).
    unfold script, get_files, config_read.
    rewrite bind_run. simpl. rewrite bind_run. simpl.
    rewrite Hfile. simpl. rewrite Hclient, Hid, Hsecret, Huser. done.
  - intros id secret. apply run_through_auth_flow.
Qed.

(** Auth Flow returns only after its two calls. *)
Lemma auth_flow_ok_calls config config' (w w' : World R) :
  auth_flow config w = (Ok config', w') ->
  ∃ id secret pin,
    new_calls w w' [NewClient id secret None None; Authorize pin "pin"].
Proof.
  unfold auth_flow. set (c := if negb _ then _ else _). clearbody c.
  unfold lift. rewrite bind_run.
  destruct (Config.getitem c CLIENT_SECTION "id") as [id|e]; [|done].
  simpl. rewrite bind_run.
  destruct (Config.getitem c CLIENT_SECTION "secret") as [secret|e]; [|done].
  simpl. unfold request_new_token, ImgurClient, client_authorize, client_call,
    input, lift, config_write, print, ret.
  rewrite bind_run.
  destruct (api_new_client id secret None None (remote w)) as [[[]|e] r1];
    [|done].
  simpl. rewrite bind_run. destruct (stdin w) as [|pin rest]; [done|].
  simpl. rewrite bind_run. simpl.
  destruct (api_authorize pin "pin" r1) as [[creds|e] r2]; [|done].
  simpl. rewrite bind_run.
  destruct (Config.set c TOKENS_SECTION "access" _) as [c1|e]; [|done].
  simpl. rewrite bind_run.
  destruct (Config.set c1 TOKENS_SECTION "refresh" _) as [c2|e]; [|done].
  simpl. do 2 (rewrite bind_run; simpl).
  intros [= <- <-]. exists id, secret, pin. unfold new_calls. simpl.
  by rewrite <- app_assoc.
Qed.

(** A path that fails the check stops [main] right after the client is
    built. *)
Lemma main_bad_path config path id secret access refresh r1 (w : World R) :
  Config.get config CLIENT_SECTION "id" = Ok id ->
  Config.get config CLIENT_SECTION "secret" = Ok secret ->
  Config.get config TOKENS_SECTION "access" = Ok access ->
  Config.get config TOKENS_SECTION "refresh" = Ok refresh ->
  api_new_client id secret (Some access) (Some refresh) (remote w) = (Ok tt, r1) ->
  bad_path (files w) path ->
  main config path w
  = (Raise (SystemExit 1),
     {| remote := r1;
        calls := calls w ++ [NewClient id secret (Some access) (Some refresh)];
        stdout := stdout w ++
                    [if String.eqb (PosixPath.basename path) REPO_DIR
                     then not_a_directory_line path
                     else wrong_name_line path];
        stdin := stdin w; config_file := config_file w; files := files w |}).
Proof.
  intros Hid Hsecret Haccess Hrefresh Hc Hbad.
  unfold main. rewrite bind_run.
  unfold prepare, lift, ImgurClient, client_call.
  rewrite bind_run, Hid; cbn beta iota.
  rewrite bind_run, Hsecret; cbn beta iota.
  rewrite bind_run, Haccess; cbn beta iota.
  rewrite bind_run, Hrefresh; cbn beta iota.
  rewrite bind_run, Hc; cbn beta iota.
  unfold check_path, get_files. rewrite bind_run. rewrite bind_run.
  cbn beta iota.
  destruct (String.eqb_spec (PosixPath.basename path) REPO_DIR) as [He|Hne];
    cbn [negb files].
  - destruct Hbad as [Hb|Hb]; [done|]. by rewrite Hb.
  - done.
Qed.

(** C5, as the script has it: a path whose last segment is not [lnxpcs], or
    which is no existing directory, makes [main] print the diagnostic and
    exit with status 1 as soon as its client is built, without any album
    listing, album fetch, album creation or upload.  The check belongs to
    [main]: with tokens missing, Auth Flow has run before it, and its calls
    (the pin exchange among them) have been made. *)
Theorem C5_bad_path_exits_after_client (config : ConfigParser)
  (path id secret access refresh : string) (r1 : R) (w : World R) :
  Config.get config CLIENT_SECTION "id" = Ok id ->
  Config.get config CLIENT_SECTION "secret" = Ok secret ->
  Config.get config TOKENS_SECTION "access" = Ok access ->
  Config.get config TOKENS_SECTION "refresh" = Ok refresh ->
  api_new_client id secret (Some access) (Some refresh) (remote w) = (Ok tt, r1) ->
  bad_path (files w) path ->
  let w' := (main config path w).2 in
  (main config path w).1 = Raise (SystemExit 1)
  ∧ exit_status (main config path w).1 = 1%Z
  ∧ new_calls w w' [NewClient id secret (Some access) (Some refresh)]
  ∧ (new_lines w w' [wrong_name_line path]
     ∨ new_lines w w' [not_a_directory_line path])
  ∧ (∀ config0 (w0 : World R),
       tokens_present config0 = false ->
       auth_flow config0 w0 = (Ok config, w) ->
       run_with_tokens config0 path w0 = main config path w
       ∧ ∃ id0 secret0 pin,
           new_calls w0 w'
             [NewClient id0 secret0 None None; Authorize pin "pin";
              NewClient id secret (Some access) (Some refresh)]).
Proof.
  intros Hid Hsecret Haccess Hrefresh Hc Hbad w'. subst w'.
  rewrite (main_bad_path config path id secret access refresh r1 w) by done.
  simpl. split; [done|]. split; [done|]. split; [done|]. split.
  - unfold new_lines. simpl.
    destruct (String.eqb _ _); [by right|by left].
  - intros config0 w0 Hp Ha. unfold run_with_tokens.
    rewrite Hp, bind_run, Ha.
    rewrite (main_bad_path config path id secret access refresh r1 w) by done.
    split; [done|].
    destruct (auth_flow_ok_calls _ _ _ _ Ha) as (id0 & secret0 & pin & Hcalls).
    exists id0, secret0, pin. unfold new_calls in *. simpl.
    by rewrite Hcalls, <- app_assoc.
Qed.

End Orchestration.

(* ===================================================================== *)
(** * A path with a trailing separator *)
(* ===================================================================== *)

Section TrailingSeparator.

Context {R : Type} `{Api : ImgurApi R}.

Lemma rfind_from_trailing (c : ascii) (s : string) :
  PyStr.endswith s (String c "") = true ->
  ∀ i last,
    PyStr.rfind_from c s i last = (i + Z.of_nat (String.length s) - 1)%Z.
Proof.
  induction s as [|d s IH]; intros Hend i last.
  - discriminate.
  - cbn [PyStr.endswith] in Hend. cbn [PyStr.rfind_from String.length].
    destruct (String.eqb_spec (String d s) (String c "")) as [[= -> ->]|Hne].
    + rewrite Ascii.eqb_refl. simpl. lia.
    + rewrite (IH Hend). lia.
Qed.

Lemma drop_all (s : string) : PyStr.drop (String.length s) s = "".
Proof. induction s as [|c s IH]; simpl; done. Qed.

Lemma basename_trailing_sep (path : string) :
  PyStr.endswith path "/" = true -> PosixPath.basename path = "".
Proof.
  intros Hend. unfold PosixPath.basename, PyStr.rfind.
  rewrite (rfind_from_trailing PosixPath.sep path Hend).
  replace (Z.to_nat (0 + Z.of_nat (String.length path) - 1 + 1))
    with (String.length path) by lia.
  apply drop_all.
Qed.

(** C10: for a path ending with the separator the last-segment check sees
    an empty base name, so that [main], once its client is built, prints
    the wrong-name diagnostic and exits with status 1, whatever the path
    denotes, an existing directory named [lnxpcs] included. *)
Theorem C10_trailing_separator_rejected (path : string)
  (config : ConfigParser) (id secret access refresh : string) (r1 : R)
  (w : World R) :
  PyStr.endswith path "/" = true ->
  Config.get config CLIENT_SECTION "id" = Ok id ->
  Config.get config CLIENT_SECTION "secret" = Ok secret ->
  Config.get config TOKENS_SECTION "access" = Ok access ->
  Config.get config TOKENS_SECTION "refresh" = Ok refresh ->
  api_new_client id secret (Some access) (Some refresh) (remote w) = (Ok tt, r1) ->
  PosixPath.basename path = ""
  ∧ main config path w
    = (Raise (SystemExit 1),
       {| remote := r1;
          calls := calls w ++ [NewClient id secret (Some access) (Some refresh)];
          stdout := stdout w ++ [wrong_name_line path];
          stdin := stdin w; config_file := config_file w; files := files w |})
  ∧ exit_status (main config path w).1 = 1%Z.
Proof.
  intros Hend Hid Hsecret Haccess Hrefresh Hc.
  pose proof (basename_trailing_sep path Hend) as Hb.
  assert (bad_path (files w) path) as Hbad.
  { left. by rewrite Hb. }
  rewrite (main_bad_path config path id secret access refresh r1 w) by done.
  by rewrite Hb.
Qed.

End TrailingSeparator.

(* ===================================================================== *)
(** * Paths: [split], [join], [normpath] and [relpath] *)
(* ===================================================================== *)

Module PathFacts.

#[local] Arguments String.append !_ _ / : simpl nomatch.

Abbreviation slash_free := (λ x : string, has_char PosixPath.sep x = false).

Lemma split_nonempty c s : ∃ x xs, PyStr.split c s = x :: xs.
Proof.
  induction s as [|d s IH]; simpl; [eauto|].
  destruct (Ascii.eqb d c); [eauto|].
  destruct IH as (x & xs & ->). eauto.
Qed.

Lemma split_app_sep c a b :
  PyStr.split c (a +:+ String c b) = PyStr.split c a ++ PyStr.split c b.
Proof.
  induction a as [|d a IH]; simpl.
  - by rewrite Ascii.eqb_refl.
  - destruct (Ascii.eqb d c); [by rewrite IH|].
    rewrite IH. by destruct (split_nonempty c a) as (x & xs & ->).
Qed.

Lemma split_free c x : has_char c x = false -> PyStr.split c x = [x].
Proof.
  induction x as [|d x IH]; simpl; [done|].
  intros H. apply orb_false_iff in H as [-> H]. by rewrite (IH H).
Qed.

Lemma split_all_free c s : Forall (λ x, has_char c x = false) (PyStr.split c s).
Proof.
  induction s as [|d s IH]; simpl; [by repeat constructor|].
  destruct (Ascii.eqb d c) eqn:E; [by constructor|].
  destruct (PyStr.split c s) as [|x xs].
  - constructor; [|done]. simpl. by rewrite E.
  - inversion IH as [|? ? Hx Hxs]; subst. constructor; [|done].
    simpl. by rewrite E.
Qed.

Lemma split_join xs :
  xs ≠ [] -> Forall slash_free xs ->
  PyStr.split PosixPath.sep (PyStr.join "/" xs) = xs.
Proof.
  induction xs as [|x xs IH]; [done|]. intros _ Hall.
  inversion Hall as [|? ? Hx Hxs]; subst.
  destruct xs as [|y xs].
  - simpl. by apply split_free.
  - change (PyStr.join "/" (x :: y :: xs))
      with (x +:+ String PosixPath.sep (PyStr.join "/" (y :: xs))).
    rewrite split_app_sep, (split_free _ x Hx), IH; done.
Qed.

Lemma join_cons x y xs :
  PyStr.join "/" (x :: y :: xs) = x +:+ "/" +:+ PyStr.join "/" (y :: xs).
Proof. reflexivity. Qed.

Lemma endswith_sep a :
  PyStr.endswith a "/" = true -> ∃ a', a = a' +:+ "/".
Proof.
  induction a as [|d a IH]; [done|]. cbn [PyStr.endswith].
  destruct (String.eqb_spec (String d a) "/") as [->|Hne].
  - by exists "".
  - intros H. destruct (IH H) as [a' ->]. by exists (String d a').
Qed.

Lemma endswith_app a b s :
  b ≠ "" -> String.length s = 1 ->
  PyStr.endswith (a +:+ b) s = PyStr.endswith b s.
Proof.
  intros Hb Hs. induction a as [|d a IH]; [done|].
  cbn [String.append PyStr.endswith]. rewrite IH.
  destruct (String.eqb_spec (String d (a +:+ b)) s) as [<-|Hne]; [|done].
  exfalso. simpl in Hs. injection Hs as Hs.
  rewrite StrFacts.length_app in Hs. destruct b; [done|]. simpl in Hs. lia.
Qed.

Lemma prefix_empty s : String.prefix "" s = true.
Proof. by destruct s. Qed.

Lemma startswith_cons d s :
  PyStr.startswith (String d s) "/" = Ascii.eqb d PosixPath.sep.
Proof.
  unfold PyStr.startswith. cbn [String.prefix].
  destruct (ascii_dec "/" d) as [<-|Hne].
  - by rewrite prefix_empty.
  - symmetry. apply Ascii.eqb_neq. unfold PosixPath.sep. congruence.
Qed.

Lemma startswith_free name :
  has_char PosixPath.sep name = false -> PyStr.startswith name "/" = false.
Proof.
  destruct name as [|d name]; [done|]. rewrite startswith_cons.
  cbn [has_char]. intros H. by apply orb_false_iff in H as [H _].
Qed.

Lemma startswith_app a b :
  PyStr.startswith a "/" = true -> PyStr.startswith (a +:+ b) "/" = true.
Proof.
  destruct a as [|d a]; [done|]. cbn [String.append].
  by rewrite !startswith_cons.
Qed.

Lemma startswith_app_nonempty a b :
  a ≠ "" -> PyStr.startswith (a +:+ b) "/" = PyStr.startswith a "/".
Proof.
  destruct a as [|d a]; [done|]. cbn [String.append].
  by rewrite !startswith_cons.
Qed.

(** The join of a path and a plain name: the name becomes the last
    component. *)
Lemma join_split a name :
  slash_free name ->
  ∃ xs, PyStr.split PosixPath.sep (PosixPath.join a name) = xs ++ [name]
        ∧ (PyStr.split PosixPath.sep a = xs
           ∨ PyStr.split PosixPath.sep a = xs ++ [""]).
Proof.
  intros Hfree. unfold PosixPath.join. rewrite (startswith_free _ Hfree).
  destruct (String.eqb_spec a "") as [->|Hne]; cbn [orb].
  - exists []. change ("" +:+ name) with name.
    rewrite (split_free _ _ Hfree). split; [done|by right].
  - destruct (PyStr.endswith a "/") eqn:Hend.
    + apply endswith_sep in Hend as [a' ->]. exists (PyStr.split PosixPath.sep a').
      rewrite StrFacts.app_assoc.
      change ("/" +:+ name) with (String PosixPath.sep name).
      change (a' +:+ "/") with (a' +:+ String PosixPath.sep "").
      rewrite !split_app_sep, (split_free _ _ Hfree). split; [done|by right].
    + exists (PyStr.split PosixPath.sep a).
      change ("/" +:+ name) with (String PosixPath.sep name).
      rewrite split_app_sep, (split_free _ _ Hfree). split; [done|by left].
Qed.

Lemma join_nonempty a name : name ≠ "" -> PosixPath.join a name ≠ "".
Proof.
  intros Hn. unfold PosixPath.join.
  destruct (PyStr.startswith name "/"); [done|].
  destruct (_ || _); intros H; apply (f_equal String.length) in H;
    rewrite !StrFacts.length_app in H; destruct name; simpl in *; try done; lia.
Qed.

(** ** [normpath] on a path extended by a name *)

Lemma valid_name_spec name :
  valid_name name = true ->
  name ≠ "" ∧ name ≠ "." ∧ name ≠ ".." ∧ slash_free name.
Proof.
  unfold valid_name. rewrite !andb_true_iff, !negb_true_iff.
  intros [[[H1 H2] H3] H4].
  apply String.eqb_neq in H1, H2, H3. done.
Qed.

Lemma norm_comps_snoc_name abs name xs :
  valid_name name = true ->
  ∀ acc, PosixPath.norm_comps abs acc (xs ++ [name])
         = PosixPath.norm_comps abs acc xs ++ [name].
Proof.
  intros Hv. apply valid_name_spec in Hv as (H1 & H2 & H3 & _).
  apply String.eqb_neq in H1, H2, H3.
  induction xs as [|x xs IH]; intros acc.
  - cbn [app PosixPath.norm_comps]. rewrite H1, H2, H3. by cbn.
  - cbn [app PosixPath.norm_comps].
    destruct (_ || _); [apply IH|].
    destruct (_ || _); [apply IH|].
    destruct acc; apply IH.
Qed.

Lemma norm_comps_snoc_empty abs xs :
  ∀ acc, PosixPath.norm_comps abs acc (xs ++ [""])
         = PosixPath.norm_comps abs acc xs.
Proof.
  induction xs as [|x xs IH]; intros acc.
  - done.
  - cbn [app PosixPath.norm_comps].
    destruct (_ || _); [apply IH|].
    destruct (_ || _); [apply IH|].
    destruct acc; apply IH.
Qed.

Abbreviation clean := (λ x : string, x ≠ "" ∧ slash_free x).

Lemma norm_comps_clean abs xs :
  Forall slash_free xs ->
  ∀ acc, Forall clean acc -> Forall clean (PosixPath.norm_comps abs acc xs).
Proof.
  induction 1 as [|x xs Hx Hxs IH]; intros acc Hacc.
  - cbn. by apply Forall_rev.
  - cbn [PosixPath.norm_comps].
    destruct (String.eqb_spec x "") as [->|Hne]; cbn [orb]; [by apply IH|].
    destruct (String.eqb x "."); [by apply IH|].
    destruct (_ || _).
    + apply IH. by constructor.
    + destruct acc as [|y acc]; apply IH; [done|].
      by inversion Hacc.
Qed.

Lemma filter_nonempty_slashes n s :
  List.filter (λ x, negb (String.eqb x ""))
    (PyStr.split PosixPath.sep (PosixPath.slashes n +:+ s))
  = List.filter (λ x, negb (String.eqb x "")) (PyStr.split PosixPath.sep s).
Proof.
  induction n as [|n IH]; [done|].
  cbn [PosixPath.slashes String.append PyStr.split].
  by rewrite Ascii.eqb_refl.
Qed.

Lemma filter_nonempty_clean comps :
  Forall clean comps ->
  List.filter (λ x, negb (String.eqb x "")) comps = comps.
Proof.
  induction 1 as [|x xs [Hx _] _ IH]; [done|]. cbn [List.filter].
  apply String.eqb_neq in Hx. rewrite Hx. cbn. by rewrite IH.
Qed.

Lemma filter_nonempty_split_join comps :
  Forall clean comps ->
  List.filter (λ x, negb (String.eqb x ""))
    (PyStr.split PosixPath.sep (PyStr.join "/" comps))
  = comps.
Proof.
  intros Hc. destruct comps as [|x xs]; [done|].
  rewrite split_join; [by apply filter_nonempty_clean|done|].
  eapply Forall_impl; [exact Hc|]. by intros y [_ ?].
Qed.

Lemma normpath_absolute p :
  PyStr.startswith p "/" = true ->
  List.filter (λ x, negb (String.eqb x ""))
    (PyStr.split PosixPath.sep (PosixPath.normpath p))
  = PosixPath.norm_comps true [] (PyStr.split PosixPath.sep p).
Proof.
  intros Habs. unfold PosixPath.normpath.
  destruct p as [|d p]; [done|].
  set (n := PosixPath.initial_slashes (String d p)).
  assert (∃ k, n = S k) as [k Hk].
  { unfold n, PosixPath.initial_slashes. rewrite Habs.
    destruct (_ && _); eauto. }
  rewrite Hk. cbn [Nat.eqb negb].
  set (comps := PosixPath.norm_comps true [] _).
  assert (Forall clean comps) as Hclean.
  { apply norm_comps_clean; [apply split_all_free|done]. }
  cbn [PosixPath.slashes String.append].
  change (String PosixPath.sep (PosixPath.slashes k +:+ PyStr.join "/" comps))
    with (PosixPath.slashes (S k) +:+ PyStr.join "/" comps).
  rewrite filter_nonempty_slashes. by apply filter_nonempty_split_join.
Qed.

Lemma absolutize_absolute cwd p :
  PyStr.startswith cwd "/" = true ->
  PyStr.startswith (absolutize cwd p) "/" = true.
Proof.
  intros Hcwd. unfold absolutize, PosixPath.isabs.
  destruct (PyStr.startswith p "/") eqn:Hp; [done|].
  unfold PosixPath.join. rewrite Hp.
  destruct (_ || _); by apply startswith_app.
Qed.

Lemma abs_comps_norm cwd p :
  PyStr.startswith cwd "/" = true ->
  PosixPath.abs_comps cwd p
  = PosixPath.norm_comps true [] (PyStr.split PosixPath.sep (absolutize cwd p)).
Proof.
  intros Hcwd. unfold PosixPath.abs_comps.
  replace (PosixPath.abspath cwd p) with (PosixPath.normpath (absolutize cwd p)).
  - apply normpath_absolute. by apply absolutize_absolute.
  - unfold PosixPath.abspath, absolutize. by destruct (PosixPath.isabs p).
Qed.

(** ** Joining on an absolute path *)

Lemma eqb_app_nonempty a b : b ≠ "" -> String.eqb (a +:+ b) "" = false.
Proof.
  intros Hb. apply String.eqb_neq. intros H.
  apply (f_equal String.length) in H. rewrite StrFacts.length_app in H.
  destruct b; [done|]. simpl in H. lia.
Qed.

Lemma join_ends a b :
  a ≠ "" -> PyStr.startswith b "/" = false ->
  String.eqb (PosixPath.join a b) "" || PyStr.endswith (PosixPath.join a b) "/"
  = String.eqb b "" || PyStr.endswith b "/".
Proof.
  intros Ha Hb. unfold PosixPath.join. rewrite Hb.
  apply String.eqb_neq in Ha. rewrite Ha. cbn [orb].
  destruct (String.eqb_spec b "") as [->|Hne]; cbn [orb].
  - destruct (PyStr.endswith a "/") eqn:Hend.
    + rewrite StrFacts.app_nil_r, Hend. apply orb_true_r.
    + rewrite (endswith_app a ("/" +:+ "")) by done. apply orb_true_r.
  - destruct (PyStr.endswith a "/").
    + rewrite eqb_app_nonempty by done. by rewrite endswith_app.
    + rewrite eqb_app_nonempty by (by destruct b).
      rewrite (endswith_app a ("/" +:+ b)) by done.
      by rewrite (endswith_app "/" b).
Qed.

Lemma join_relative p name :
  PyStr.startswith p "/" = false -> slash_free name ->
  PyStr.startswith (PosixPath.join p name) "/" = false.
Proof.
  intros Hp Hfree. pose proof (startswith_free _ Hfree) as Hn.
  unfold PosixPath.join. rewrite Hn.
  destruct (String.eqb_spec p "") as [->|Hne]; cbn [orb]; [done|].
  destruct (PyStr.endswith p "/"); by rewrite startswith_app_nonempty.
Qed.

Lemma join_assoc a p name :
  a ≠ "" -> PyStr.startswith p "/" = false -> slash_free name ->
  PosixPath.join a (PosixPath.join p name)
  = PosixPath.join (PosixPath.join a p) name.
Proof.
  intros Ha Hp Hfree. pose proof (startswith_free _ Hfree) as Hn.
  pose proof (join_ends a p Ha Hp) as Hends.
  unfold PosixPath.join at 1 3. rewrite (join_relative p name Hp Hfree), Hn, Hends.
  unfold PosixPath.join. rewrite Hp, Hn.
  destruct (String.eqb a "" || PyStr.endswith a "/");
    destruct (String.eqb p "" || PyStr.endswith p "/");
    by rewrite ?StrFacts.app_assoc.
Qed.

Lemma absolutize_join cwd p name :
  PyStr.startswith cwd "/" = true -> slash_free name ->
  absolutize cwd (PosixPath.join p name)
  = PosixPath.join (absolutize cwd p) name.
Proof.
  intros Hcwd Hfree. pose proof (startswith_free _ Hfree) as Hn.
  unfold absolutize, PosixPath.isabs.
  destruct (PyStr.startswith p "/") eqn:Hp.
  - replace (PyStr.startswith (PosixPath.join p name) "/") with true; [done|].
    symmetry. unfold PosixPath.join. rewrite Hn.
    destruct (_ || _); by apply startswith_app.
  - rewrite (join_relative p name Hp Hfree).
    apply join_assoc; [by destruct cwd|done|done].
Qed.

Lemma abs_comps_join cwd p name :
  PyStr.startswith cwd "/" = true -> valid_name name = true ->
  PosixPath.abs_comps cwd (PosixPath.join p name)
  = PosixPath.abs_comps cwd p ++ [name].
Proof.
  intros Hcwd Hv. pose proof (valid_name_spec _ Hv) as (_ & _ & _ & Hfree).
  rewrite !abs_comps_norm by done. rewrite absolutize_join by done.
  destruct (join_split (absolutize cwd p) name Hfree) as (xs & -> & [->| ->]).
  - by apply norm_comps_snoc_name.
  - rewrite norm_comps_snoc_empty. by apply norm_comps_snoc_name.
Qed.

Lemma abs_comps_path_of cwd ds :
  PyStr.startswith cwd "/" = true -> Forall (λ d, valid_name d = true) ds ->
  ∀ top, PosixPath.abs_comps cwd (path_of top ds)
         = PosixPath.abs_comps cwd top ++ ds.
Proof.
  intros Hcwd. induction 1 as [|d ds Hd Hds IH]; intros top.
  - by rewrite app_nil_r.
  - cbn [path_of fold_left]. fold (path_of (PosixPath.join top d) ds).
    rewrite IH, abs_comps_join by done. by rewrite <- app_assoc.
Qed.

Lemma path_of_nonempty ds :
  Forall (λ d, valid_name d = true) ds ->
  ∀ top, top ≠ "" -> path_of top ds ≠ "".
Proof.
  induction 1 as [|d ds Hd Hds IH]; intros top Htop; [done|].
  cbn [path_of fold_left]. apply IH. apply join_nonempty.
  by apply valid_name_spec in Hd as [? _].
Qed.

Lemma has_char_app c a b :
  has_char c (a +:+ b) = has_char c a || has_char c b.
Proof.
  induction a as [|d a IH]; [done|]. cbn [String.append has_char].
  by rewrite IH, orb_assoc.
Qed.

Lemma endswith_free d : slash_free d -> PyStr.endswith d "/" = false.
Proof.
  intros Hfree. destruct (PyStr.endswith d "/") eqn:Hend; [|done].
  apply endswith_sep in Hend as [d' ->].
  rewrite has_char_app in Hfree. cbn in Hfree.
  by rewrite orb_true_r in Hfree.
Qed.

Lemma join_head_app a x xs :
  PyStr.join "/" ((a +:+ "/" +:+ x) :: xs)
  = a +:+ "/" +:+ PyStr.join "/" (x :: xs).
Proof.
  destruct xs as [|y xs]; [done|].
  rewrite !join_cons. by rewrite !StrFacts.app_assoc.
Qed.

(** Joining plain names one after the other puts a separator between
    them. *)
Lemma join_all_plain ds :
  Forall (λ d, valid_name d = true) ds ->
  ∀ a, a ≠ "" -> PyStr.endswith a "/" = false ->
       PosixPath.join_all a ds = PyStr.join "/" (a :: ds).
Proof.
  induction 1 as [|d ds Hd _ IH]; intros a Ha Hend; [done|].
  apply valid_name_spec in Hd as (Hne & _ & _ & Hfree).
  cbn [PosixPath.join_all fold_left]. fold (PosixPath.join_all (PosixPath.join a d) ds).
  assert (PosixPath.join a d = a +:+ "/" +:+ d) as ->.
  { unfold PosixPath.join. rewrite (startswith_free _ Hfree), Hend.
    apply String.eqb_neq in Ha. by rewrite Ha. }
  rewrite IH.
  - apply join_head_app.
  - intros H. apply (f_equal String.length) in H.
    rewrite StrFacts.length_app in H. simpl in H. lia.
  - rewrite (endswith_app a ("/" +:+ d)) by done.
    rewrite (endswith_app "/" d) by done. by apply endswith_free.
Qed.

Lemma common_prefix_len_app xs ys :
  PosixPath.common_prefix_len xs (xs ++ ys) = length xs.
Proof.
  induction xs as [|x xs IH]; [by destruct ys|].
  cbn. by rewrite String.eqb_refl, IH.
Qed.

(** What [relpath] answers for a directory reached below
    [root_dir/lnxpcs]. *)
Lemma relpath_under cwd root_dir ds :
  PyStr.startswith cwd "/" = true -> Forall (λ d, valid_name d = true) ds ->
  PosixPath.relpath cwd (path_of (PosixPath.join root_dir REPO_DIR) ds) root_dir
  = Some (rel_path ds).
Proof.
  intros Hcwd Hds. unfold PosixPath.relpath.
  destruct (path_of _ ds) as [|c rest] eqn:Hpath.
  { exfalso. revert Hpath. apply path_of_nonempty; [done|].
    by apply join_nonempty. }
  rewrite <- Hpath. rewrite abs_comps_path_of, abs_comps_join by done.
  rewrite <- app_assoc, common_prefix_len_app, Nat.sub_diag.
  rewrite drop_app_length. cbn [repeat app].
  by rewrite join_all_plain.
Qed.

End PathFacts.

(* ===================================================================== *)
(** * The directory tree and [os.walk] *)
(* ===================================================================== *)

Module TreeFacts.

Lemma fsnode_nested_ind (P : fsnode -> Prop) :
  P FFile ->
  (∀ es, Forall (λ e, P (snd e)) es -> P (FDir es)) ->
  ∀ n, P n.
Proof.
  intros HFile HDir. fix IH 1. intros [|es].
  - exact HFile.
  - apply HDir. induction es as [|e es IHes].
    + constructor.
    + constructor; [apply IH|exact IHes].
Qed.

Lemma wf_dir es :
  wf_node (FDir es) = true ->
  NoDup (map fst es)
  ∧ Forall (λ e, valid_name (fst e) = true ∧ wf_node (snd e) = true) es.
Proof.
  cbn [wf_node]. rewrite andb_true_iff, bool_decide_eq_true.
  intros [Hnd Hall]. split; [done|].
  rewrite forallb_forall in Hall. apply Forall_forall. intros e He.
  apply list_elem_of_In, Hall, andb_true_iff in He. done.
Qed.

Lemma lookup_entry_Some name child es :
  OS.lookup_entry name es = Some child -> (name, child) ∈ es.
Proof.
  induction es as [|[n c] es IH]; [done|]. cbn [OS.lookup_entry].
  destruct (String.eqb_spec n name) as [->|Hne].
  - intros [= ->]. left.
  - intros H. right. by apply IH.
Qed.

Lemma lookup_entry_unique name child es :
  NoDup (map fst es) -> (name, child) ∈ es ->
  OS.lookup_entry name es = Some child.
Proof.
  induction es as [|[n c] es IH]; intros Hnd Hin.
  - by apply elem_of_nil in Hin.
  - cbn [OS.lookup_entry]. cbn in Hnd. apply NoDup_cons in Hnd as [Hn Hnd].
    apply elem_of_cons in Hin as [[= -> ->]|Hin].
    + by rewrite String.eqb_refl.
    + destruct (String.eqb_spec n name) as [->|Hne]; [|by apply IH].
      exfalso. apply Hn. apply list_elem_of_fmap. by exists (name, child).
Qed.

(** [os.walk] visits the directories below its start, each under the path
    built from the names leading to it. *)
Lemma walk_node_dirs_under n :
  ∀ top,
    OS.walk_node top n
    = map (λ d, (path_of top (fst d), OS.dirnames (snd d), OS.filenames (snd d)))
        (dirs_under n).
Proof.
  induction n as [|es IH] using fsnode_nested_ind; intros top; [done|].
  cbn [OS.walk_node dirs_under map fst snd path_of fold_left]. f_equal.
  induction IH as [|[name child] es Hchild _ IHes]; [done|].
  cbn [flat_map fst snd]. rewrite map_app, <- IHes. f_equal.
  rewrite map_map. cbn [fst snd path_of fold_left].
  destruct child as [|ces]; [done|]. cbn [OS.is_dir]. apply Hchild.
Qed.

Lemma dirs_under_elem ds es' n :
  (ds, es') ∈ dirs_under n ->
  match n with
  | FFile => False
  | FDir es =>
      ds = [] ∧ es' = es
      ∨ ∃ name child ds', ds = name :: ds' ∧ (name, child) ∈ es
                          ∧ (ds', es') ∈ dirs_under child
  end.
Proof.
  destruct n as [|es]; cbn [dirs_under].
  - intros H. by apply elem_of_nil in H.
  - intros H. apply elem_of_cons in H as [[= -> ->]|H]; [by left|]. right.
    apply list_elem_of_In, in_flat_map in H as ([name child] & He & Hd).
    apply in_map_iff in Hd as ([ds' es''] & [= <- <-] & Hd).
    exists name, child, ds'. split; [done|].
    split; by apply list_elem_of_In.
Qed.

Lemma dirs_under_intro name child ds' es' es :
  (name, child) ∈ es -> (ds', es') ∈ dirs_under child ->
  (name :: ds', es') ∈ dirs_under (FDir es).
Proof.
  intros He Hd. cbn [dirs_under]. right.
  apply list_elem_of_In, in_flat_map. exists (name, child).
  split; [by apply list_elem_of_In|].
  apply in_map_iff. exists (ds', es'). split; [done|by apply list_elem_of_In].
Qed.

Lemma subdir_dirs_under n :
  ∀ ds es', subdir n ds = Some (FDir es') -> (ds, es') ∈ dirs_under n.
Proof.
  induction n as [|es IH] using fsnode_nested_ind; intros ds es' Hs.
  - destruct ds; done.
  - destruct ds as [|d ds]; cbn [subdir] in Hs.
    + injection Hs as <-. left.
    + destruct (OS.lookup_entry d es) as [child|] eqn:Hl; [|done].
      apply lookup_entry_Some in Hl.
      apply (dirs_under_intro d child); [done|].
      rewrite Forall_forall in IH. by apply (IH (d, child)).
Qed.

Lemma dirs_under_subdir n :
  wf_node n = true ->
  ∀ ds es', (ds, es') ∈ dirs_under n ->
            subdir n ds = Some (FDir es') ∧ Forall (λ d, valid_name d = true) ds.
Proof.
  induction n as [|es IH] using fsnode_nested_ind; intros Hwf ds es' Hin.
  - by apply elem_of_nil in Hin.
  - apply wf_dir in Hwf as [Hnd Hall].
    apply dirs_under_elem in Hin as [[-> ->]|(name & child & ds' & -> & He & Hd)].
    + done.
    + rewrite Forall_forall in IH, Hall.
      destruct (Hall _ He) as [Hv Hwfc]. cbn [fst snd] in *.
      destruct (IH _ He Hwfc ds' es' Hd) as [Hs Hvs].
      cbn [subdir]. rewrite (lookup_entry_unique name child es) by done.
      split; [done|by constructor].
Qed.

Lemma dirs_under_NoDup n :
  wf_node n = true -> NoDup (map fst (dirs_under n)).
Proof.
  induction n as [|es IH] using fsnode_nested_ind; intros Hwf.
  - constructor.
  - apply wf_dir in Hwf as [Hnd Hall]. cbn [dirs_under map fst].
    apply NoDup_cons. split.
    + intros Hin. apply list_elem_of_fmap in Hin as ([ds es'] & Hds & Hin).
      cbn in Hds. subst ds.
      apply list_elem_of_In, in_flat_map in Hin as (e & _ & Hin).
      apply in_map_iff in Hin as (d & [=] & _).
    + clear -IH Hnd Hall.
      induction es as [|[name child] es IHes]; [constructor|].
      cbn [flat_map fst snd]. rewrite fmap_app.
      cbn in Hnd. apply NoDup_cons in Hnd as [Hname Hnd].
      inversion IH as [|? ? Hc IH']; subst.
      inversion Hall as [|? ? [_ Hwfc] Hall']; subst. cbn [fst snd] in *.
      apply NoDup_app. split; [|split].
      * rewrite <- list_fmap_compose.
        change (fst ∘ (λ d : list string * list (string * fsnode), (name :: fst d, snd d)))
          with ((cons name) ∘ (fst : list string * list (string * fsnode) -> list string)).
        rewrite list_fmap_compose. apply NoDup_fmap_2; [|by apply Hc].
        by intros x y [= ->].
      * intros ds H1 H2.
        apply list_elem_of_fmap in H1 as ([ds1 es1] & Hds1 & H1).
        apply list_elem_of_fmap in H1 as (d1 & [= -> ->] & _).
        apply list_elem_of_fmap in H2 as ([ds2 es2] & Hds2 & H2).
        apply list_elem_of_In, in_flat_map in H2 as ([n2 c2] & He2 & H2).
        apply in_map_iff in H2 as (d2 & [= <- <-] & _).
        cbn in Hds1, Hds2. subst ds. injection Hds2 as <- _.
        apply Hname. apply list_elem_of_fmap. exists (name, c2).
        split; [done|by apply list_elem_of_In].
      * by apply IHes.
Qed.

End TreeFacts.

(* ===================================================================== *)
(** * The scanner *)
(* ===================================================================== *)

Section Scanner.

Variables (fsys : FileSystem) (root_dir : string).
Hypothesis cwd_absolute : PosixPath.isabs (fs_cwd fsys) = true.

Abbreviation top := (PosixPath.join root_dir REPO_DIR).
Abbreviation valid_names := (Forall (λ d : string, valid_name d = true)).

Lemma collect_fold (D : list (list string * list (string * fsnode))) :
  Forall (λ d, valid_names (fst d)) D ->
  ∀ acc,
    fold_left (collect_pngs fsys root_dir)
      (map (λ d, (path_of top (fst d), OS.dirnames (snd d), OS.filenames (snd d))) D)
      (Ok acc)
    = Ok (acc ++ flat_map group_of D).
Proof.
  induction 1 as [|[ds es] D Hd _ IH]; intros acc.
  - cbn. by rewrite app_nil_r.
  - cbn [map fold_left flat_map fst snd].
    unfold collect_pngs at 2. unfold group_of at 1. cbn [fst snd].
    fold (pngs_of es). destruct (pngs_of es) as [|png pngs].
    + by rewrite IH.
    + rewrite (PathFacts.relpath_under _ _ _ cwd_absolute Hd).
      by rewrite IH, <- app_assoc.
Qed.

Lemma find_all_images_groups top_es :
  OS.resolve fsys top = Some (FDir top_es) ->
  wf_node (FDir top_es) = true ->
  find_all_images fsys root_dir = Ok (groups_of (FDir top_es)).
Proof.
  intros Hres Hwf. unfold find_all_images, OS.walk. rewrite Hres.
  rewrite TreeFacts.walk_node_dirs_under, collect_fold; [done|].
  apply Forall_forall. intros [ds es] Hin.
  by apply (TreeFacts.dirs_under_subdir _ Hwf) in Hin as [_ ?].
Qed.

Lemma rel_path_inj ds ds' :
  valid_names ds -> valid_names ds' -> rel_path ds = rel_path ds' -> ds = ds'.
Proof.
  intros Hv Hv' Heq.
  assert (∀ l, valid_names l ->
               PyStr.split PosixPath.sep (rel_path l) = REPO_DIR :: l) as Hsplit.
  { intros l Hl. unfold rel_path. apply PathFacts.split_join; [done|].
    constructor; [done|]. eapply Forall_impl; [exact Hl|].
    intros d Hd. by apply PathFacts.valid_name_spec in Hd as (_ & _ & _ & ?). }
  apply (f_equal (PyStr.split PosixPath.sep)) in Heq.
  rewrite !Hsplit in Heq by done. by injection Heq.
Qed.

Lemma groups_at_other ds D :
  valid_names ds ->
  Forall (λ d, valid_names (fst d) ∧ fst d ≠ ds) D ->
  groups_at ds (flat_map group_of D) = [].
Proof.
  intros Hv. induction 1 as [|[ds' es'] D [Hv' Hne] _ IH]; [done|].
  cbn [flat_map]. unfold groups_at in *. rewrite List.filter_app, IH, app_nil_r.
  unfold group_of. cbn [fst snd]. destruct (pngs_of es'); [done|].
  cbn [List.filter fst].
  destruct (String.eqb_spec (rel_path ds') (rel_path ds)) as [Heq|]; [|done].
  by apply rel_path_inj in Heq.
Qed.

Lemma groups_at_self ds es :
  groups_at ds (group_of (ds, es)) = group_of (ds, es).
Proof.
  unfold groups_at, group_of. cbn [fst snd]. destruct (pngs_of es); [done|].
  cbn [List.filter fst]. by rewrite String.eqb_refl.
Qed.

Lemma groups_at_dirs ds es D :
  NoDup (map fst D) ->
  Forall (λ d, valid_names (fst d)) D ->
  (ds, es) ∈ D ->
  groups_at ds (flat_map group_of D) = group_of (ds, es).
Proof.
  intros Hnd Hall Hin.
  assert (valid_names ds) as Hv.
  { rewrite Forall_forall in Hall. by apply (Hall (ds, es)). }
  induction D as [|d0 D IH]; [by apply elem_of_nil in Hin|].
  cbn in Hnd. apply NoDup_cons in Hnd as [Hd0 Hnd].
  inversion Hall as [|? ? Hv0 Hall']; subst.
  cbn [flat_map]. unfold groups_at. rewrite List.filter_app.
  fold (groups_at ds (group_of d0)). fold (groups_at ds (flat_map group_of D)).
  apply elem_of_cons in Hin as [<-|Hin].
  - rewrite groups_at_self, groups_at_other, app_nil_r; [done..|].
    apply Forall_forall. intros d Hd. split.
    + rewrite Forall_forall in Hall'. by apply Hall'.
    + intros Heq. apply Hd0. apply list_elem_of_fmap. by exists d.
  - rewrite IH by done.
    assert (groups_at ds (group_of d0) = []) as ->; [|done].
    rewrite <- (app_nil_r (group_of d0)).
    apply (groups_at_other ds [d0]); [done|].
    constructor; [|done]. split; [done|]. intros Heq. apply Hd0.
    apply list_elem_of_fmap. by exists (ds, es).
Qed.

Lemma pngs_of_spec es f :
  f ∈ pngs_of es
  <-> (∃ n, (f, n) ∈ es ∧ OS.is_dir n = false) ∧ PyStr.endswith f ".png" = true.
Proof.
  unfold pngs_of, OS.filenames, is_png.
  rewrite list_elem_of_In, List.filter_In, <- list_elem_of_In, list_elem_of_fmap.
  split.
  - intros [([f' n] & -> & Hin) Hpng]. split; [|done]. exists n.
    apply list_elem_of_In, List.filter_In in Hin as [Hin Hd].
    split; [by apply list_elem_of_In|]. by apply negb_true_iff in Hd.
  - intros [(n & Hin & Hd) Hpng]. split; [|done]. exists (f, n).
    split; [done|]. apply list_elem_of_In, List.filter_In.
    split; [by apply list_elem_of_In|]. by apply negb_true_iff.
Qed.

(** C2: when [root_dir/lnxpcs] is a directory, the scan succeeds and, for
    every directory at or below it, holds exactly one group under that
    directory's path relative to [root_dir] when the directory has files
    ending in [.png], with these file names and no others, and no group
    under that path when it has none; every group comes from such a
    directory.  (Directory entries bear valid names, each once in its
    directory, and the working directory is absolute.) *)
Theorem C2_one_group_per_image_directory (top_es : list (string * fsnode)) :
  OS.resolve fsys (PosixPath.join root_dir REPO_DIR) = Some (FDir top_es) ->
  wf_node (FDir top_es) = true ->
  ∃ groups,
    find_all_images fsys root_dir = Ok groups
    ∧ (∀ ds es,
         subdir (FDir top_es) ds = Some (FDir es) ->
         groups_at ds groups
         = match pngs_of es with
           | [] => []
           | pngs => [(rel_path ds, pngs)]
           end)
    ∧ (∀ g, g ∈ groups ->
         ∃ ds es, subdir (FDir top_es) ds = Some (FDir es)
                  ∧ g = (rel_path ds, pngs_of es) ∧ pngs_of es ≠ [])
    ∧ (∀ es f,
         f ∈ pngs_of es
         <-> (∃ n, (f, n) ∈ es ∧ OS.is_dir n = false)
             ∧ PyStr.endswith f ".png" = true).
Proof.
  intros Hres Hwf. exists (groups_of (FDir top_es)).
  split; [by apply find_all_images_groups|]. split; [|split].
  - intros ds es Hs. apply TreeFacts.subdir_dirs_under in Hs.
    unfold groups_of. rewrite (groups_at_dirs ds es).
    + reflexivity.
    + by apply TreeFacts.dirs_under_NoDup.
    + apply Forall_forall. intros [ds' es'] Hin.
      by apply (TreeFacts.dirs_under_subdir _ Hwf) in Hin as [_ ?].
    + done.
  - intros g Hg. unfold groups_of in Hg.
    apply list_elem_of_In, in_flat_map in Hg as ([ds es] & Hd & Hg).
    apply list_elem_of_In in Hd.
    apply (TreeFacts.dirs_under_subdir _ Hwf) in Hd as [Hs _].
    exists ds, es. split; [done|]. unfold group_of in Hg. cbn [fst snd] in Hg.
    destruct (pngs_of es) as [|png pngs]; [done|].
    destruct Hg as [<-|[]]. done.
  - apply pngs_of_spec.
Qed.

End Scanner.

(* ===================================================================== *)
(** * The statements at work on the simulated service *)
(* ===================================================================== *)


Lemma C2_one_group_per_image_directory_witness :
  PosixPath.isabs (fs_cwd fs_example) = true
  ∧ OS.resolve fs_example (PosixPath.join "/home/u" REPO_DIR)
    = Some (FDir Sim.lnxpcs_entries)
  ∧ wf_node (FDir Sim.lnxpcs_entries) = true
  ∧ ∃ groups,
      find_all_images fs_example "/home/u" = Ok groups
      ∧ groups_at ["foo"] groups = [("lnxpcs/foo", ["a.png"; "b.png"])]
      ∧ groups_at ["empty"] groups = [].
Proof.
  assert (PosixPath.isabs (fs_cwd fs_example) = true) as H1 by reflexivity.
  assert (OS.resolve fs_example (PosixPath.join "/home/u" REPO_DIR)
          = Some (FDir Sim.lnxpcs_entries)) as H2 by reflexivity.
  assert (wf_node (FDir Sim.lnxpcs_entries) = true) as H3
    by (vm_compute; reflexivity).
  split; [exact H1|]. split; [exact H2|]. split; [exact H3|].
  destruct (C2_one_group_per_image_directory fs_example "/home/u" H1
              Sim.lnxpcs_entries H2 H3) as (groups & Hscan & Hat & _).
  exists groups. split; [exact Hscan|]. split.
  - exact (Hat ["foo"] _ eq_refl).
  - exact (Hat ["empty"] _ eq_refl).
Defined.

Lemma C3_existing_album_is_reused_witness :
  Sim.albums_foo !! Some "lnxpcs/foo" = Some Sim.album_foo_with_a
  ∧ get_album Sim.albums_foo "lnxpcs/foo" (album_url_of "lnxpcs/foo") Sim.world_foo
    = (Ok (Sim.album_foo_with_a, Sim.albums_foo), Sim.world_foo)
  ∧ ∃ l, new_calls Sim.world_foo
           (reconcile "/r" Sim.albums_foo Sim.group_foo Sim.world_foo).2 l
         ∧ ∀ fields, CreateAlbum fields ∈ l -> af_title fields ≠ "lnxpcs/foo".
Proof.
  assert (Sim.albums_foo !! Some "lnxpcs/foo" = Some Sim.album_foo_with_a) as Hm
    by (vm_compute; reflexivity).
  split; [exact Hm|].
  destruct (C3_existing_album_is_reused "/r" Sim.albums_foo "lnxpcs/foo"
              Sim.album_foo_with_a (album_url_of "lnxpcs/foo") Sim.group_foo
              Sim.world_foo Hm) as (Hget & _ & Hloop).
  split; [exact Hget|exact Hloop].
Defined.

Lemma C4_missing_album_created_once_witness :
  (∅ : gmap (option string) Album) !! Some "lnxpcs/foo" = None
  ∧ ∃ l, new_calls Sim.world_fresh
           (reconcile "/r" ∅ Sim.group_foo Sim.world_fresh).2 l
         ∧ List.filter (creates_title "lnxpcs/foo") l
           = [create_call "lnxpcs/foo" (album_url_of "lnxpcs/foo")].
Proof.
  assert ((∅ : gmap (option string) Album) !! Some "lnxpcs/foo" = None) as Hm
    by reflexivity.
  split; [exact Hm|].
  destruct (C4_missing_album_created_once "/r" ∅ "lnxpcs/foo"
              (album_url_of "lnxpcs/foo") Sim.group_foo Sim.world_fresh Hm)
    as (_ & _ & l & Hl & _ & Hone).
  exists l. split; [exact Hl|].
  destruct (reconcile "/r" ∅ Sim.group_foo Sim.world_fresh) as [[m'|e] w'] eqn:E.
  - apply (Hone m' eq_refl). left.
  - vm_compute in E. discriminate.
Defined.

(** The claim of C5 as the specification words it fails when tokens are
    missing: the path is wrong, the process ends with status 1, and yet the
    pin has been exchanged with the service before the path was looked
    at. *)
Lemma C5_counterexample :
  bad_path Sim.fs_two_pngs "/r"
  ∧ exit_status (script (Some "/r") Sim.world_no_tokens).1 = 1%Z
  ∧ List.filter is_remote_operation
      (calls (script (Some "/r") Sim.world_no_tokens).2)
    = [Authorize "1234" "pin"]
  ∧ ¬ (List.filter is_remote_operation
         (calls (script (Some "/r") Sim.world_no_tokens).2) = []).
Proof.
  split; [left; vm_compute; discriminate|].
  split; [vm_compute; reflexivity|].
  split; [vm_compute; reflexivity|].
  vm_compute. discriminate.
Qed.

Lemma C5_bad_path_exits_after_client_witness :
  Config.get Sim.config_full CLIENT_SECTION "id" = Ok "cid"
  ∧ Config.get Sim.config_full CLIENT_SECTION "secret" = Ok "csecret"
  ∧ Config.get Sim.config_full TOKENS_SECTION "access" = Ok "acc"
  ∧ Config.get Sim.config_full TOKENS_SECTION "refresh" = Ok "ref"
  ∧ bad_path (files Sim.world_fresh) "/r"
  ∧ (main Sim.config_full "/r" Sim.world_fresh).1 = Raise (SystemExit 1)
  ∧ new_calls Sim.world_fresh (main Sim.config_full "/r" Sim.world_fresh).2
      [NewClient "cid" "csecret" (Some "acc") (Some "ref")].
Proof.
  assert (Config.get Sim.config_full CLIENT_SECTION "id" = Ok "cid") as H1
    by (vm_compute; reflexivity).
  assert (Config.get Sim.config_full CLIENT_SECTION "secret" = Ok "csecret") as H2
    by (vm_compute; reflexivity).
  assert (Config.get Sim.config_full TOKENS_SECTION "access" = Ok "acc") as H3
    by (vm_compute; reflexivity).
  assert (Config.get Sim.config_full TOKENS_SECTION "refresh" = Ok "ref") as H4
    by (vm_compute; reflexivity).
  assert (bad_path (files Sim.world_fresh) "/r") as H5
    by (left; vm_compute; discriminate).
  assert (api_new_client "cid" "csecret" (Some "acc") (Some "ref")
            (remote Sim.world_fresh)
          = (Ok tt, (api_new_client "cid" "csecret" (Some "acc") (Some "ref")
                       (remote Sim.world_fresh)).2)) as H6
    by (vm_compute; reflexivity).
  destruct (C5_bad_path_exits_after_client Sim.config_full "/r" "cid" "csecret"
              "acc" "ref" _ Sim.world_fresh H1 H2 H3 H4 H6 H5)
    as (Hexit & _ & Hcalls & _).
  repeat (split; [assumption|]). exact Hcalls.
Defined.

Lemma C6_rate_limit_reported_and_reraised_witness :
  let w0 := Sim.world [Sim.album_foo_with_a] 3 (Some Sim.config_full)
              Sim.fs_two_pngs [] in
  let w := (prepare Sim.config_full "/r/lnxpcs" w0).2 in
  let upload :=
    UploadFromPath "/r/lnxpcs/foo/b.png"
      {| uc_title := "lnxpcs/foo/b.png";
         uc_description :=
           "A mirror of https://github.com/jstpcs/lnxpcs/tree/master/foo/b.png";
         uc_album := "dh-old1" |} in
  prepare Sim.config_full "/r/lnxpcs" w0 = (Ok ("/r", Sim.group_foo, Sim.albums_foo), w)
  ∧ answer upload (remote w) = (Raise ImgurClientRateLimitError, remote w)
  ∧ new_calls w (reconcile "/r" Sim.albums_foo Sim.group_foo w).2 [upload]
  ∧ main Sim.config_full "/r/lnxpcs" w0
    = (Raise ImgurClientRateLimitError,
       with_line (reconcile "/r" Sim.albums_foo Sim.group_foo w).2
         ("Passed limit " +:+ api_credits (remote w))).
Proof.
  intros w0 w upload.
  assert (prepare Sim.config_full "/r/lnxpcs" w0
          = (Ok ("/r", Sim.group_foo, Sim.albums_foo), w)) as Hp
    by (vm_compute; reflexivity).
  assert (answer upload (remote w) = (Raise ImgurClientRateLimitError, remote w))
    as Ha by (vm_compute; reflexivity).
  assert (new_calls w (reconcile "/r" Sim.albums_foo Sim.group_foo w).2 [upload])
    as Hc by (vm_compute; reflexivity).
  split; [exact Hp|]. split; [exact Ha|]. split; [exact Hc|].
  destruct (C6_rate_limit_reported_and_reraised "/r" Sim.albums_foo
              Sim.group_foo w) as (_ & l & Hl & Hrefused & _).
  assert (l = [] ++ upload :: []) as Heq.
  { unfold new_calls in Hl, Hc. rewrite Hc in Hl.
    apply app_inv_head in Hl. symmetry. exact Hl. }
  destruct (Hrefused [] upload [] (remote w) (remote w) Heq eq_refl Ha)
    as (_ & _ & _ & _ & _ & Hmain).
  exact (proj1 (Hmain Sim.config_full "/r/lnxpcs" w0 Hp)).
Defined.

Lemma C7_source_urls_witness :
  Substituted REPO_DIR "lnxpcs/tree/master" "lnxpcs/foo" "lnxpcs/tree/master/foo"
  ∧ album_url_of "lnxpcs/foo" = "https://github.com/jstpcs/lnxpcs/tree/master/foo"
  ∧ image_url_of (album_url_of "lnxpcs/foo") "a.png"
    = "https://github.com/jstpcs/lnxpcs/tree/master/foo/a.png".
Proof.
  destruct (C7_source_urls (R:=Sim.Remote) "lnxpcs/foo")
    as (s & Hs & _ & Hurl & Himg & _).
  assert (s = "lnxpcs/tree/master/foo") as ->.
  { apply (StrFacts.app_inv_head ROOT_URL). by rewrite <- Hurl. }
  split; [exact Hs|]. split; [exact Hurl|]. exact (Himg "a.png").
Defined.

Lemma C8_tokens_written_and_persisted_witness :
  stdin Sim.world_no_tokens = ["1234"]
  ∧ Config.getitem Sim.config_no_tokens CLIENT_SECTION "id" = Ok "cid"
  ∧ Config.getitem Sim.config_no_tokens CLIENT_SECTION "secret" = Ok "csecret"
  ∧ ∃ config',
      (auth_flow Sim.config_no_tokens Sim.world_no_tokens).1 = Ok config'
      ∧ config_file (auth_flow Sim.config_no_tokens Sim.world_no_tokens).2
        = Some config'
      ∧ Config.file_has_key config' TOKENS_SECTION "access"
      ∧ Config.file_has_key config' TOKENS_SECTION "refresh".
Proof.
  assert (stdin Sim.world_no_tokens = ["1234"]) as H1 by reflexivity.
  assert (Config.getitem Sim.config_no_tokens CLIENT_SECTION "id" = Ok "cid")
    as H2 by (vm_compute; reflexivity).
  assert (Config.getitem Sim.config_no_tokens CLIENT_SECTION "secret"
          = Ok "csecret") as H3 by (vm_compute; reflexivity).
  set (r1 := (api_new_client "cid" "csecret" None None
                (remote Sim.world_no_tokens)).2).
  assert (api_new_client "cid" "csecret" None None (remote Sim.world_no_tokens)
          = (Ok tt, r1)) as H4 by (vm_compute; reflexivity).
  set (creds := {| access_token := "acc-1234"; refresh_token := "ref-1234" |}).
  assert (api_authorize "1234" "pin" r1
          = (Ok creds, (api_authorize "1234" "pin" r1).2)) as H5
    by (vm_compute; reflexivity).
  split; [exact H1|]. split; [exact H2|]. split; [exact H3|].
  destruct (C8_tokens_written_and_persisted Sim.config_no_tokens "cid" "csecret"
              "1234" [] creds r1 _ Sim.world_no_tokens H1 H4 H5) as [_ Hauth].
  destruct (Hauth H2 H3) as (config' & Hr & _ & _ & Hfile & Ha & Hr' & _).
  exists config'. repeat split; assumption.
Defined.

Lemma C9_auth_flow_iff_tokens_incomplete_witness :
  tokens_section_complete Sim.config_full
  ∧ run_with_tokens Sim.config_full "/r/lnxpcs" Sim.world_fresh
    = main Sim.config_full "/r/lnxpcs" Sim.world_fresh
  ∧ ¬ tokens_section_complete Sim.config_refresh_only
  ∧ run_with_tokens Sim.config_refresh_only "/r/lnxpcs" Sim.world_no_tokens
    = match auth_flow Sim.config_refresh_only Sim.world_no_tokens with
      | (Ok config', w') => main config' "/r/lnxpcs" w'
      | (Raise e, w') => (Raise e, w')
      end
  ∧ ∃ config' w',
      auth_flow Sim.config_refresh_only Sim.world_no_tokens = (Ok config', w')
      ∧ run_with_tokens Sim.config_refresh_only "/r/lnxpcs" Sim.world_no_tokens
        = main config' "/r/lnxpcs" w'
      ∧ new_calls Sim.world_no_tokens w'
          [NewClient "cid" "csecret" None None; Authorize "1234" "pin"]
      ∧ Config.get config' TOKENS_SECTION "access" = Ok "acc-1234".
Proof.
  destruct (C9_auth_flow_iff_tokens_incomplete Sim.config_full "/r/lnxpcs"
              Sim.world_fresh) as (Hiff & Hdirect & _ & _).
  destruct (C9_auth_flow_iff_tokens_incomplete Sim.config_refresh_only
              "/r/lnxpcs" Sim.world_no_tokens) as (Hiff' & _ & Hauth & _ & Hflow).
  assert (tokens_section_complete Sim.config_full) as Hfull.
  { apply Hiff. vm_compute. reflexivity. }
  assert (¬ tokens_section_complete Sim.config_refresh_only) as Hpart.
  { intros Hc. apply Hiff' in Hc. vm_compute in Hc. discriminate. }
  assert (Config.getitem Sim.config_refresh_only CLIENT_SECTION "id" = Ok "cid")
    as Hid by (vm_compute; reflexivity).
  assert (Config.getitem Sim.config_refresh_only CLIENT_SECTION "secret"
          = Ok "csecret") as Hsecret by (vm_compute; reflexivity).
  assert (api_new_client "cid" "csecret" None None (remote Sim.world_no_tokens)
          = (Ok tt,
             (api_new_client "cid" "csecret" None None
                (remote Sim.world_no_tokens)).2)) as Hc
    by (vm_compute; reflexivity).
  assert (stdin Sim.world_no_tokens = ["1234"]) as Hin by reflexivity.
  assert (api_authorize "1234" "pin"
            (api_new_client "cid" "csecret" None None
               (remote Sim.world_no_tokens)).2
          = (Ok {| access_token := "acc-1234"; refresh_token := "ref-1234" |},
             (api_authorize "1234" "pin"
                (api_new_client "cid" "csecret" None None
                   (remote Sim.world_no_tokens)).2).2)) as Ha
    by (vm_compute; reflexivity).
  split; [exact Hfull|]. split; [exact (proj1 (Hdirect Hfull))|].
  split; [exact Hpart|]. split; [exact (Hauth Hpart)|].
  destruct (Hflow "cid" "csecret" Hpart Hid Hsecret) as (_ & _ & _ & _ & Hok).
  destruct (Hok _ _ _ _ _ Hc Hin Ha)
    as (config' & w' & H1 & H2 & H3 & _ & _ & _ & H4 & _).
  exists config', w'. split; [exact H1|]. split; [exact H2|].
  split; [exact H3|exact H4].
Defined.

Lemma C10_trailing_separator_rejected_witness :
  PyStr.endswith "/r/lnxpcs/" "/" = true
  ∧ OS.isdir (files Sim.world_fresh) "/r/lnxpcs/" = true
  ∧ PosixPath.basename "/r/lnxpcs" = REPO_DIR
  ∧ PosixPath.basename "/r/lnxpcs/" = ""
  ∧ (main Sim.config_full "/r/lnxpcs/" Sim.world_fresh).1 = Raise (SystemExit 1)
  ∧ exit_status (main Sim.config_full "/r/lnxpcs/" Sim.world_fresh).1 = 1%Z.
Proof.
  assert (PyStr.endswith "/r/lnxpcs/" "/" = true) as H0 by reflexivity.
  assert (Config.get Sim.config_full CLIENT_SECTION "id" = Ok "cid") as H1
    by (vm_compute; reflexivity).
  assert (Config.get Sim.config_full CLIENT_SECTION "secret" = Ok "csecret") as H2
    by (vm_compute; reflexivity).
  assert (Config.get Sim.config_full TOKENS_SECTION "access" = Ok "acc") as H3
    by (vm_compute; reflexivity).
  assert (Config.get Sim.config_full TOKENS_SECTION "refresh" = Ok "ref") as H4
    by (vm_compute; reflexivity).
  assert (api_new_client "cid" "csecret" (Some "acc") (Some "ref")
            (remote Sim.world_fresh)
          = (Ok tt, (api_new_client "cid" "csecret" (Some "acc") (Some "ref")
                       (remote Sim.world_fresh)).2)) as H5
    by (vm_compute; reflexivity).
  destruct (C10_trailing_separator_rejected "/r/lnxpcs/" Sim.config_full
              "cid" "csecret" "acc" "ref" _ Sim.world_fresh H0 H1 H2 H3 H4 H5)
    as (Hbase & Hmain & Hstatus).
  split; [exact H0|]. split; [vm_compute; reflexivity|].
  split; [reflexivity|]. split; [exact Hbase|].
  split; [by rewrite Hmain|exact Hstatus].
Defined.

(* ===================================================================== *)
(** * Further properties: configuration errors and token persistence *)
(* ===================================================================== *)

Section ConfigurationErrors.

Context {R : Type} `{Api : ImgurApi R}.

(** X1: a configuration without [client] section (a missing file
    included), without client id or secret, or without user makes the
    script print the matching diagnostic and exit with status 1 before any
    client is built: no call is made, nothing is read from the console and
    the configuration file is left alone. *)
Theorem X1_configuration_errors_exit_before_any_call (argv : option string)
  (w : World R) :
  let config := default Config.empty (config_file w) in
  let stops_with line :=
    script argv w = (Raise (SystemExit 1), with_line w line) in
  (config_file w = None -> stops_with no_client_line)
  ∧ (Config.contains config CLIENT_SECTION = false -> stops_with no_client_line)
  ∧ (Config.contains config CLIENT_SECTION = true ->
     Config.has_option config CLIENT_SECTION "id" = false
     ∨ Config.has_option config CLIENT_SECTION "secret" = false ->
     stops_with incomplete_client_line)
  ∧ (Config.contains config CLIENT_SECTION = true ->
     Config.has_option config CLIENT_SECTION "id" = true ->
     Config.has_option config CLIENT_SECTION "secret" = true ->
     (∀ user, Config.get config "DEFAULT" "user" ≠ Ok user) ->
     stops_with no_user_line).
Proof.
  intros config stops_with. subst stops_with. cbn beta.
  assert (Config.contains config CLIENT_SECTION = false ->
          script argv w = (Raise (SystemExit 1), with_line w no_client_line))
    as Hnone.
  { intros Hc. unfold script.
    unfold get_files, config_read. rewrite !bind_run. cbn beta iota.
    fold config. by rewrite Hc. }
  split; [|split; [exact Hnone|split]].
  - intros Hfile. apply Hnone. unfold config. by rewrite Hfile.
  - intros Hc Hmiss. unfold script.
    unfold get_files, config_read. rewrite !bind_run. cbn beta iota.
    fold config. rewrite Hc. cbn [negb].
    by destruct Hmiss as [-> | ->]; [|rewrite orb_true_r].
  - intros Hc Hid Hsecret Huser. unfold script.
    unfold get_files, config_read. rewrite !bind_run. cbn beta iota.
    fold config. rewrite Hc, Hid, Hsecret. cbn [negb orb].
    destruct (Config.get config "DEFAULT" "user") as [user|e]; [|done].
    by destruct (Huser user).
Qed.

End ConfigurationErrors.

Lemma X1_configuration_errors_exit_before_any_call_witness :
  config_file (Sim.world [] 100 None Sim.fs_two_pngs []) = None
  ∧ script None (Sim.world [] 100 None Sim.fs_two_pngs [])
    = (Raise (SystemExit 1),
       with_line (Sim.world [] 100 None Sim.fs_two_pngs []) no_client_line).
Proof.
  split; [reflexivity|].
  exact (proj1 (X1_configuration_errors_exit_before_any_call None
                  (Sim.world [] 100 None Sim.fs_two_pngs [])) eq_refl).
Defined.

Section TokenPersistence.

Context {R : Type} `{Api : ImgurApi R}.

Lemma set_missing_section config option value :
  Config.has_section config TOKENS_SECTION = false ->
  Config.set config TOKENS_SECTION option value
  = Raise (NoSectionError TOKENS_SECTION).
Proof.
  unfold Config.has_section, Config.set. intros H%bool_decide_eq_false.
  cbn [String.eqb orb]. change (String.eqb TOKENS_SECTION "") with false.
  change (String.eqb TOKENS_SECTION Config.default_section) with false.
  cbn [orb]. destruct (cp_sections config !! TOKENS_SECTION) eqn:Hd; [|done].
  destruct H. eauto.
Qed.

Lemma set_twice_complete config config1 config2 access refresh :
  Config.set config TOKENS_SECTION "access" access = Ok config1 ->
  Config.set config1 TOKENS_SECTION "refresh" refresh = Ok config2 ->
  tokens_section_complete config2.
Proof.
  unfold Config.set. change (String.eqb TOKENS_SECTION "") with false.
  change (String.eqb TOKENS_SECTION Config.default_section) with false.
  cbn [orb].
  destruct (cp_sections config !! TOKENS_SECTION) as [d|]; [|done].
  intros [= <-]. cbn [cp_sections cp_defaults]. rewrite lookup_insert_eq.
  intros [= <-]. eexists. cbn [cp_sections cp_defaults].
  rewrite lookup_insert_eq. split; [done|]. split; left.
  - rewrite lookup_insert_ne by done. by rewrite lookup_insert_eq.
  - by rewrite lookup_insert_eq.
Qed.

(** X2: [request_new_token] rewrites the configuration file only when it
    returns: then the file holds the returned configuration, which shows
    both tokens, and the run made the two calls of the pin exchange.  When
    it fails, wherever, the file is as before and the closing line is not
    printed.  In particular, on a configuration without [tokens] section
    the pin is exchanged and the tokens are then lost to a
    [NoSectionError]. *)
Theorem X2_config_file_rewritten_only_on_success (config : ConfigParser)
  (id secret : string) (w : World R) :
  let run := request_new_token config id secret w in
  match run.1 with
  | Ok config' =>
      config_file run.2 = Some config'
      ∧ tokens_section_complete config'
      ∧ ∃ pin, new_calls w run.2
                 [NewClient id secret None None; Authorize pin "pin"]
  | Raise _ =>
      config_file run.2 = config_file w
      ∧ ∃ lines, new_lines w run.2 lines ∧ updated_line ∉ lines
  end
  ∧ (∀ pin rest r1 creds r2,
       Config.has_section config TOKENS_SECTION = false ->
       stdin w = pin :: rest ->
       api_new_client id secret None None (remote w) = (Ok tt, r1) ->
       api_authorize pin "pin" r1 = (Ok creds, r2) ->
       run.1 = Raise (NoSectionError TOKENS_SECTION)
       ∧ new_calls w run.2 [NewClient id secret None None; Authorize pin "pin"]
       ∧ config_file run.2 = config_file w).
Proof.
  intros run. subst run. rewrite request_new_token_steps. cbn zeta.
  assert (∀ line : string, updated_line ∉ [String "P" line]) as Hprompt.
  { intros line Hl%list_elem_of_singleton. discriminate. }
  split.
  - destruct (api_new_client id secret None None (remote w)) as [[[]|e] r1].
    2: { split; [done|]. exists []. unfold new_lines. cbn.
         rewrite app_nil_r. split; [done|]. apply not_elem_of_nil. }
    destruct (stdin w) as [|pin rest].
    { split; [done|]. eexists [_]. split; [done|]. apply Hprompt. }
    destruct (api_authorize pin "pin" r1) as [[creds|e] r2].
    2: { split; [done|]. eexists [_]. split; [done|]. apply Hprompt. }
    destruct (Config.set config TOKENS_SECTION "access" _) as [config1|e] eqn:H1.
    2: { split; [done|]. eexists [_]. split; [done|]. apply Hprompt. }
    destruct (Config.set config1 TOKENS_SECTION "refresh" _) as [config2|e] eqn:H2.
    2: { split; [done|]. eexists [_]. split; [done|]. apply Hprompt. }
    split; [done|]. split; [by eapply set_twice_complete|]. by exists pin.
  - intros pin rest r1 creds r2 Hsec Hin Hc Ha. rewrite Hc, Hin, Ha.
    by rewrite set_missing_section.
Qed.

End TokenPersistence.

(* ===================================================================== *)
(** * Further properties of the reconciliation loop *)
(* ===================================================================== *)

Section LoopProperties.

Context {R : Type} `{Api : ImgurApi R}.
Variable parent : string.

Lemma loop_call_mono images images' c :
  (∀ g, g ∈ images -> g ∈ images') ->
  loop_call parent images c -> loop_call parent images' c.
Proof.
  intros Hsub. destruct c as [| | | |fields|path config]; cbn; try done.
  - intros (Hin & Hp & Hd). split; [|done].
    apply list_elem_of_fmap in Hin as ([t pngs] & -> & Hin).
    apply list_elem_of_fmap. exists (t, pngs). split; [done|by apply Hsub].
  - intros (t & pngs & png & Hin & Hrest). exists t, pngs, png.
    split; [by apply Hsub|done].
Qed.

Lemma get_album_shape (m : gmap (option string) Album) title (w : World R) :
  ∃ l, new_calls w (get_album m title (album_url_of title) w).2 l
       ∧ ∀ pngs, Forall (loop_call parent [(title, pngs)]) l.
Proof.
  destruct (m !! Some title) as [album|] eqn:Hm.
  - rewrite (get_album_hit _ _ _ _ _ Hm). exists [].
    split; [apply new_calls_refl|done].
  - rewrite (get_album_miss _ _ _ _ Hm).
    assert (∀ pngs, loop_call parent [(title, pngs)]
                      (create_call title (album_url_of title))) as Hcreate.
    { intros pngs. cbn. split; [left|done]. }
    unfold client_create_album, client_get_album, client_call, new_calls.
    destruct (api_create_album _ (remote w)) as [[id|e] r1]; cbn.
    + exists [create_call title (album_url_of title); GetAlbum id]. split.
      * destruct (api_get_album id r1) as [[album|e] r2]; cbn;
          by rewrite <- app_assoc.
      * intros pngs. by repeat constructor.
    + exists [create_call title (album_url_of title)]. split; [done|].
      intros pngs. by repeat constructor.
Qed.

Lemma uploads_shape title url album pngs (l : list Call) :
  url = album_url_of title ->
  l `prefix_of` map (upload_call parent title url album)
                  (missing_pngs title album pngs) ->
  Forall (loop_call parent [(title, pngs)]) l.
Proof.
  intros -> [k Hk]. apply Forall_forall. intros c Hc.
  assert (c ∈ map (upload_call parent title (album_url_of title) album)
                (missing_pngs title album pngs)) as Hin.
  { rewrite Hk. apply elem_of_app. by left. }
  apply list_elem_of_fmap in Hin as (png & -> & Hpng).
  unfold missing_pngs in Hpng.
  apply list_elem_of_In, List.filter_In in Hpng as [Hpng _].
  cbn. exists title, pngs, png. split; [left|].
  split; [by apply list_elem_of_In|done].
Qed.

Lemma handle_group_shape (m : gmap (option string) Album) title pngs (w : World R) :
  ∃ l, new_calls w (handle_group parent m (title, pngs) w).2 l
       ∧ Forall (loop_call parent [(title, pngs)]) l.
Proof.
  rewrite handle_group_unfold.
  destruct (get_album_shape m title w) as (l1 & Hl1 & Hs1).
  destruct (get_album m title (album_url_of title) w) as [[[album m1]|e] w1];
    cbn [fst snd] in *.
  - cbn zeta. set (w2 := (print _ (print _ w1).2).2).
    destruct (for_each_pngs_calls parent title (album_url_of title) album pngs w2)
      as (l2 & Hl2 & Hpre & _).
    exists (l1 ++ l2). split.
    + assert (new_calls w (for_each pngs
                (handle_png parent title (album_url_of title) album) w2).2
                (l1 ++ l2)) as Hnew.
      { eapply new_calls_trans; [exact Hl1|]. exact Hl2. }
      by destruct (for_each pngs _ w2) as [[[]|e] w3].
    + apply Forall_app. split; [apply Hs1|].
      by apply (uploads_shape title (album_url_of title) album).
  - exists l1. split; [done|apply Hs1].
Qed.

(** X4: whatever the service answers and however the loop ends, its calls
    are of three kinds only: the creation of a hidden album titled as one
    of the groups, with the source URL of that title in its description;
    the fetch of an album; the upload of a file of a group, read from its
    place under the parent directory and titled with its path relative to
    it.  It never lists, authorizes, or builds a client. *)
Theorem X4_loop_calls_only_create_fetch_upload
  (m : gmap (option string) Album) (images : list (string * list string))
  (w : World R) :
  ∃ l, new_calls w (reconcile parent m images w).2 l
       ∧ Forall (loop_call parent images) l.
Proof.
  unfold reconcile. revert m w.
  induction images as [|[title pngs] rest IH]; intros m w.
  - exists []. split; [apply new_calls_refl|done].
  - rewrite for_fold_cons.
    destruct (handle_group_shape m title pngs w) as (l1 & Hl1 & Hs1).
    assert (Forall (loop_call parent ((title, pngs) :: rest)) l1) as Hs1'.
    { eapply Forall_impl; [exact Hs1|]. intros c. apply loop_call_mono.
      intros g Hg%list_elem_of_singleton. subst g. left. }
    destruct (handle_group parent m (title, pngs) w) as [[m1|e] w1];
      cbn [fst snd] in *.
    + destruct (IH m1 w1) as (l2 & Hl2 & Hs2).
      exists (l1 ++ l2). split; [by eapply new_calls_trans|].
      apply Forall_app. split; [done|].
      eapply Forall_impl; [exact Hs2|]. intros c. apply loop_call_mono.
      intros g Hg. by right.
    + by exists l1.
Qed.

(** X5: when the loop completes, the dictionary it leaves extends the one
    it was given: every album fetched before the loop is still there under
    its title, every group's title has an album, and nothing else was
    added. *)
Theorem X5_album_dictionary_only_grows
  (m m' : gmap (option string) Album) (images : list (string * list string))
  (w w' : World R) :
  reconcile parent m images w = (Ok m', w') ->
  m ⊆ m'
  ∧ (∀ title, title ∈ images.*1 -> is_Some (m' !! Some title))
  ∧ (∀ key, is_Some (m' !! key) ->
       is_Some (m !! key) ∨ ∃ title, title ∈ images.*1 ∧ key = Some title).
Proof.
  unfold reconcile. revert m w.
  induction images as [|[title pngs] rest IH]; intros m w.
  - intros [= <- <-]. split; [done|]. split; [|by left].
    intros t Ht. by apply elem_of_nil in Ht.
  - rewrite for_fold_cons.
    destruct (handle_group_calls parent m title pngs w) as (l1 & _ & _ & Hok).
    destruct (handle_group parent m (title, pngs) w) as [[m1|e] w1];
      cbn [fst snd] in *; [|done].
    intros Hrun. destruct (IH m1 w1 Hrun) as (Hsub & Hall & Honly).
    assert (m ⊆ m1 ∧ is_Some (m1 !! Some title)
            ∧ ∀ key, is_Some (m1 !! key) -> is_Some (m !! key) ∨ key = Some title)
      as (Hsub1 & Htitle & Honly1).
    { destruct (Hok m1 eq_refl) as [[Hsome ->]|[Hnone (album & ->)]].
      - split; [done|]. split; [done|]. by left.
      - split; [by apply insert_subseteq|]. split.
        + rewrite lookup_insert_eq. eauto.
        + intros key Hkey. destruct (decide (key = Some title)) as [->|Hne];
            [by right|]. left. by rewrite lookup_insert_ne in Hkey. }
    split; [by etrans|]. split.
    + intros t Ht. rewrite fmap_cons in Ht.
      apply elem_of_cons in Ht as [->|Ht]; [|by apply Hall].
      destruct Htitle as [album Halbum]. exists album.
      by apply (lookup_weaken m1 m').
    + intros key Hkey. destruct (Honly key Hkey) as [Hm1|(t & Ht & ->)].
      * destruct (Honly1 key Hm1) as [?| ->]; [by left|]. right.
        exists title. split; [|done]. rewrite fmap_cons. left.
      * right. exists t. split; [|done]. rewrite fmap_cons. by right.
Qed.

Lemma for_each_all_found title url album pngs :
  (∀ png, png ∈ pngs -> has_image_titled album (PosixPath.join title png)) ->
  ∀ w : World R,
    for_each pngs (handle_png parent title url album) w
    = (Ok tt, with_lines w (map (image_line url) pngs)).
Proof.
  induction pngs as [|png rest IH]; intros Hall w.
  - cbn. unfold ret, with_lines. by rewrite app_nil_r; destruct w.
  - rewrite for_each_cons.
    assert (handle_png parent title url album png w
            = (Ok tt, with_lines w [image_line url png])) as ->.
    { assert (has_image_titled album (PosixPath.join title png)) as Hhas
        by (apply Hall; left).
      apply get_album_image_Some in Hhas as [image Himg].
      unfold handle_png. rewrite bind_run. cbn. by rewrite Himg. }
    rewrite IH by (intros p Hp; apply Hall; by right).
    unfold with_lines. cbn. by rewrite <- app_assoc.
Qed.

(** X6: a run that finds everything in place changes nothing.  When every
    file of every group already titles an image of the album the
    dictionary holds under the group's title, the loop completes without a
    single call: the service is not asked, the dictionary is returned as it
    was, and only progress lines are printed. *)
Theorem X6_nothing_to_do_makes_no_call
  (m : gmap (option string) Album) (images : list (string * list string))
  (w : World R) :
  all_mirrored m images ->
  ∃ lines, reconcile parent m images w = (Ok m, with_lines w lines).
Proof.
  unfold reconcile. revert w.
  induction images as [|[title pngs] rest IH]; intros w Hall.
  - exists []. cbn. unfold ret, with_lines. by rewrite app_nil_r; destruct w.
  - rewrite for_fold_cons, handle_group_unfold.
    destruct (Hall title pngs) as (album & Hm & Hpngs); [left|].
    rewrite (get_album_hit _ _ _ _ _ Hm). cbn zeta.
    rewrite for_each_all_found by done.
    destruct (IH (with_lines
                    (print ("Album @ " +:+ album_link album)
                       (print ("Handling album " +:+ album_url_of title) w).2).2
                    (map (image_line (album_url_of title)) pngs)))
      as (lines & ->).
    { intros t ps Hin. apply Hall. by right. }
    eexists. unfold with_lines. cbn. by rewrite <- !app_assoc.
Qed.

End LoopProperties.

(* ===================================================================== *)
(** * Further properties: which failures are reported *)
(* ===================================================================== *)

Section Prints.

Context {R : Type} `{Api : ImgurApi R}.
Variable P : string -> Prop.

Local Ltac no_line :=
  intros w; exists []; unfold new_lines; cbn; by rewrite app_nil_r.

Lemma prints_ret {A} (a : A) : prints (R:=R) P (ret a).
Proof. no_line. Qed.

Lemma prints_raise {A} e : prints (R:=R) P (raise (A:=A) e).
Proof. no_line. Qed.

Lemma prints_lift {A} (r : result A) : prints (R:=R) P (lift r).
Proof. no_line. Qed.

Lemma prints_get_files : prints (R:=R) P get_files.
Proof. no_line. Qed.

Lemma prints_client_call {A} c (f : R -> result A * R) :
  prints (R:=R) P (client_call c f).
Proof.
  intros w. exists []. unfold client_call, new_lines.
  destruct (f (remote w)). cbn. by rewrite app_nil_r.
Qed.

Lemma prints_print line : P line -> prints (R:=R) P (print line).
Proof. intros Hl w. exists [line]. split; [done|by constructor]. Qed.

Lemma prints_bind {A B} (m : M R A) (k : A -> M R B) :
  prints (R:=R) P m -> (∀ a, prints (R:=R) P (k a)) -> prints (R:=R) P (bind m k).
Proof.
  intros Hm Hk w. rewrite bind_run.
  destruct (Hm w) as (l1 & Hl1 & Hp1).
  destruct (m w) as [[a|e] w1]; cbn [fst snd] in *.
  - destruct (Hk a w1) as (l2 & Hl2 & Hp2).
    exists (l1 ++ l2). split; [by eapply new_lines_trans|by apply Forall_app].
  - by exists l1.
Qed.

Lemma prints_for_fold {A S} (xs : list A) (body : S -> A -> M R S) :
  (∀ s x, prints (R:=R) P (body s x)) -> ∀ s, prints (R:=R) P (for_fold xs s body).
Proof.
  intros Hbody. induction xs as [|x xs IH]; intros s; cbn.
  - apply prints_ret.
  - apply prints_bind; [apply Hbody|]. exact IH.
Qed.

End Prints.

Section Reported.

Context {R : Type} `{Api : ImgurApi R}.

Lemma prints_prepare config path :
  prints (R:=R) not_limit_line (prepare config path).
Proof.
  unfold prepare.
  do 4 (apply prints_bind; [apply prints_lift|]; intros ?).
  apply prints_bind; [apply prints_client_call|]. intros _.
  apply prints_bind.
  { unfold check_path. apply prints_bind; [apply prints_get_files|]. intros fsys.
    destruct (negb _).
    - apply prints_bind; [by apply prints_print|]. intros _. apply prints_raise.
    - destruct (negb _); [|apply prints_ret].
      apply prints_bind; [by apply prints_print|]. intros _. apply prints_raise. }
  intros _. apply prints_bind; [apply prints_get_files|]. intros fsys.
  do 2 (apply prints_bind; [apply prints_lift|]; intros ?).
  apply prints_bind; [|intros ?; apply prints_ret].
  unfold fetch_all_albums.
  apply prints_bind; [apply prints_client_call|]. intros listing.
  apply prints_for_fold. intros d album.
  apply prints_bind; [apply prints_client_call|]. intros full.
  apply prints_ret.
Qed.

Lemma filter_limit_nil lines :
  Forall not_limit_line lines -> List.filter is_limit_line lines = [].
Proof.
  induction 1 as [|line lines Hline _ IH]; [done|].
  cbn. unfold not_limit_line in Hline. by rewrite Hline.
Qed.

(** X7: of all failures of [main], only a rate limit met inside the loop
    is reported.  A failure before the loop, a rate limit while the albums
    are listed and fetched included, leaves [main] as it came, and so does
    any other failure of the loop.  In every run the line [Passed limit]
    is printed at most once, and only when [main] ends with the rate-limit
    failure. *)
Theorem X7_only_a_rate_limit_in_the_loop_is_reported (config : ConfigParser)
  (path : string) (w : World R) :
  (∀ e w', prepare config path w = (Raise e, w') ->
           main config path w = (Raise e, w'))
  ∧ (∀ parent images m w1 e w',
       prepare config path w = (Ok (parent, images, m), w1) ->
       reconcile parent m images w1 = (Raise e, w') ->
       is_rate_limit e = false ->
       main config path w = (Raise e, w'))
  ∧ (∃ lines,
       new_lines w (main config path w).2 lines
       ∧ (List.filter is_limit_line lines = []
          ∨ (main config path w).1 = Raise ImgurClientRateLimitError
            ∧ ∃ credits,
                List.filter is_limit_line lines = ["Passed limit " +:+ credits])).
Proof.
  split; [|split].
  - intros e w' Hp. unfold main. by rewrite bind_run, Hp.
  - intros parent images m w1 e w' Hp Hrun He. unfold main.
    rewrite bind_run, Hp. unfold reconcile_guarded, try_except.
    by rewrite bind_run, Hrun, He.
  - unfold main. rewrite bind_run.
    destruct (prints_prepare config path w) as (l1 & Hl1 & Hp1).
    destruct (prepare config path w) as [[[[parent images] m]|e] w1];
      cbn [fst snd] in *.
    2: { exists l1. split; [done|]. left. by apply filter_limit_nil. }
    unfold reconcile_guarded, try_except. rewrite bind_run.
    destruct (reconcile_lines parent images m w1) as (l2 & Hl2 & Hp2).
    destruct (reconcile parent m images w1) as [[m'|e] w2]; cbn [fst snd] in *.
    + exists (l1 ++ l2). split; [by eapply new_lines_trans|]. left.
      apply filter_limit_nil. by apply Forall_app.
    + destruct e; cbn [is_rate_limit];
        try (exists (l1 ++ l2); split; [by eapply new_lines_trans|]; left;
             apply filter_limit_nil; by apply Forall_app).
      exists ((l1 ++ l2) ++ ["Passed limit " +:+ api_credits (remote w2)]).
      split.
      * eapply new_lines_trans; [by eapply new_lines_trans|]. done.
      * right. split; [done|]. exists (api_credits (remote w2)).
        rewrite List.filter_app, filter_limit_nil by (by apply Forall_app).
        done.
Qed.

End Reported.

(* ===================================================================== *)
(** * Further properties: the dictionary of the account's albums *)
(* ===================================================================== *)

Section AccountAlbums.

Context {R : Type} `{Api : ImgurApi R}.

Local Open Scope py_scope.

Abbreviation put := (λ (d : gmap (option string) Album) (p : option string * Album),
                       <[p.1 := p.2]> d).

Lemma foldl_put_other (pairs : list (option string * Album)) key :
  key ∉ pairs.*1 -> ∀ d, foldl put d pairs !! key = d !! key.
Proof.
  induction pairs as [|[k v] pairs IH]; intros Hk d; [done|].
  rewrite fmap_cons in Hk. apply not_elem_of_cons in Hk as [Hne Hk].
  cbn. rewrite IH by done. by apply lookup_insert_ne.
Qed.

Lemma foldl_put_keys (pairs : list (option string * Album)) key :
  ∀ d, is_Some (foldl put d pairs !! key)
       <-> is_Some (d !! key) ∨ key ∈ pairs.*1.
Proof.
  induction pairs as [|[k v] pairs IH]; intros d.
  - cbn. split; [by left|]. intros [?|Hin]; [done|]. by apply elem_of_nil in Hin.
  - cbn [foldl fst snd]. rewrite IH, fmap_cons, elem_of_cons. cbn [fst].
    destruct (decide (k = key)) as [->|Hne].
    + rewrite lookup_insert_eq. split; [intros _; right; by left|eauto].
    + rewrite lookup_insert_ne by done. split.
      * intros [?|?]; [by left|right; by right].
      * intros [?|[?|?]]; [by left|done|by right].
Qed.

Lemma foldl_put_last (pairs : list (option string * Album)) :
  ∀ i k v d,
    pairs !! i = Some (k, v) ->
    (∀ j p, i < j -> pairs !! j = Some p -> p.1 ≠ k) ->
    foldl put d pairs !! k = Some v.
Proof.
  induction pairs as [|p pairs IH]; intros i k v d Hi Hlater; [done|].
  destruct i as [|i]; cbn in Hi.
  - injection Hi as ->. cbn. rewrite foldl_put_other.
    + apply lookup_insert_eq.
    + intros Hin. apply list_elem_of_fmap in Hin as (q & Hq & Hin).
      apply list_elem_of_lookup in Hin as [j Hj].
      apply (Hlater (S j) q); [lia|done|done].
  - cbn. apply (IH i); [done|]. intros j q Hj Hq.
    apply (Hlater (S j) q); [lia|done].
Qed.

Abbreviation fetch_one :=
  (fun (d : gmap (option string) Album) (album : Album) =>
     full <- client_get_album (R:=R) (album_id album) ;;
     ret (<[album_title album := full]> d)).

Lemma fetch_one_run d album (w : World R) :
  fetch_one d album w
  = match api_get_album (album_id album) (remote w) with
    | (Ok full, r1) =>
        (Ok (<[album_title album := full]> d),
         {| remote := r1; calls := calls w ++ [GetAlbum (album_id album)];
            stdout := stdout w; stdin := stdin w;
            config_file := config_file w; files := files w |})
    | (Raise e, r1) =>
        (Raise e,
         {| remote := r1; calls := calls w ++ [GetAlbum (album_id album)];
            stdout := stdout w; stdin := stdin w;
            config_file := config_file w; files := files w |})
    end.
Proof.
  cbn beta. rewrite bind_run. unfold client_get_album, client_call.
  by destruct (api_get_album (album_id album) (remote w)) as [[full|e] r1].
Qed.

(** The loop of the dictionary comprehension, from any dictionary. *)
Lemma fetch_fold listing :
  ∀ (d : gmap (option string) Album) (w : World R),
    let run := for_fold listing d fetch_one w in
    (∃ l, new_calls w run.2 l
          ∧ l `prefix_of` map (fun album => GetAlbum (album_id album)) listing
          ∧ (∀ d', run.1 = Ok d' ->
               l = map (fun album => GetAlbum (album_id album)) listing))
    ∧ ∀ d', run.1 = Ok d' ->
        (fetched listing (remote w)).*1 = album_title <$> listing
        ∧ d' = foldl put d (fetched listing (remote w)).
Proof.
  induction listing as [|album rest IH]; intros d w run; subst run.
  - cbn. split.
    + exists []. split; [apply new_calls_refl|]. done.
    + by intros d' [= <-].
  - rewrite for_fold_cons, fetch_one_run. cbn [fetched].
    destruct (api_get_album (album_id album) (remote w)) as [[full|e] r1].
    + set (w1 := {| remote := r1 |}).
      destruct (IH (<[album_title album := full]> d) w1) as [(l & Hl & Hpre & Hall) Hok].
      cbn zeta in *. split.
      * exists (GetAlbum (album_id album) :: l). split.
        -- unfold new_calls in *. rewrite Hl. cbn. by rewrite <- app_assoc.
        -- split; [by apply prefix_cons|]. intros d' Hd'. cbn. f_equal.
           by apply (Hall d').
      * intros d' Hd'. destruct (Hok d' Hd') as [Ht ->]. cbn [remote w1] in *.
        split; [|done]. rewrite !fmap_cons. cbn. by rewrite Ht.
    + split; [|done]. exists [GetAlbum (album_id album)].
      split; [done|]. split; [by apply prefix_cons, prefix_nil|done].
Qed.

(** X3: the dictionary of the account's albums.  After the listing, the
    listed albums are fetched in full one by one, in the order of the
    listing, and a failure stops the run there.  When all succeed, the keys
    of the dictionary are the listed titles, and a title listed several
    times stands for the album listed last under it. *)
Theorem X3_last_listed_album_wins (user : string) (listing : list Album)
  (r1 : R) (w : World R) :
  api_get_account_albums user (remote w) = (Ok listing, r1) ->
  let run := fetch_all_albums user w in
  (∃ l, new_calls w run.2 l ∧ l `prefix_of` fetch_calls user listing)
  ∧ ∀ d, run.1 = Ok d ->
      new_calls w run.2 (fetch_calls user listing)
      ∧ (∀ key, is_Some (d !! key) <-> key ∈ album_title <$> listing)
      ∧ (∀ i album,
           listing !! i = Some album ->
           (∀ j later, i < j -> listing !! j = Some later ->
                       album_title later ≠ album_title album) ->
           ∃ full, fetched listing r1 !! i = Some (album_title album, full)
                   ∧ d !! album_title album = Some full).
Proof.
  intros Hlist run. subst run.
  set (w1 := {| remote := r1; calls := calls w ++ [GetAccountAlbums user];
                stdout := stdout w; stdin := stdin w;
                config_file := config_file w; files := files w |}).
  assert (fetch_all_albums user w = for_fold listing ∅ fetch_one w1) as ->.
  { unfold fetch_all_albums. rewrite bind_run.
    unfold client_get_account_albums, client_call. by rewrite Hlist. }
  destruct (fetch_fold listing ∅ w1) as [(l & Hl & Hpre & Hall) Hok].
  cbn zeta in *.
  assert (new_calls w w1 [GetAccountAlbums user]) as Hw1 by done.
  split.
  - exists (GetAccountAlbums user :: l). split.
    + by apply (new_calls_trans w w1 _ [GetAccountAlbums user] l).
    + by apply prefix_cons.
  - intros d Hd. pose proof (Hall d Hd) as Hcalls.
    destruct (Hok d Hd) as [Ht ->]. cbn [remote w1] in *.
    split; [|split].
    + rewrite Hcalls in Hl.
      by apply (new_calls_trans w w1 _ [GetAccountAlbums user] _).
    + intros key. rewrite foldl_put_keys, Ht, lookup_empty. split.
      * intros [[? ?]|?]; done.
      * by right.
    + intros i album Hi Hlater.
      assert ((fetched listing r1).*1 !! i = Some (album_title album)) as Hk.
      { by rewrite Ht, list_lookup_fmap, Hi. }
      rewrite list_lookup_fmap in Hk.
      destruct (fetched listing r1 !! i) as [[k full]|] eqn:Hf; [|done].
      injection Hk as ->. exists full. split; [done|].
      apply (foldl_put_last _ i); [done|].
      intros j [k' v'] Hj Hp. cbn.
      assert ((fetched listing r1).*1 !! j = Some k') as Hk'
        by (by rewrite list_lookup_fmap, Hp).
      rewrite Ht, list_lookup_fmap in Hk'.
      destruct (listing !! j) as [later|] eqn:Hlj; [|done].
      injection Hk' as <-. by apply (Hlater j later).
Qed.

End AccountAlbums.

(* ===================================================================== *)
(** * Further properties of the scanner *)
(* ===================================================================== *)

Section ScannerOutput.

Variables (fsys : FileSystem) (root_dir : string).
Hypothesis cwd_absolute : PosixPath.isabs (fs_cwd fsys) = true.

Lemma groups_of_elem n title pngs :
  wf_node n = true ->
  (title, pngs) ∈ groups_of n ->
  ∃ ds es, (ds, es) ∈ dirs_under n ∧ Forall (λ d, valid_name d = true) ds
           ∧ title = rel_path ds ∧ pngs = pngs_of es ∧ pngs ≠ [].
Proof.
  intros Hwf Hg. unfold groups_of in Hg.
  apply list_elem_of_In, in_flat_map in Hg as ([ds es] & Hd & Hg).
  apply list_elem_of_In in Hd.
  destruct (TreeFacts.dirs_under_subdir _ Hwf _ _ Hd) as [_ Hv].
  exists ds, es. unfold group_of in Hg. cbn [fst snd] in Hg.
  destruct (pngs_of es) as [|png rest] eqn:Hp; [done|].
  destruct Hg as [[= <- <-]|[]]. done.
Qed.

Lemma groups_of_titles_NoDup (D : list (list string * list (string * fsnode))) :
  NoDup D.*1 ->
  Forall (λ d, Forall (λ x, valid_name x = true) (fst d)) D ->
  NoDup (flat_map group_of D).*1.
Proof.
  induction D as [|[ds es] D IH]; intros Hnd Hall; [constructor|].
  rewrite fmap_cons in Hnd. apply NoDup_cons in Hnd as [Hds Hnd].
  inversion Hall as [|? ? Hv Hall']; subst. cbn [fst] in *.
  cbn [flat_map]. rewrite fmap_app. apply NoDup_app.
  split; [|split; [|by apply IH]].
  - unfold group_of. cbn [fst snd]. destruct (pngs_of es); [constructor|].
    apply NoDup_singleton.
  - intros title H1 H2. unfold group_of in H1. cbn [fst snd] in H1.
    destruct (pngs_of es) as [|png rest]; [by apply elem_of_nil in H1|].
    apply list_elem_of_singleton in H1. subst title.
    apply list_elem_of_fmap in H2 as ([t ps] & Ht & Hin). cbn in Ht.
    apply list_elem_of_In, in_flat_map in Hin as ([ds' es'] & Hd' & Hg).
    unfold group_of in Hg. cbn [fst snd] in Hg.
    destruct (pngs_of es'); [done|]. destruct Hg as [[= <- <-]|[]].
    apply list_elem_of_In in Hd'.
    assert (ds = ds') as <-.
    { apply rel_path_inj; [done| |done].
      rewrite Forall_forall in Hall'. by apply (Hall' (ds', es')). }
    apply Hds. apply list_elem_of_fmap. by exists (ds, es').
Qed.

Lemma filenames_NoDup es :
  NoDup (map fst es) -> NoDup (OS.filenames es).
Proof.
  unfold OS.filenames. induction es as [|[name n] es IH]; [constructor|].
  cbn [map fst List.filter snd]. intros Hnd%NoDup_cons. destruct Hnd as [Hn Hnd].
  destruct (negb (OS.is_dir n)); [|by apply IH].
  cbn [map fst]. apply NoDup_cons. split; [|by apply IH].
  intros Hin. apply Hn. apply list_elem_of_fmap in Hin as (e & -> & Hin).
  apply list_elem_of_In, List.filter_In in Hin as [Hin _].
  apply list_elem_of_fmap. exists e. split; [done|by apply list_elem_of_In].
Qed.

Lemma dirs_under_wf n :
  ∀ ds es, wf_node n = true -> (ds, es) ∈ dirs_under n ->
           wf_node (FDir es) = true.
Proof.
  induction n as [|es0 IH] using TreeFacts.fsnode_nested_ind;
    intros ds es Hwf Hin.
  - by apply elem_of_nil in Hin.
  - apply TreeFacts.dirs_under_elem in Hin
      as [[-> ->]|(name & child & ds' & -> & He & Hd)]; [done|].
    apply TreeFacts.wf_dir in Hwf as [_ Hall].
    rewrite Forall_forall in IH, Hall.
    destruct (Hall _ He) as [_ Hwfc]. by apply (IH _ He ds' es).
Qed.

Lemma rel_path_starts ds : PyStr.startswith (rel_path ds) REPO_DIR = true.
Proof.
  unfold PyStr.startswith. apply StrFacts.prefix_iff. unfold rel_path.
  destruct ds as [|d ds].
  - exists "". by rewrite StrFacts.app_nil_r.
  - rewrite PathFacts.join_cons. eauto.
Qed.

(** X8: what the scanner returns for a tree.  The groups bear pairwise
    different titles, each starting with [lnxpcs]; no group is empty; the
    files of a group are listed once each, are names of regular files of
    the directory, and all end in [.png]. *)
Theorem X8_groups_are_distinct_and_non_empty (top_es : list (string * fsnode)) :
  OS.resolve fsys (PosixPath.join root_dir REPO_DIR) = Some (FDir top_es) ->
  wf_node (FDir top_es) = true ->
  ∃ groups,
    find_all_images fsys root_dir = Ok groups
    ∧ NoDup groups.*1
    ∧ ∀ title pngs,
        (title, pngs) ∈ groups ->
        PyStr.startswith title REPO_DIR = true
        ∧ pngs ≠ []
        ∧ NoDup pngs
        ∧ ∀ png, png ∈ pngs ->
            PyStr.endswith png ".png" = true ∧ valid_name png = true.
Proof.
  intros Hres Hwf. exists (groups_of (FDir top_es)).
  split; [by apply find_all_images_groups|]. split.
  - apply groups_of_titles_NoDup; [by apply TreeFacts.dirs_under_NoDup|].
    apply Forall_forall. intros [ds es] Hin.
    by apply (TreeFacts.dirs_under_subdir _ Hwf) in Hin as [_ ?].
  - intros title pngs Hg.
    apply groups_of_elem in Hg as (ds & es & Hd & Hv & -> & -> & Hne); [|done].
    split; [apply rel_path_starts|]. split; [done|].
    pose proof (dirs_under_wf _ ds es Hwf Hd) as Hwfes.
    apply TreeFacts.wf_dir in Hwfes as [Hnd Hall].
    split.
    + unfold pngs_of. apply NoDup_ListNoDup, List.NoDup_filter, NoDup_ListNoDup.
      by apply filenames_NoDup.
    + intros png Hpng. apply pngs_of_spec in Hpng as [(n & Hin & _) Hend].
      split; [done|]. rewrite Forall_forall in Hall.
      by destruct (Hall _ Hin) as [? _].
Qed.

(** X9: the scanner never fails on a tree.  Where [root_dir/lnxpcs] is no
    directory it returns the empty list, and where it is one the list is
    empty exactly when no directory at or below it has a file ending in
    [.png]. *)
Theorem X9_no_images_gives_the_empty_list :
  ((∀ es, OS.resolve fsys (PosixPath.join root_dir REPO_DIR) ≠ Some (FDir es)) ->
   find_all_images fsys root_dir = Ok [])
  ∧ (∀ top_es,
       OS.resolve fsys (PosixPath.join root_dir REPO_DIR) = Some (FDir top_es) ->
       wf_node (FDir top_es) = true ->
       (find_all_images fsys root_dir = Ok []
        <-> ∀ ds es, subdir (FDir top_es) ds = Some (FDir es) -> pngs_of es = [])).
Proof.
  split.
  - intros Hno. unfold find_all_images, OS.walk.
    destruct (OS.resolve fsys _) as [[|es]|]; [done| |done].
    by destruct (Hno es).
  - intros top_es Hres Hwf. rewrite (find_all_images_groups _ _ cwd_absolute _ Hres Hwf).
    split.
    + intros [= Hnil] ds es Hs. apply TreeFacts.subdir_dirs_under in Hs.
      destruct (pngs_of es) as [|png rest] eqn:Hp; [done|]. exfalso.
      assert ((rel_path ds, png :: rest) ∈ groups_of (FDir top_es)) as Hin.
      { unfold groups_of. apply list_elem_of_In, in_flat_map. exists (ds, es).
        split; [by apply list_elem_of_In|]. unfold group_of. cbn [fst snd].
        rewrite Hp. by left. }
      rewrite Hnil in Hin. by apply elem_of_nil in Hin.
    + intros Hnone. f_equal.
      destruct (groups_of (FDir top_es)) as [|[title pngs] rest] eqn:Hg; [done|].
      exfalso.
      assert ((title, pngs) ∈ groups_of (FDir top_es)) as Hin
        by (rewrite Hg; left).
      apply groups_of_elem in Hin as (ds & es & Hd & _ & _ & -> & Hne); [|done].
      apply (TreeFacts.dirs_under_subdir _ Hwf) in Hd as [Hs _].
      by apply Hne, (Hnone ds).
Qed.

End ScannerOutput.

(* ===================================================================== *)
(** * Further properties of the source URLs *)
(* ===================================================================== *)

Module UrlFacts.

#[local] Arguments String.append !_ _ / : simpl nomatch.

Lemma not_occurs_short old s :
  String.length s < String.length old -> ¬ occurs_in old s.
Proof.
  intros Hlen (pre & post & ->). rewrite !StrFacts.length_app in Hlen. lia.
Qed.

(** An occurrence of a name without separator lies on one side of a
    separator. *)
Lemma occurs_in_sep old a b :
  has_char PosixPath.sep old = false -> old ≠ "" ->
  occurs_in old (a +:+ "/" +:+ b) -> occurs_in old a ∨ occurs_in old b.
Proof.
  intros Hfree Hold (pre & post & Heq).
  apply StrFacts.app_eq_app in Heq as [(k & -> & Hk)|(k & -> & Hk)].
  - right. destruct k as [|c k]; cbn in Hk.
    + destruct old as [|c old]; [done|]. cbn in Hk. injection Hk as <- _.
      cbn in Hfree. done.
    + injection Hk as _ ->. by exists k, post.
  - apply StrFacts.app_eq_app in Hk as [(j & -> & Hj)|(j & -> & Hj)].
    + left. by exists pre, j.
    + destruct j as [|c j]; cbn in Hj.
      * left. exists pre, "". by rewrite !StrFacts.app_nil_r.
      * injection Hj as <- _. rewrite PathFacts.has_char_app in Hfree.
        cbn in Hfree. by rewrite orb_true_r in Hfree.
Qed.

Lemma not_occurs_join old ds :
  has_char PosixPath.sep old = false -> old ≠ "" ->
  Forall (λ d, ¬ occurs_in old d) ds ->
  ¬ occurs_in old (PyStr.join "/" ds).
Proof.
  intros Hfree Hold. induction 1 as [|d ds Hd Hds IH].
  - apply not_occurs_short. destruct old; [done|]. cbn. lia.
  - destruct ds as [|d' ds]; [done|]. rewrite PathFacts.join_cons.
    intros Hocc. by apply occurs_in_sep in Hocc as [?|?].
Qed.

Lemma old_only_at_end old :
  ∀ p q, "" +:+ old = p +:+ old +:+ q -> q = "".
Proof.
  intros p q H. apply (f_equal String.length) in H.
  rewrite !StrFacts.length_app in H. cbn in H. apply StrFacts.length_zero. lia.
Qed.

Lemma replace_leading old new rest :
  old ≠ "" -> ¬ occurs_in old rest ->
  PyStr.replace (old +:+ rest) old new = new +:+ rest.
Proof.
  intros Hold Hno.
  apply (StrFacts.Substituted_functional old new (old +:+ rest)).
  - by apply StrFacts.replace_Substituted.
  - apply (Subst_first old new "" rest rest); [apply old_only_at_end|].
    by apply Subst_none.
Qed.

Lemma replace_twice new rest :
  ¬ occurs_in REPO_DIR rest ->
  PyStr.replace (REPO_DIR +:+ "/" +:+ REPO_DIR +:+ rest) REPO_DIR new
  = new +:+ "/" +:+ new +:+ rest.
Proof.
  intros Hno.
  apply (StrFacts.Substituted_functional REPO_DIR new
           (REPO_DIR +:+ "/" +:+ REPO_DIR +:+ rest)).
  - by apply StrFacts.replace_Substituted.
  - apply (Subst_first REPO_DIR new "" ("/" +:+ REPO_DIR +:+ rest)
             ("/" +:+ new +:+ rest)); [apply old_only_at_end|].
    apply (Subst_first REPO_DIR new "/" rest rest); [|by apply Subst_none].
    intros p q H. destruct p as [|c p]; [done|].
    cbn in H. injection H as _ H. by apply (old_only_at_end REPO_DIR p q).
Qed.

(** X10: the URL of a scanned directory.  When no directory name on the way
    holds the word [lnxpcs], the album of [lnxpcs/d1/.../dk] gets the URL of
    that directory in the hosted tree,
    [https://github.com/jstpcs/lnxpcs/tree/master/d1/.../dk].  The
    substitution takes every occurrence: a directory [lnxpcs<rest>] right
    below the root has the segment put in a second time. *)
Theorem X10_url_of_a_scanned_directory :
  (∀ ds, Forall (λ d, ¬ occurs_in REPO_DIR d) ds ->
         album_url_of (rel_path ds)
         = ROOT_URL +:+ PyStr.join "/" ("lnxpcs/tree/master" :: ds))
  ∧ (∀ rest, ¬ occurs_in REPO_DIR rest ->
             album_url_of (rel_path [REPO_DIR +:+ rest])
             = ROOT_URL +:+ "lnxpcs/tree/master/lnxpcs/tree/master" +:+ rest).
Proof.
  split.
  - intros ds Hds. unfold album_url_of, rel_path. f_equal.
    destruct ds as [|d ds].
    + reflexivity.
    + rewrite !PathFacts.join_cons. apply replace_leading; [done|].
      intros Hocc.
      apply (occurs_in_sep REPO_DIR "" (PyStr.join "/" (d :: ds))) in Hocc
        as [Hocc|Hocc]; [| |done|done].
      * revert Hocc. apply not_occurs_short. cbn. lia.
      * revert Hocc. by apply not_occurs_join.
  - intros rest Hno. unfold album_url_of, rel_path. f_equal.
    rewrite PathFacts.join_cons. cbn [PyStr.join].
    by rewrite (replace_twice "lnxpcs/tree/master" rest Hno).
Qed.

End UrlFacts.

(* ===================================================================== *)
(** * Path resolution against [join], [normpath] and [basename] *)
(* ===================================================================== *)

Module ResolveFacts.

#[local] Arguments String.append !_ _ / : simpl nomatch.

Lemma resolve_resolve_stack fsys p :
  OS.resolve fsys p
  = match p with
    | "" => None
    | _ => match resolve_stack fsys p with
           | Some (n :: _) => Some n
           | _ => None
           end
    end.
Proof.
  unfold OS.resolve, resolve_stack.
  destruct p as [|c p]; [done|].
  destruct (PosixPath.isabs _); [done|].
  by destruct (OS.descend_stack [fs_root fsys] _).
Qed.

Lemma descend_app xs :
  ∀ stack ys,
    OS.descend_stack stack (xs ++ ys)
    = match OS.descend_stack stack xs with
      | Some stack' => OS.descend_stack stack' ys
      | None => None
      end.
Proof.
  induction xs as [|x xs IH]; intros stack ys; [done|].
  cbn [app OS.descend_stack].
  destruct (_ || _); [apply IH|].
  destruct stack as [|[|es] parents]; [done..|].
  destruct (String.eqb x "..").
  - destruct parents; apply IH.
  - destruct (OS.lookup_entry x es); [apply IH|done].
Qed.

Lemma descend_empty stack : OS.descend_stack stack [""] = Some stack.
Proof. done. Qed.

Lemma descend_plain comp stack :
  plain comp ->
  OS.descend_stack stack [comp]
  = match stack with
    | FDir es :: _ =>
        match OS.lookup_entry comp es with
        | Some child => Some (child :: stack)
        | None => None
        end
    | _ => None
    end.
Proof.
  intros (H1 & H2 & H3). apply String.eqb_neq in H1, H2, H3.
  cbn [OS.descend_stack]. rewrite H1, H2. cbn [orb].
  destruct stack as [|[|es] parents]; [done..|]. rewrite H3.
  by destruct (OS.lookup_entry comp es).
Qed.

(** The components of a join: those of the first path, a trailing empty
    one left out, then those of the second. *)
Lemma join_split_rel a b :
  PyStr.startswith b "/" = false ->
  ∃ xs, PyStr.split PosixPath.sep (PosixPath.join a b)
        = xs ++ PyStr.split PosixPath.sep b
        ∧ (a = "" ∧ xs = []
           ∨ PyStr.split PosixPath.sep a = xs
           ∨ PyStr.split PosixPath.sep a = xs ++ [""]).
Proof.
  intros Hb. unfold PosixPath.join. rewrite Hb.
  destruct (String.eqb_spec a "") as [->|Hne]; cbn [orb].
  - exists []. split; [done|by left].
  - destruct (PyStr.endswith a "/") eqn:Hend.
    + apply PathFacts.endswith_sep in Hend as [a' ->].
      exists (PyStr.split PosixPath.sep a').
      rewrite StrFacts.app_assoc.
      change ("/" +:+ b) with (String PosixPath.sep b).
      change (a' +:+ "/") with (a' +:+ String PosixPath.sep "").
      rewrite !PathFacts.split_app_sep. split; [done|]. right. by right.
    + exists (PyStr.split PosixPath.sep a).
      change ("/" +:+ b) with (String PosixPath.sep b).
      rewrite PathFacts.split_app_sep. split; [done|]. right. by left.
Qed.

Lemma descend_join a b stack :
  PyStr.startswith b "/" = false ->
  OS.descend_stack stack (PyStr.split PosixPath.sep (PosixPath.join a b))
  = match OS.descend_stack stack (PyStr.split PosixPath.sep a) with
    | Some stack' => OS.descend_stack stack' (PyStr.split PosixPath.sep b)
    | None => None
    end.
Proof.
  intros Hb. destruct (join_split_rel a b Hb) as (xs & -> & [[-> ->]|[<-|Ha]]).
  - done.
  - apply descend_app.
  - rewrite Ha, !descend_app.
    by destruct (OS.descend_stack stack xs).
Qed.

Lemma isabs_join a b :
  PyStr.startswith b "/" = false ->
  PosixPath.isabs (PosixPath.join a b) = PosixPath.isabs a.
Proof.
  intros Hb. unfold PosixPath.isabs, PosixPath.join. rewrite Hb.
  destruct (String.eqb_spec a "") as [->|Hne]; cbn [orb]; [done|].
  destruct (PyStr.endswith a "/"); by apply PathFacts.startswith_app_nonempty.
Qed.

(** Resolving a join: resolve the first path, go on with the second. *)
Lemma resolve_stack_join fsys a b :
  PyStr.startswith b "/" = false ->
  resolve_stack fsys (PosixPath.join a b)
  = match resolve_stack fsys a with
    | Some stack => OS.descend_stack stack (PyStr.split PosixPath.sep b)
    | None => None
    end.
Proof.
  intros Hb. unfold resolve_stack. rewrite (isabs_join a b Hb).
  destruct (if PosixPath.isabs a then _ else _) as [stack|]; [|done].
  by apply descend_join.
Qed.

Lemma valid_plain name : valid_name name = true -> plain name.
Proof. intros H. by apply PathFacts.valid_name_spec in H as (? & ? & ? & _). Qed.

Lemma descend_subdir ds :
  Forall (λ d, valid_name d = true) ds ->
  ∀ n0 n stack,
    subdir n0 ds = Some n ->
    ∃ stack', OS.descend_stack (n0 :: stack) ds = Some (n :: stack').
Proof.
  induction 1 as [|d ds Hd _ IH]; intros n0 n stack Hs.
  - injection Hs as <-. by exists stack.
  - cbn [subdir] in Hs. destruct n0 as [|es]; [done|].
    destruct (OS.lookup_entry d es) as [child|] eqn:Hl; [|done].
    change (d :: ds) with ([d] ++ ds). rewrite descend_app.
    rewrite (descend_plain d _ (valid_plain _ Hd)), Hl.
    by apply IH.
Qed.

End ResolveFacts.

(* ===================================================================== *)
(** * The paths handed to the uploader *)
(* ===================================================================== *)

Section UploadPaths.

Variables (fsys : FileSystem) (root_dir : string).
Hypothesis cwd_absolute : PosixPath.isabs (fs_cwd fsys) = true.

Lemma rel_path_split ds :
  Forall (λ d, valid_name d = true) ds ->
  PyStr.split PosixPath.sep (rel_path ds) = [REPO_DIR] ++ ds.
Proof.
  intros Hv. unfold rel_path. apply PathFacts.split_join; [done|].
  constructor; [done|]. eapply Forall_impl; [exact Hv|].
  intros d Hd. by apply PathFacts.valid_name_spec in Hd as (_ & _ & _ & ?).
Qed.

Lemma rel_path_relative ds : PyStr.startswith (rel_path ds) "/" = false.
Proof.
  unfold rel_path. destruct ds as [|d ds]; [done|].
  by rewrite PathFacts.join_cons.
Qed.

Lemma resolve_stack_Some p n :
  OS.resolve fsys p = Some n ->
  ∃ stack, resolve_stack fsys p = Some (n :: stack).
Proof.
  rewrite ResolveFacts.resolve_resolve_stack. destruct p as [|c p]; [done|].
  destruct (resolve_stack fsys (String c p)) as [[|n' stack]|]; [done| |done].
  intros [= ->]. by exists stack.
Qed.

(** The directory of a group, under the path the loop builds for it. *)
Lemma resolve_stack_group top_es ds es :
  OS.resolve fsys (PosixPath.join root_dir REPO_DIR) = Some (FDir top_es) ->
  Forall (λ d, valid_name d = true) ds ->
  subdir (FDir top_es) ds = Some (FDir es) ->
  ∃ stack,
    resolve_stack fsys (PosixPath.join root_dir (rel_path ds))
    = Some (FDir es :: stack).
Proof.
  intros Hres Hv Hs. apply resolve_stack_Some in Hres as [st Hst].
  rewrite ResolveFacts.resolve_stack_join in Hst by done.
  rewrite ResolveFacts.resolve_stack_join by apply rel_path_relative.
  destruct (resolve_stack fsys root_dir) as [st0|]; [|done].
  rewrite rel_path_split, ResolveFacts.descend_app by done.
  change (PyStr.split PosixPath.sep REPO_DIR) with [REPO_DIR] in Hst.
  rewrite Hst. by apply ResolveFacts.descend_subdir.
Qed.

Lemma resolve_group_entry top_es ds es name n :
  OS.resolve fsys (PosixPath.join root_dir REPO_DIR) = Some (FDir top_es) ->
  Forall (λ d, valid_name d = true) ds ->
  subdir (FDir top_es) ds = Some (FDir es) ->
  valid_name name = true ->
  OS.lookup_entry name es = Some n ->
  OS.resolve fsys (PosixPath.join3 root_dir (rel_path ds) name) = Some n.
Proof.
  intros Hres Hv Hs Hname Hl.
  destruct (resolve_stack_group _ _ _ Hres Hv Hs) as [stack Hst].
  pose proof (PathFacts.valid_name_spec _ Hname) as (Hne & _ & _ & Hfree).
  unfold PosixPath.join3, PosixPath.join_all. cbn [fold_left].
  rewrite ResolveFacts.resolve_resolve_stack.
  pose proof (PathFacts.join_nonempty
                (PosixPath.join root_dir (rel_path ds)) name Hne) as Hnonempty.
  destruct (PosixPath.join (PosixPath.join root_dir (rel_path ds)) name)
    as [|c p] eqn:Hp; [done|].
  rewrite <- Hp, ResolveFacts.resolve_stack_join, Hst
    by (by apply PathFacts.startswith_free).
  rewrite (PathFacts.split_free _ _ Hfree).
  rewrite (ResolveFacts.descend_plain name _ (ResolveFacts.valid_plain _ Hname)).
  by rewrite Hl.
Qed.

(** X11: in a tree of directories and regular files, what the scanner
    reports is where the loop looks for it.  Joined to the scanned root,
    the title of every group names the directory the group was found in,
    and joined with a file of the group, as the loop does for
    [image_file_path], it names the very entry of that directory the
    scanner listed, which is no directory. *)
Theorem X11_built_paths_name_the_listed_entries (top_es : list (string * fsnode)) :
  OS.resolve fsys (PosixPath.join root_dir REPO_DIR) = Some (FDir top_es) ->
  wf_node (FDir top_es) = true ->
  ∃ groups,
    find_all_images fsys root_dir = Ok groups
    ∧ ∀ title pngs,
        (title, pngs) ∈ groups ->
        ∃ ds es,
          subdir (FDir top_es) ds = Some (FDir es)
          ∧ title = rel_path ds
          ∧ OS.resolve fsys (PosixPath.join root_dir title) = Some (FDir es)
          ∧ ∀ png, png ∈ pngs ->
              ∃ n, OS.lookup_entry png es = Some n
                   ∧ OS.is_dir n = false
                   ∧ OS.resolve fsys (PosixPath.join3 root_dir title png)
                     = Some n.
Proof.
  intros Hres Hwf. exists (groups_of (FDir top_es)).
  split; [by apply find_all_images_groups|].
  intros title pngs Hg.
  apply groups_of_elem in Hg as (ds & es & Hd & Hv & -> & -> & _); [|done].
  pose proof (dirs_under_wf _ ds es Hwf Hd) as Hwfes.
  apply TreeFacts.wf_dir in Hwfes as [Hnd Hall].
  apply (TreeFacts.dirs_under_subdir _ Hwf) in Hd as [Hs _].
  exists ds, es. split; [done|]. split; [done|]. split.
  - destruct (resolve_stack_group _ _ _ Hres Hv Hs) as [stack Hst].
    rewrite ResolveFacts.resolve_resolve_stack, Hst.
    pose proof (PathFacts.join_nonempty root_dir (rel_path ds)) as Hne.
    destruct (PosixPath.join root_dir (rel_path ds)); [|done].
    exfalso. apply Hne; [|done]. unfold rel_path.
    destruct ds; [done|]. by rewrite PathFacts.join_cons.
  - intros png Hpng. apply pngs_of_spec in Hpng as [(n & Hin & Hfile) _].
    rewrite Forall_forall in Hall. destruct (Hall _ Hin) as [Hname _].
    pose proof (TreeFacts.lookup_entry_unique _ _ _ Hnd Hin) as Hl.
    exists n. split; [done|]. split; [done|].
    by apply (resolve_group_entry top_es ds es).
Qed.

End UploadPaths.

(* ===================================================================== *)
(** * The directory [main] scans *)
(* ===================================================================== *)

Module ParentFacts.

#[local] Arguments String.append !_ _ / : simpl nomatch.

(** ** [basename] is the last component *)

Lemma rfind_from_app c a s :
  ∀ i last,
    PyStr.rfind_from c (a +:+ s) i last
    = PyStr.rfind_from c s (i + Z.of_nat (String.length a))
        (PyStr.rfind_from c a i last).
Proof.
  induction a as [|d a IH]; intros i last.
  - cbn. by rewrite Z.add_0_r.
  - cbn [String.append PyStr.rfind_from String.length]. rewrite IH.
    f_equal. lia.
Qed.

Lemma rfind_from_free c s :
  has_char c s = false -> ∀ i last, PyStr.rfind_from c s i last = last.
Proof.
  induction s as [|d s IH]; intros Hfree i last; [done|].
  cbn [has_char] in Hfree. apply orb_false_iff in Hfree as [Hd Hs].
  cbn [PyStr.rfind_from]. rewrite Hd. by apply IH.
Qed.

Lemma drop_app_sep a c b :
  PyStr.drop (S (String.length a)) (a +:+ String c b) = b.
Proof. induction a as [|d a IH]; [done|]. exact IH. Qed.

Lemma basename_free b :
  has_char PosixPath.sep b = false -> PosixPath.basename b = b.
Proof.
  intros Hfree. unfold PosixPath.basename, PyStr.rfind.
  by rewrite rfind_from_free.
Qed.

Lemma basename_app_sep a b :
  has_char PosixPath.sep b = false ->
  PosixPath.basename (a +:+ String PosixPath.sep b) = b.
Proof.
  intros Hfree. unfold PosixPath.basename, PyStr.rfind.
  rewrite rfind_from_app. cbn [PyStr.rfind_from].
  rewrite Ascii.eqb_refl, rfind_from_free by done.
  replace (Z.to_nat (0 + Z.of_nat (String.length a) + 1))
    with (S (String.length a)) by lia.
  apply drop_app_sep.
Qed.

Lemma last_separator p :
  has_char PosixPath.sep p = false
  ∨ ∃ a b, p = a +:+ String PosixPath.sep b ∧ has_char PosixPath.sep b = false.
Proof.
  induction p as [|d p IH]; [by left|].
  destruct IH as [Hfree|(a & b & -> & Hb)].
  - destruct (Ascii.eqb d PosixPath.sep) eqn:Hd.
    + right. apply Ascii.eqb_eq in Hd as ->. by exists "", p.
    + left. cbn [has_char]. by rewrite Hd.
  - right. by exists (String d a), b.
Qed.

Lemma basename_split p :
  ∃ ys, PyStr.split PosixPath.sep p = ys ++ [PosixPath.basename p].
Proof.
  destruct (last_separator p) as [Hfree|(a & b & -> & Hb)].
  - exists []. by rewrite basename_free, PathFacts.split_free.
  - exists (PyStr.split PosixPath.sep a).
    by rewrite basename_app_sep, PathFacts.split_app_sep, (PathFacts.split_free _ b).
Qed.

(** ** Normalising keeps what an absolute path names *)

Lemma descend_norm root comps :
  ∀ acc st st',
    Forall plain acc ->
    OS.descend_stack [root] (rev acc) = Some st ->
    List.length st = S (List.length acc) ->
    OS.descend_stack st comps = Some st' ->
    OS.descend_stack [root] (PosixPath.norm_comps true acc comps) = Some st'.
Proof.
  induction comps as [|comp comps IH]; intros acc st st' Hacc Hst Hlen Hd.
  - cbn in *. congruence.
  - cbn [OS.descend_stack PosixPath.norm_comps] in *.
    destruct (String.eqb comp "" || String.eqb comp ".") eqn:Hskip;
      [by apply (IH acc st)|].
    apply orb_false_iff in Hskip as [H1 H2].
    destruct st as [|[|es] parents]; [done..|].
    destruct (String.eqb_spec comp "..") as [->|H3].
    + cbn [negb andb orb].
      destruct acc as [|a acc'].
      * destruct parents; [|done]. by apply (IH [] [FDir es]).
      * inversion Hacc as [|? ? Ha Hacc']; subst.
        pose proof Ha as (_ & _ & Ha3). apply String.eqb_neq in Ha3 as ->.
        cbn [rev] in Hst. rewrite ResolveFacts.descend_app in Hst.
        destruct (OS.descend_stack [root] (rev acc')) as [s0|] eqn:Hs0; [|done].
        rewrite (ResolveFacts.descend_plain a s0 Ha) in Hst.
        destruct s0 as [|[|es0] ps0]; [done..|].
        destruct (OS.lookup_entry a es0); [|done]. injection Hst as _ <-.
        cbn [List.length] in Hlen. apply (IH acc' (FDir es0 :: ps0)); try done.
        cbn [List.length]. lia.
    + cbn [negb orb].
      destruct (OS.lookup_entry comp es) as [child|] eqn:Hl; [|done].
      assert (plain comp) as Hplain.
      { by split; [|split]; [apply String.eqb_neq..|]. }
      apply (IH (comp :: acc) (child :: FDir es :: parents)); try done.
      * by constructor.
      * cbn [rev]. rewrite ResolveFacts.descend_app, Hst.
        by rewrite (ResolveFacts.descend_plain comp _ Hplain), Hl.
      * cbn [List.length] in *. lia.
Qed.

(** ** [..] after a name undoes the name *)

Lemma norm_comps_snoc_dotdot xs :
  ∀ acc, Forall (λ x, x ≠ "..") acc ->
         PosixPath.norm_comps true acc (xs ++ [".."])
         = removelast (PosixPath.norm_comps true acc xs).
Proof.
  induction xs as [|x xs IH]; intros acc Hacc.
  - cbn [app PosixPath.norm_comps]. change (String.eqb ".." "") with false.
    change (String.eqb ".." ".") with false. change (String.eqb ".." "..") with true.
    cbn [negb andb orb].
    destruct acc as [|a acc']; [done|].
    inversion Hacc as [|? ? Ha _]; subst. apply String.eqb_neq in Ha as ->.
    cbn [rev]. by rewrite removelast_last.
  - cbn [app PosixPath.norm_comps].
    destruct (_ || _); [by apply IH|].
    destruct (String.eqb_spec x "..") as [->|Hx]; cbn [negb andb orb].
    + destruct acc as [|a acc']; [by apply IH|].
      inversion Hacc as [|? ? Ha Hacc']; subst.
      apply String.eqb_neq in Ha as ->. by apply IH.
    + apply IH. by constructor.
Qed.

Lemma descend_slashes n s stack :
  OS.descend_stack stack (PyStr.split PosixPath.sep (PosixPath.slashes n +:+ s))
  = OS.descend_stack stack (PyStr.split PosixPath.sep s).
Proof.
  induction n as [|n IH]; [done|].
  cbn [PosixPath.slashes String.append PyStr.split].
  by rewrite Ascii.eqb_refl.
Qed.

Lemma normpath_form p :
  PyStr.startswith p "/" = true ->
  ∃ k, PosixPath.normpath p
       = PosixPath.slashes (S k)
           +:+ PyStr.join "/"
                 (PosixPath.norm_comps true [] (PyStr.split PosixPath.sep p)).
Proof.
  intros Habs. unfold PosixPath.normpath. destruct p as [|d p]; [done|].
  set (n := PosixPath.initial_slashes (String d p)).
  assert (∃ k, n = S k) as [k Hk].
  { unfold n, PosixPath.initial_slashes. rewrite Habs.
    destruct (_ && _); eauto. }
  rewrite Hk. exists k. by cbn [Nat.eqb negb PosixPath.slashes String.append].
Qed.

Lemma startswith_slashes k s :
  PyStr.startswith (PosixPath.slashes (S k) +:+ s) "/" = true.
Proof.
  cbn [PosixPath.slashes String.append]. by rewrite PathFacts.startswith_cons.
Qed.

(** What a normalised absolute path names is found by descending through
    its normalised components. *)
Lemma resolve_stack_normpath fsys p :
  PyStr.startswith p "/" = true ->
  PyStr.startswith (PosixPath.normpath p) "/" = true
  ∧ resolve_stack fsys (PosixPath.normpath p)
    = OS.descend_stack [fs_root fsys]
        (PosixPath.norm_comps true [] (PyStr.split PosixPath.sep p)).
Proof.
  intros Habs. destruct (normpath_form p Habs) as [k ->].
  split; [apply startswith_slashes|]. unfold resolve_stack, PosixPath.isabs.
  rewrite startswith_slashes.
  rewrite descend_slashes.
  set (comps := PosixPath.norm_comps true [] _).
  assert (Forall PathFacts.clean comps) as Hclean.
  { apply PathFacts.norm_comps_clean; [apply PathFacts.split_all_free|done]. }
  destruct comps as [|x xs]; [done|].
  rewrite PathFacts.split_join; [done..|].
  eapply Forall_impl; [exact Hclean|]. by intros y [_ ?].
Qed.

Lemma resolve_stack_absolutize fsys p :
  PosixPath.isabs (fs_cwd fsys) = true ->
  resolve_stack fsys p
  = OS.descend_stack [fs_root fsys]
      (PyStr.split PosixPath.sep (absolutize (fs_cwd fsys) p)).
Proof.
  intros Hcwd. unfold resolve_stack, absolutize.
  destruct (PosixPath.isabs p) eqn:Hp; [done|].
  by rewrite ResolveFacts.descend_join.
Qed.

End ParentFacts.

(* ===================================================================== *)
(** * [realpath] without links *)
(* ===================================================================== *)

Module RealpathFacts.

#[local] Arguments String.append !_ _ / : simpl nomatch.

Abbreviation clean := (λ x : string, x ≠ "" ∧ has_char PosixPath.sep x = false).

Lemma join_snoc xs x :
  xs ≠ [] -> PyStr.join "/" (xs ++ [x]) = PyStr.join "/" xs +:+ "/" +:+ x.
Proof.
  induction xs as [|y xs IH]; [done|]. intros _.
  destruct xs as [|z zs]; [done|].
  change ((y :: z :: zs) ++ [x]) with (y :: ((z :: zs) ++ [x])).
  cbn [app]. rewrite !PathFacts.join_cons.
  change (z :: zs ++ [x]) with ((z :: zs) ++ [x]). rewrite IH by done.
  by rewrite !StrFacts.app_assoc.
Qed.

Lemma rstrip_end_other c Y d :
  d ≠ c -> PyStr.rstrip c (Y +:+ String d "") = Y +:+ String d "".
Proof.
  intros Hd. induction Y as [|x Y IH].
  - cbn. by apply Ascii.eqb_neq in Hd as ->.
  - cbn [String.append PyStr.rstrip]. rewrite IH. by destruct Y.
Qed.

Lemma rstrip_snoc c Y : PyStr.rstrip c (Y +:+ String c "") = PyStr.rstrip c Y.
Proof.
  induction Y as [|x Y IH].
  - cbn. by rewrite Ascii.eqb_refl.
  - cbn [String.append PyStr.rstrip]. by rewrite IH.
Qed.

Lemma all_char_app c a b :
  PyStr.all_char c (a +:+ b) = PyStr.all_char c a && PyStr.all_char c b.
Proof.
  induction a as [|x a IH]; [done|]. cbn [String.append PyStr.all_char].
  by rewrite IH, andb_assoc.
Qed.

Lemma take_app_sep a c b :
  PyStr.take (S (String.length a)) (a +:+ String c b) = a +:+ String c "".
Proof. induction a as [|d a IH]; [done|]. cbn. f_equal. exact IH. Qed.

Lemma rfind_app_sep a b :
  has_char PosixPath.sep b = false ->
  Z.to_nat (PyStr.rfind (a +:+ String PosixPath.sep b) PosixPath.sep + 1)
  = S (String.length a).
Proof.
  intros Hfree. unfold PyStr.rfind.
  rewrite ParentFacts.rfind_from_app. cbn [PyStr.rfind_from].
  rewrite Ascii.eqb_refl, ParentFacts.rfind_from_free by done. lia.
Qed.

Lemma clean_last b :
  clean b -> ∃ b' d, b = b' +:+ String d "" ∧ d ≠ PosixPath.sep.
Proof.
  intros [Hne Hfree]. induction b as [|x b IH]; [done|].
  cbn [has_char] in Hfree. apply orb_false_iff in Hfree as [Hx Hb].
  destruct b as [|y b].
  - exists "", x. split; [done|]. by apply Ascii.eqb_neq.
  - destruct IH as (b' & d & -> & Hd); [done|done|].
    by exists (String x b'), d.
Qed.

(** The head and tail of [posixpath.split]. *)
Lemma split_plain a :
  has_char PosixPath.sep a = false -> PosixPath.split a = ("", a).
Proof.
  intros Hfree. unfold PosixPath.split, PyStr.rfind.
  by rewrite ParentFacts.rfind_from_free.
Qed.

Lemma split_root a :
  has_char PosixPath.sep a = false -> PosixPath.split ("/" +:+ a) = ("/", a).
Proof.
  intros Hfree. unfold PosixPath.split.
  change ("/" +:+ a) with ("" +:+ String PosixPath.sep a).
  rewrite rfind_app_sep by done.
  by rewrite take_app_sep, ParentFacts.drop_app_sep.
Qed.

Lemma split_below Y d a :
  d ≠ PosixPath.sep -> has_char PosixPath.sep a = false ->
  PosixPath.split ((Y +:+ String d "") +:+ "/" +:+ a) = (Y +:+ String d "", a).
Proof.
  intros Hd Hfree. unfold PosixPath.split.
  change ("/" +:+ a) with (String PosixPath.sep a).
  rewrite rfind_app_sep by done.
  rewrite take_app_sep, ParentFacts.drop_app_sep.
  rewrite PathFacts.eqb_app_nonempty by done.
  rewrite !all_char_app. cbn [PyStr.all_char].
  apply Ascii.eqb_neq in Hd as Hd'. rewrite Hd'.
  rewrite andb_false_r. cbn [andb negb].
  by rewrite rstrip_snoc, rstrip_end_other.
Qed.

(** ** The path [_joinrealpath] has built *)

(** The path standing for the components [acc], last first, below the
    root or not. *)
Abbreviation repr abs acc :=
  ((if abs : bool then "/" else "") +:+ PyStr.join "/" (rev acc)).

Lemma repr_nil abs : repr abs [] = if abs then "/" else "".
Proof. by destruct abs. Qed.

Lemma repr_single abs a : repr abs [a] = (if abs then "/" else "") +:+ a.
Proof. done. Qed.

Lemma repr_cons abs a acc :
  acc ≠ [] -> repr abs (a :: acc) = repr abs acc +:+ "/" +:+ a.
Proof.
  intros Hne. cbn [rev]. rewrite join_snoc.
  - by rewrite !StrFacts.app_assoc.
  - intros H. apply Hne. apply (f_equal (@rev string)) in H.
    by rewrite rev_involutive in H.
Qed.

Lemma repr_last abs a acc :
  Forall clean (a :: acc) ->
  ∃ Y d, repr abs (a :: acc) = Y +:+ String d "" ∧ d ≠ PosixPath.sep.
Proof.
  intros Hall. inversion Hall as [|? ? Ha _]; subst.
  destruct (clean_last a Ha) as (a' & d & -> & Hd).
  destruct acc as [|b acc].
  - exists ((if abs then "/" else "") +:+ a'), d. split; [|done].
    rewrite repr_single. by rewrite !StrFacts.app_assoc.
  - exists (repr abs (b :: acc) +:+ "/" +:+ a'), d. split; [|done].
    rewrite repr_cons by done. by rewrite !StrFacts.app_assoc.
Qed.

Lemma join_repr abs acc name :
  Forall clean acc -> clean name ->
  PosixPath.join (repr abs acc) name = repr abs (name :: acc).
Proof.
  intros Hacc [Hne Hfree]. unfold PosixPath.join.
  rewrite (PathFacts.startswith_free _ Hfree).
  destruct acc as [|b acc].
  - rewrite repr_nil, repr_single. by destruct abs.
  - destruct (repr_last abs b acc Hacc) as (Y & d & HY & Hd).
    rewrite (repr_cons abs name (b :: acc)) by done. rewrite HY.
    rewrite PathFacts.eqb_app_nonempty by done.
    rewrite (PathFacts.endswith_app Y (String d "") "/") by done.
    cbn [PyStr.endswith orb].
    destruct (String.eqb_spec (String d "") "/") as [[= ->]|_]; done.
Qed.

Lemma split_repr abs a acc :
  Forall clean (a :: acc) ->
  PosixPath.split (repr abs (a :: acc)) = (repr abs acc, a).
Proof.
  intros Hall. inversion Hall as [|? ? [Hne Hfree] Hacc]; subst.
  destruct acc as [|b acc].
  - rewrite repr_single, repr_nil. destruct abs.
    + by apply split_root.
    + by apply split_plain.
  - destruct (repr_last abs b acc Hacc) as (Y & d & HY & Hd).
    rewrite (repr_cons abs a (b :: acc)) by done. rewrite HY.
    by apply split_below.
Qed.

Lemma repr_nonempty abs a acc :
  Forall clean (a :: acc) -> repr abs (a :: acc) ≠ "".
Proof.
  intros Hall. destruct (repr_last abs a acc Hall) as (Y & d & -> & _).
  by destruct Y.
Qed.

Lemma joinrealpath_dotdot path rest :
  path ≠ "" ->
  PosixPath.joinrealpath_comps path (".." :: rest)
  = if String.eqb (PosixPath.split path).2 ".."
    then PosixPath.joinrealpath_comps
           (PosixPath.join_all (PosixPath.split path).1 [".."; ".."]) rest
    else PosixPath.joinrealpath_comps (PosixPath.split path).1 rest.
Proof.
  intros Hne. destruct path as [|c p]; [done|].
  cbn [PosixPath.joinrealpath_comps String.eqb Ascii.eqb orb].
  change (String.eqb ".." "") with false. change (String.eqb ".." ".") with false.
  change (String.eqb ".." "..") with true. cbn [orb].
  by destruct (PosixPath.split (String c p)).
Qed.

(** Without links, [_joinrealpath] folds the components as [normpath]
    does. *)
Lemma joinrealpath_comps_repr abs comps :
  Forall (λ x, has_char PosixPath.sep x = false) comps ->
  ∀ acc, Forall clean acc ->
         PosixPath.joinrealpath_comps (repr abs acc) comps
         = repr abs (rev (PosixPath.norm_comps abs acc comps)).
Proof.
  induction 1 as [|name rest Hfree _ IH]; intros acc Hacc.
  - cbn [PosixPath.joinrealpath_comps PosixPath.norm_comps].
    by rewrite rev_involutive.
  - destruct (String.eqb_spec name "..") as [->|Hdd].
    + destruct acc as [|a acc'].
      * destruct abs.
        -- cbn [rev PyStr.join String.append].
           rewrite joinrealpath_dotdot by done.
           change (PosixPath.split "/") with ("/", "").
           cbn [fst snd]. change (String.eqb "" "..") with false.
           cbn [PosixPath.norm_comps]. change (String.eqb ".." "") with false.
           change (String.eqb ".." ".") with false.
           change (String.eqb ".." "..") with true. cbn [orb negb andb].
           exact (IH [] Hacc).
        -- cbn [rev PyStr.join String.append].
           cbn [PosixPath.joinrealpath_comps PosixPath.norm_comps].
           change (String.eqb ".." "") with false.
           change (String.eqb ".." ".") with false.
           change (String.eqb ".." "..") with true. cbn [orb negb andb].
           apply (IH [".."]). by repeat constructor.
      * rewrite joinrealpath_dotdot by (by apply repr_nonempty).
        rewrite (split_repr abs a acc' Hacc). cbn [fst snd].
        inversion Hacc as [|? ? Ha Hacc']; subst.
        cbn [PosixPath.norm_comps]. change (String.eqb ".." "") with false.
        change (String.eqb ".." ".") with false.
        change (String.eqb ".." "..") with true. cbn [orb negb].
        rewrite andb_false_r. cbn [orb].
        destruct (String.eqb_spec a "..") as [->|Ha'].
        -- unfold PosixPath.join_all. cbn [fold_left].
           rewrite !join_repr by (repeat constructor; done).
           apply IH. by repeat constructor.
        -- by apply IH.
    + cbn [PosixPath.joinrealpath_comps PosixPath.norm_comps].
      destruct (String.eqb_spec name "") as [->|Hne]; cbn [orb]; [by apply IH|].
      destruct (String.eqb name "."); [by apply IH|].
      apply String.eqb_neq in Hdd as Hdd'. rewrite Hdd'. cbn [negb orb].
      rewrite join_repr by done. apply IH. by constructor.
Qed.

Lemma joinrealpath_spec q :
  PosixPath.joinrealpath q
  = repr (PosixPath.isabs q)
      (rev (PosixPath.norm_comps (PosixPath.isabs q) []
              (PyStr.split PosixPath.sep q))).
Proof.
  unfold PosixPath.joinrealpath. destruct (PosixPath.isabs q) eqn:Habs.
  - destruct q as [|c q]; [done|]. unfold PosixPath.isabs in Habs.
    rewrite PathFacts.startswith_cons in Habs. apply Ascii.eqb_eq in Habs as ->.
    cbn [PyStr.drop PyStr.split]. rewrite Ascii.eqb_refl.
    cbn [PosixPath.norm_comps String.eqb orb].
    rewrite <- (joinrealpath_comps_repr true); [done| |done].
    apply PathFacts.split_all_free.
  - rewrite <- (joinrealpath_comps_repr false); [done| |done].
    apply PathFacts.split_all_free.
Qed.

(** ** Normalising twice *)

Lemma norm_comps_app abs xs :
  ∀ acc ys,
    PosixPath.norm_comps abs acc (xs ++ ys)
    = PosixPath.norm_comps abs (rev (PosixPath.norm_comps abs acc xs)) ys.
Proof.
  induction xs as [|x xs IH]; intros acc ys.
  - cbn [app PosixPath.norm_comps]. by rewrite rev_involutive.
  - cbn [app PosixPath.norm_comps].
    destruct (_ || _); [apply IH|].
    destruct (_ || _); [apply IH|].
    destruct acc; apply IH.
Qed.

Lemma norm_comps_push abs name acc ys :
  plain name ->
  PosixPath.norm_comps abs acc (name :: ys)
  = PosixPath.norm_comps abs (name :: acc) ys.
Proof.
  intros (H1 & H2 & H3). apply String.eqb_neq in H1, H2, H3.
  cbn [PosixPath.norm_comps]. by rewrite H1, H2, H3.
Qed.

Lemma norm_comps_dotdot acc ys :
  Forall plain acc ->
  PosixPath.norm_comps true acc (".." :: ys)
  = PosixPath.norm_comps true (tail acc) ys.
Proof.
  intros Hacc. cbn [PosixPath.norm_comps].
  change (String.eqb ".." "") with false. change (String.eqb ".." ".") with false.
  change (String.eqb ".." "..") with true. cbn [orb negb andb].
  destruct acc as [|a acc]; [done|].
  inversion Hacc as [|? ? (_ & _ & Ha) _]; subst.
  by apply String.eqb_neq in Ha as ->.
Qed.

Lemma norm_comps_true_plain xs :
  ∀ acc, Forall plain acc -> Forall plain (PosixPath.norm_comps true acc xs).
Proof.
  induction xs as [|x xs IH]; intros acc Hacc.
  - cbn. by apply Forall_rev.
  - destruct (String.eqb_spec x "") as [->|H1]; [by apply IH|].
    destruct (String.eqb_spec x ".") as [->|H2]; [by apply IH|].
    destruct (String.eqb_spec x "..") as [->|H3].
    + rewrite norm_comps_dotdot by done. apply IH.
      destruct acc; [done|]. by inversion Hacc.
    + rewrite norm_comps_push by done. apply IH. by constructor.
Qed.

Lemma norm_comps_plain_id abs xs :
  Forall plain xs -> ∀ acc, PosixPath.norm_comps abs acc xs = rev acc ++ xs.
Proof.
  induction 1 as [|x xs Hx _ IH]; intros acc.
  - cbn. by rewrite app_nil_r.
  - rewrite norm_comps_push by done. rewrite IH. cbn [rev].
    by rewrite <- app_assoc.
Qed.

Lemma norm_comps_snoc abs c acc xs :
  PosixPath.norm_comps abs acc (xs ++ [c])
  = PosixPath.norm_comps abs (rev (PosixPath.norm_comps abs acc xs)) [c].
Proof. apply norm_comps_app. Qed.

(** What is normalised as a relative path normalises, below any
    directory, as the path itself does. *)
Lemma norm_twice ys :
  ∀ acc1 acc2,
    Forall plain acc1 ->
    Forall (λ x, x ≠ "" ∧ x ≠ ".") acc2 ->
    PosixPath.norm_comps true acc1 (PosixPath.norm_comps false acc2 ys)
    = PosixPath.norm_comps true
        (rev (PosixPath.norm_comps true acc1 (rev acc2))) ys.
Proof.
  induction ys as [|y ys IH]; intros acc1 acc2 H1 H2.
  - cbn [PosixPath.norm_comps]. by rewrite rev_involutive.
  - set (A := rev (PosixPath.norm_comps true acc1 (rev acc2))).
    assert (Forall plain A) as HA.
    { apply Forall_rev. by apply norm_comps_true_plain. }
    destruct (String.eqb_spec y "") as [->|Hy1]; [by apply IH|].
    destruct (String.eqb_spec y ".") as [->|Hy2]; [by apply IH|].
    destruct (String.eqb_spec y "..") as [->|Hy3].
    + rewrite (norm_comps_dotdot A) by done.
      cbn [PosixPath.norm_comps].
      change (String.eqb ".." "") with false.
      change (String.eqb ".." ".") with false.
      change (String.eqb ".." "..") with true. cbn [orb negb andb].
      assert (PosixPath.norm_comps true acc1
                (PosixPath.norm_comps false (".." :: acc2) ys)
              = PosixPath.norm_comps true (tail A) ys) as Hpush.
      { rewrite IH; [|done|by constructor]. cbn [rev].
        rewrite norm_comps_snoc. fold A. rewrite (norm_comps_dotdot A) by done.
        cbn [PosixPath.norm_comps]. by rewrite rev_involutive. }
      destruct acc2 as [|a acc2']; [exact Hpush|].
      destruct (String.eqb_spec a "..") as [->|Ha]; [exact Hpush|].
      inversion H2 as [|? ? [Ha1 Ha2] H2']; subst. cbn [orb].
      rewrite IH by done. f_equal. unfold A. cbn [rev].
      rewrite norm_comps_snoc, (norm_comps_push true a) by done.
      cbn [PosixPath.norm_comps]. by rewrite rev_involutive.
    + rewrite (norm_comps_push false y), (norm_comps_push true y A) by done.
      rewrite IH; [|done|by constructor]. f_equal. unfold A. cbn [rev].
      rewrite norm_comps_snoc, (norm_comps_push true y) by done.
      cbn [PosixPath.norm_comps]. by rewrite rev_involutive.
Qed.

Lemma join_relative_comps C :
  Forall clean C -> PyStr.startswith (PyStr.join "/" C) "/" = false.
Proof.
  intros HC. destruct C as [|x C]; [done|].
  inversion HC as [|? ? [Hne Hfree] _]; subst.
  destruct C as [|y C].
  - by apply PathFacts.startswith_free.
  - rewrite PathFacts.join_cons, PathFacts.startswith_app_nonempty by done.
    by apply PathFacts.startswith_free.
Qed.

Lemma norm_split_join acc C :
  Forall clean C ->
  PosixPath.norm_comps true acc (PyStr.split PosixPath.sep (PyStr.join "/" C))
  = PosixPath.norm_comps true acc C.
Proof.
  intros HC. destruct C as [|x C]; [done|].
  rewrite PathFacts.split_join; [done..|].
  eapply Forall_impl; [exact HC|]. by intros y [_ ?].
Qed.

(** On a file system without links, [realpath] and [abspath] normalise
    to the same components. *)
Lemma realpath_comps cwd q :
  PosixPath.isabs cwd = true ->
  PosixPath.norm_comps true []
    (PyStr.split PosixPath.sep (absolutize cwd (PosixPath.joinrealpath q)))
  = PosixPath.norm_comps true []
      (PyStr.split PosixPath.sep (absolutize cwd q)).
Proof.
  intros Hcwd. rewrite joinrealpath_spec, rev_involutive.
  set (C := PosixPath.norm_comps (PosixPath.isabs q) [] _).
  assert (Forall clean C) as HC.
  { apply PathFacts.norm_comps_clean; [apply PathFacts.split_all_free|done]. }
  unfold absolutize at 2. destruct (PosixPath.isabs q) eqn:Habs.
  - unfold absolutize, PosixPath.isabs. cbn [String.append].
    rewrite PathFacts.startswith_cons, Ascii.eqb_refl.
    cbn [PyStr.split]. rewrite Ascii.eqb_refl.
    cbn [PosixPath.norm_comps String.eqb orb].
    rewrite norm_split_join by done.
    rewrite norm_comps_plain_id; [done|]. by apply norm_comps_true_plain.
  - change ("" +:+ PyStr.join "/" C) with (PyStr.join "/" C).
    unfold absolutize, PosixPath.isabs. rewrite (join_relative_comps C HC).
    destruct (ResolveFacts.join_split_rel cwd (PyStr.join "/" C)
                (join_relative_comps C HC)) as (xs & -> & Hxs).
    destruct (ResolveFacts.join_split_rel cwd q Habs) as (xs' & -> & Hxs').
    assert (∀ zs, (cwd = "" ∧ zs = []
                   ∨ PyStr.split PosixPath.sep cwd = zs
                   ∨ PyStr.split PosixPath.sep cwd = zs ++ [""]) ->
                  PosixPath.norm_comps true [] zs
                  = PosixPath.norm_comps true []
                      (PyStr.split PosixPath.sep cwd)) as Hsame.
    { intros zs [[-> _]|[->| ->]]; [done|done|].
      by rewrite PathFacts.norm_comps_snoc_empty. }
    rewrite !norm_comps_app, (Hsame xs Hxs), (Hsame xs' Hxs').
    set (A := rev (PosixPath.norm_comps true [] (PyStr.split PosixPath.sep cwd))).
    rewrite norm_split_join by done. unfold C.
    rewrite (norm_twice _ A []); [|apply Forall_rev; by apply norm_comps_true_plain|done].
    cbn [rev PosixPath.norm_comps]. by rewrite rev_involutive.
Qed.

End RealpathFacts.

Section ScannedDirectory.

Variables (fsys : FileSystem) (path : string).
Hypothesis cwd_absolute : PosixPath.isabs (fs_cwd fsys) = true.

Lemma abspath_absolutize p :
  PosixPath.abspath (fs_cwd fsys) p
  = PosixPath.normpath (absolutize (fs_cwd fsys) p).
Proof. unfold PosixPath.abspath, absolutize. by destruct (PosixPath.isabs p). Qed.

Lemma absolutize_split :
  ∀ ys, PyStr.split PosixPath.sep path = ys ++ [REPO_DIR] ->
        ∃ zs, PyStr.split PosixPath.sep (absolutize (fs_cwd fsys) path)
              = zs ++ [REPO_DIR].
Proof.
  intros ys Hys. unfold absolutize. destruct (PosixPath.isabs path) eqn:Hp.
  - by exists ys.
  - destruct (ResolveFacts.join_split_rel (fs_cwd fsys) path Hp) as (xs & -> & _).
    exists (xs ++ ys). by rewrite Hys, app_assoc.
Qed.

(** The parent [main] computes, as the components below the root. *)
Lemma parent_stack zs :
  PyStr.split PosixPath.sep (absolutize (fs_cwd fsys) path) = zs ++ [REPO_DIR] ->
  PyStr.startswith (OS.realpath fsys (PosixPath.join path "..")) "/" = true
  ∧ resolve_stack fsys (OS.realpath fsys (PosixPath.join path ".."))
    = OS.descend_stack [fs_root fsys] (PosixPath.norm_comps true [] zs).
Proof.
  intros Hzs. unfold OS.realpath. rewrite abspath_absolutize.
  pose proof (PathFacts.absolutize_absolute (fs_cwd fsys)
                (PosixPath.joinrealpath (PosixPath.join path ".."))
                cwd_absolute) as HJ.
  destruct (ParentFacts.resolve_stack_normpath fsys _ HJ) as [Habs ->].
  split; [done|]. f_equal.
  rewrite RealpathFacts.realpath_comps by done.
  rewrite PathFacts.absolutize_join by done.
  set (P := absolutize (fs_cwd fsys) path) in *.
  destruct (PathFacts.join_split P "..") as (xs & -> & Hxs); [done|].
  rewrite ParentFacts.norm_comps_snoc_dotdot by done.
  assert (PosixPath.norm_comps true [] xs
          = PosixPath.norm_comps true [] zs ++ [REPO_DIR]) as ->.
  { rewrite <- PathFacts.norm_comps_snoc_name, <- Hzs by done.
    destruct Hxs as [->| ->]; [done|].
    by rewrite PathFacts.norm_comps_snoc_empty. }
  apply removelast_last.
Qed.

(** X12: on a file system without symbolic links, the tree [main] scans
    is the directory it was given.  For a path whose last segment is
    [lnxpcs] and which names a directory, the parent [main] computes with
    [realpath] and [..] is absolute, and [lnxpcs] below it, where
    [find_all_images] starts its walk, is that same directory, so that
    the scan gives the groups of the given directory. *)
Theorem X12_main_scans_the_given_directory :
  PosixPath.basename path = REPO_DIR ->
  OS.isdir fsys path = true ->
  let parent := OS.realpath fsys (PosixPath.join path "..") in
  PosixPath.isabs parent = true
  ∧ OS.resolve fsys (PosixPath.join parent REPO_DIR) = OS.resolve fsys path
  ∧ ∀ es, OS.resolve fsys path = Some (FDir es) ->
          wf_node (FDir es) = true ->
          find_all_images fsys parent = Ok (groups_of (FDir es)).
Proof.
  intros Hb Hdir parent.
  destruct (ParentFacts.basename_split path) as [ys Hys]. rewrite Hb in Hys.
  destruct (absolutize_split ys Hys) as [zs Hzs].
  destruct (parent_stack zs Hzs) as [Habs Hparent]. fold parent in Habs, Hparent.
  assert (OS.resolve fsys (PosixPath.join parent REPO_DIR) = OS.resolve fsys path)
    as Hsame.
  { unfold OS.isdir in Hdir.
    destruct (OS.resolve fsys path) as [n|] eqn:Hres; [|done].
    destruct (resolve_stack_Some fsys path n Hres) as [stack Hst].
    rewrite ParentFacts.resolve_stack_absolutize, Hzs in Hst by done.
    apply (ParentFacts.descend_norm (fs_root fsys) _ [] [fs_root fsys]) in Hst;
      [|done..].
    rewrite PathFacts.norm_comps_snoc_name, ResolveFacts.descend_app in Hst by done.
    rewrite ResolveFacts.resolve_resolve_stack.
    pose proof (PathFacts.join_nonempty parent REPO_DIR) as Hne.
    destruct (PosixPath.join parent REPO_DIR) as [|c top] eqn:Htop;
      [by destruct Hne|].
    rewrite <- Htop, ResolveFacts.resolve_stack_join, Hparent by done.
    change (PyStr.split PosixPath.sep REPO_DIR) with [REPO_DIR].
    destruct (OS.descend_stack [fs_root fsys] (PosixPath.norm_comps true [] zs));
      [|done].
    by rewrite Hst. }
  split; [done|]. split; [done|].
  intros es Hres Hwf. apply find_all_images_groups; [done| |done].
  by rewrite Hsame.
Qed.

End ScannedDirectory.

(* ===================================================================== *)
(** * From one run to the next *)
(* ===================================================================== *)

Section SecondRun.

Context {R : Type} `{Api : ImgurApi R}.

Lemma script_configured config argv (w : World R) :
  config_file w = Some config ->
  client_configured config ->
  script argv w
  = run_with_tokens config
      (default (PosixPath.abspath (fs_cwd (files w)) ".") argv) w.
Proof.
  intros Hfile (Hclient & Hid & Hsecret & user & Huser).
  unfold script, get_files, config_read.
  rewrite bind_run. simpl. rewrite bind_run. simpl.
  rewrite Hfile. simpl. by rewrite Hclient, Hid, Hsecret, Huser.
Qed.

Lemma set_tokens_keeps_client config option value config' :
  Config.set config TOKENS_SECTION option value = Ok config' ->
  client_configured config -> client_configured config'.
Proof.
  unfold Config.set. change (String.eqb TOKENS_SECTION "") with false.
  change (String.eqb TOKENS_SECTION Config.default_section) with false.
  cbn [orb]. destruct (cp_sections config !! TOKENS_SECTION) as [d|]; [|done].
  intros [= <-].
  unfold client_configured, Config.contains, Config.has_section,
    Config.has_option, Config.get.
  cbn [cp_sections cp_defaults].
  by rewrite !(lookup_insert_ne (cp_sections config) TOKENS_SECTION).
Qed.

Lemma add_section_keeps_client config :
  client_configured config ->
  client_configured (Config.add_section config TOKENS_SECTION).
Proof.
  unfold client_configured, Config.add_section, Config.contains,
    Config.has_section, Config.has_option, Config.get.
  cbn [cp_sections cp_defaults].
  by rewrite !(lookup_insert_ne (cp_sections config) TOKENS_SECTION).
Qed.

(** What a successful Auth Flow leaves behind. *)
Lemma auth_flow_ok config config' (w w1 : World R) :
  auth_flow config w = (Ok config', w1) ->
  config_file w1 = Some config'
  ∧ tokens_section_complete config'
  ∧ (client_configured config -> client_configured config').
Proof.
  unfold auth_flow. set (c := if negb _ then _ else _).
  assert (client_configured config -> client_configured c) as Hc.
  { unfold c. destruct (negb _); [apply add_section_keeps_client|done]. }
  clearbody c. unfold lift. rewrite bind_run.
  destruct (Config.getitem c CLIENT_SECTION "id") as [id|e]; [|done].
  cbn beta iota. rewrite bind_run.
  destruct (Config.getitem c CLIENT_SECTION "secret") as [secret|e]; [|done].
  cbn beta iota. rewrite request_new_token_steps. cbn zeta.
  destruct (api_new_client id secret None None (remote w)) as [[[]|e] r1];
    [|done].
  destruct (stdin w) as [|pin rest]; [done|].
  destruct (api_authorize pin "pin" r1) as [[creds|e] r2]; [|done].
  destruct (Config.set c TOKENS_SECTION "access" _) as [c1|e] eqn:H1; [|done].
  destruct (Config.set c1 TOKENS_SECTION "refresh" _) as [c2|e] eqn:H2; [|done].
  intros [= <- <-]. split; [done|]. split.
  - by apply (set_twice_complete c c1 c2 _ _ H1 H2).
  - intros Hcl. apply (set_tokens_keeps_client _ _ _ _ H2).
    apply (set_tokens_keeps_client _ _ _ _ H1). by apply Hc.
Qed.

(** X13: tokens are asked for once.  When a run of the script went through
    Auth Flow, the configuration file it leaves is the configuration with
    the tokens, and the next run of the script on that file goes straight
    to [main] with it: no authorization call, nothing read from the
    console, the file left as it is. *)
Theorem X13_tokens_are_requested_once (config config' : ConfigParser)
  (argv argv' : option string) (w w1 : World R) :
  config_file w = Some config ->
  client_configured config ->
  tokens_present config = false ->
  auth_flow config w = (Ok config', w1) ->
  let first := script argv w in
  let second := script argv' first.2 in
  config_file first.2 = Some config'
  ∧ second
    = main config'
        (default (PosixPath.abspath (fs_cwd (files first.2)) ".") argv') first.2
  ∧ ∃ l, new_calls first.2 second.2 l
         ∧ Forall not_authorize l
         ∧ stdin second.2 = stdin first.2
         ∧ config_file second.2 = Some config'.
Proof.
  intros Hfile Hclient Htokens Hflow first second.
  destruct (auth_flow_ok _ _ _ _ Hflow) as (Hfile1 & Hcomplete & Hclient').
  specialize (Hclient' Hclient).
  assert (config_file first.2 = Some config') as Hfirst.
  { unfold first. rewrite (script_configured config) by done.
    unfold run_with_tokens. rewrite Htokens, bind_run, Hflow.
    destruct (quiet_main config'
                (default (PosixPath.abspath (fs_cwd (files w)) ".") argv) w1)
      as (l & _ & _ & _ & Hf).
    by rewrite Hf. }
  assert (second
          = main config'
              (default (PosixPath.abspath (fs_cwd (files first.2)) ".") argv')
              first.2) as Hsecond.
  { unfold second. rewrite (script_configured config') by done.
    unfold run_with_tokens.
    by rewrite (proj2 (tokens_present_iff config') Hcomplete). }
  split; [done|]. split; [done|]. rewrite Hsecond.
  destruct (quiet_main config'
              (default (PosixPath.abspath (fs_cwd (files first.2)) ".") argv')
              first.2) as (l & Hl & Hp & Hin & Hf).
  exists l. split; [done|]. split; [done|]. split; [done|].
  by rewrite Hf.
Qed.

End SecondRun.

(* ===================================================================== *)
(** * The further properties at work *)
(* ===================================================================== *)

Lemma X2_config_file_rewritten_only_on_success_witness :
  Config.has_section Sim.config_no_tokens TOKENS_SECTION = false
  ∧ (request_new_token Sim.config_no_tokens "cid" "csecret" Sim.world_no_tokens).1
    = Raise (NoSectionError TOKENS_SECTION)
  ∧ config_file
      (request_new_token Sim.config_no_tokens "cid" "csecret" Sim.world_no_tokens).2
    = Some Sim.config_no_tokens.
Proof.
  assert (Config.has_section Sim.config_no_tokens TOKENS_SECTION = false) as H1
    by (vm_compute; reflexivity).
  split; [exact H1|].
  assert (stdin Sim.world_no_tokens = ["1234"]) as H2 by reflexivity.
  assert (api_new_client "cid" "csecret" None None (remote Sim.world_no_tokens)
          = (Ok tt,
             (api_new_client "cid" "csecret" None None
                (remote Sim.world_no_tokens)).2)) as H3
    by (vm_compute; reflexivity).
  assert (api_authorize "1234" "pin"
            (api_new_client "cid" "csecret" None None
               (remote Sim.world_no_tokens)).2
          = (Ok {| access_token := "acc-1234"; refresh_token := "ref-1234" |},
             (api_authorize "1234" "pin"
                (api_new_client "cid" "csecret" None None
                   (remote Sim.world_no_tokens)).2).2)) as H4
    by (vm_compute; reflexivity).
  destruct (proj2 (X2_config_file_rewritten_only_on_success Sim.config_no_tokens
                     "cid" "csecret" Sim.world_no_tokens)
              _ _ _ _ _ H1 H2 H3 H4) as (Hrun & _ & Hfile).
  split; [exact Hrun|exact Hfile].
Defined.

Lemma X3_last_listed_album_wins_witness :
  api_get_account_albums "tux" (remote Sim.world_foo)
  = (Ok [Sim.album_foo_with_a],
     (api_get_account_albums "tux" (remote Sim.world_foo)).2)
  ∧ ∃ l, new_calls Sim.world_foo (fetch_all_albums "tux" Sim.world_foo).2 l
         ∧ l `prefix_of` fetch_calls "tux" [Sim.album_foo_with_a].
Proof.
  assert (api_get_account_albums "tux" (remote Sim.world_foo)
          = (Ok [Sim.album_foo_with_a],
             (api_get_account_albums "tux" (remote Sim.world_foo)).2)) as H1
    by reflexivity.
  split; [exact H1|].
  exact (proj1 (X3_last_listed_album_wins "tux" _ _ Sim.world_foo H1)).
Defined.

Lemma X5_album_dictionary_only_grows_witness :
  reconcile "/r" ∅ Sim.group_foo Sim.world_fresh
  = (Ok {[ Some "lnxpcs/foo" :=
             {| album_id := "new"; album_title := Some "lnxpcs/foo";
                album_link := "https://imgur.com/a/new";
                album_deletehash := "dh-new"; album_images := [] |} ]},
     (reconcile "/r" ∅ Sim.group_foo Sim.world_fresh).2)
  ∧ ∀ key,
      is_Some (({[ Some "lnxpcs/foo" :=
                     {| album_id := "new"; album_title := Some "lnxpcs/foo";
                        album_link := "https://imgur.com/a/new";
                        album_deletehash := "dh-new"; album_images := [] |} ]}
                : gmap (option string) Album) !! key) ->
      is_Some ((∅ : gmap (option string) Album) !! key)
      ∨ ∃ title, title ∈ Sim.group_foo.*1 ∧ key = Some title.
Proof.
  assert (reconcile "/r" ∅ Sim.group_foo Sim.world_fresh
          = (Ok {[ Some "lnxpcs/foo" :=
                     {| album_id := "new"; album_title := Some "lnxpcs/foo";
                        album_link := "https://imgur.com/a/new";
                        album_deletehash := "dh-new"; album_images := [] |} ]},
             (reconcile "/r" ∅ Sim.group_foo Sim.world_fresh).2)) as H1
    by (vm_compute; reflexivity).
  split; [exact H1|].
  exact (proj2 (proj2 (X5_album_dictionary_only_grows "/r" _ _ _ _ _ H1))).
Defined.

Lemma X6_nothing_to_do_makes_no_call_witness :
  all_mirrored Sim.albums_foo [("lnxpcs/foo", ["a.png"])]
  ∧ ∃ lines,
      reconcile "/r" Sim.albums_foo [("lnxpcs/foo", ["a.png"])] Sim.world_foo
      = (Ok Sim.albums_foo, with_lines Sim.world_foo lines).
Proof.
  assert (all_mirrored Sim.albums_foo [("lnxpcs/foo", ["a.png"])]) as H1.
  { intros title pngs Hin. apply list_elem_of_singleton in Hin.
    injection Hin as -> ->. exists Sim.album_foo_with_a.
    split; [vm_compute; reflexivity|].
    intros png Hpng. apply list_elem_of_singleton in Hpng. subst png.
    eexists. split; [left|reflexivity]. }
  split; [exact H1|].
  exact (X6_nothing_to_do_makes_no_call "/r" _ _ Sim.world_foo H1).
Defined.

Lemma X8_groups_are_distinct_and_non_empty_witness :
  PosixPath.isabs (fs_cwd fs_example) = true
  ∧ OS.resolve fs_example (PosixPath.join "/home/u" REPO_DIR)
    = Some (FDir Sim.lnxpcs_entries)
  ∧ wf_node (FDir Sim.lnxpcs_entries) = true
  ∧ ∃ groups, find_all_images fs_example "/home/u" = Ok groups
              ∧ NoDup groups.*1.
Proof.
  assert (PosixPath.isabs (fs_cwd fs_example) = true) as H1 by reflexivity.
  assert (OS.resolve fs_example (PosixPath.join "/home/u" REPO_DIR)
          = Some (FDir Sim.lnxpcs_entries)) as H2 by reflexivity.
  assert (wf_node (FDir Sim.lnxpcs_entries) = true) as H3
    by (vm_compute; reflexivity).
  split; [exact H1|]. split; [exact H2|]. split; [exact H3|].
  destruct (X8_groups_are_distinct_and_non_empty fs_example "/home/u" H1
              Sim.lnxpcs_entries H2 H3) as (groups & Hscan & Hnd & _).
  exists groups. split; [exact Hscan|exact Hnd].
Defined.

Lemma X9_no_images_gives_the_empty_list_witness :
  PosixPath.isabs (fs_cwd fs_example) = true
  ∧ (∀ es, OS.resolve fs_example (PosixPath.join "/home" REPO_DIR)
           ≠ Some (FDir es))
  ∧ find_all_images fs_example "/home" = Ok [].
Proof.
  assert (PosixPath.isabs (fs_cwd fs_example) = true) as H1 by reflexivity.
  assert (∀ es, OS.resolve fs_example (PosixPath.join "/home" REPO_DIR)
                ≠ Some (FDir es)) as H2.
  { intros es H. vm_compute in H. discriminate. }
  split; [exact H1|]. split; [exact H2|].
  exact (proj1 (X9_no_images_gives_the_empty_list fs_example "/home" H1) H2).
Defined.

Lemma X11_built_paths_name_the_listed_entries_witness :
  PosixPath.isabs (fs_cwd fs_example) = true
  ∧ OS.resolve fs_example (PosixPath.join "/home/u" REPO_DIR)
    = Some (FDir Sim.lnxpcs_entries)
  ∧ wf_node (FDir Sim.lnxpcs_entries) = true
  ∧ ∃ groups,
      find_all_images fs_example "/home/u" = Ok groups
      ∧ ∀ title pngs,
          (title, pngs) ∈ groups ->
          ∃ ds es,
            subdir (FDir Sim.lnxpcs_entries) ds = Some (FDir es)
            ∧ title = rel_path ds
            ∧ OS.resolve fs_example (PosixPath.join "/home/u" title)
              = Some (FDir es)
            ∧ ∀ png, png ∈ pngs ->
                ∃ n, OS.lookup_entry png es = Some n
                     ∧ OS.is_dir n = false
                     ∧ OS.resolve fs_example
                         (PosixPath.join3 "/home/u" title png)
                       = Some n.
Proof.
  assert (PosixPath.isabs (fs_cwd fs_example) = true) as H1 by reflexivity.
  assert (OS.resolve fs_example (PosixPath.join "/home/u" REPO_DIR)
          = Some (FDir Sim.lnxpcs_entries)) as H2 by reflexivity.
  assert (wf_node (FDir Sim.lnxpcs_entries) = true) as H3
    by (vm_compute; reflexivity).
  split; [exact H1|]. split; [exact H2|]. split; [exact H3|].
  exact (X11_built_paths_name_the_listed_entries fs_example "/home/u" H1
           Sim.lnxpcs_entries H2 H3).
Defined.

Lemma X12_main_scans_the_given_directory_witness :
  PosixPath.isabs (fs_cwd fs_example) = true
  ∧ PosixPath.basename "../lnxpcs" = REPO_DIR
  ∧ OS.isdir fs_example "../lnxpcs" = true
  ∧ OS.resolve fs_example
      (PosixPath.join
         (OS.realpath fs_example (PosixPath.join "../lnxpcs" "..")) REPO_DIR)
    = OS.resolve fs_example "../lnxpcs".
Proof.
  assert (PosixPath.isabs (fs_cwd fs_example) = true) as H1 by reflexivity.
  assert (PosixPath.basename "../lnxpcs" = REPO_DIR) as H2
    by (vm_compute; reflexivity).
  assert (OS.isdir fs_example "../lnxpcs" = true) as H3
    by (vm_compute; reflexivity).
  split; [exact H1|]. split; [exact H2|]. split; [exact H3|].
  exact (proj1 (proj2 (X12_main_scans_the_given_directory fs_example
                         "../lnxpcs" H1 H2 H3))).
Defined.

Lemma X13_tokens_are_requested_once_witness :
  config_file Sim.world_no_tokens = Some Sim.config_no_tokens
  ∧ tokens_present Sim.config_no_tokens = false
  ∧ (auth_flow Sim.config_no_tokens Sim.world_no_tokens).1
    = Ok {| cp_defaults := {[ "user" := "tux" ]};
            cp_sections :=
              {[ "client" := {[ "id" := "cid"; "secret" := "csecret" ]};
                 "tokens" := {[ "access" := "acc-1234";
                                "refresh" := "ref-1234" ]} ]} |}
  ∧ config_file (script (Some "/r/lnxpcs") Sim.world_no_tokens).2
    = Some {| cp_defaults := {[ "user" := "tux" ]};
              cp_sections :=
                {[ "client" := {[ "id" := "cid"; "secret" := "csecret" ]};
                   "tokens" := {[ "access" := "acc-1234";
                                  "refresh" := "ref-1234" ]} ]} |}.
Proof.
  assert (config_file Sim.world_no_tokens = Some Sim.config_no_tokens) as H1
    by reflexivity.
  assert (client_configured Sim.config_no_tokens) as H2.
  { split; [vm_compute; reflexivity|]. split; [vm_compute; reflexivity|].
    split; [vm_compute; reflexivity|]. exists "tux". vm_compute. reflexivity. }
  assert (tokens_present Sim.config_no_tokens = false) as H3
    by (vm_compute; reflexivity).
  assert (auth_flow Sim.config_no_tokens Sim.world_no_tokens
          = (Ok {| cp_defaults := {[ "user" := "tux" ]};
                   cp_sections :=
                     {[ "client" := {[ "id" := "cid"; "secret" := "csecret" ]};
                        "tokens" := {[ "access" := "acc-1234";
                                       "refresh" := "ref-1234" ]} ]} |},
             (auth_flow Sim.config_no_tokens Sim.world_no_tokens).2)) as H4
    by (vm_compute; reflexivity).
  split; [exact H1|]. split; [exact H3|].
  split; [exact (f_equal fst H4)|].
  exact (proj1 (X13_tokens_are_requested_once _ _ (Some "/r/lnxpcs")
                  (Some "/r/lnxpcs") _ _ H1 H2 H3 H4)).
Defined.
